(** * igo: the indented-form parser, the scope tables, the FileSet
      serializer and two printer routines, embedded in Rocq.

    The development follows the Go sources:
    - [token]   : token kinds, positions, FileSet.Read / FileSet.Write
                  (token/serialize.go);
    - [ast]     : nodes, scopes and objects (the scope file of package ast);
    - [parser]  : the parser state and the productions of parser/parser.go
                  that declare, resolve, report errors and build blocks,
                  calls, receivers, function declarations and files;
    - [printer] : keepTypeColumn and the CallExpr case of expr1.

    Pointers of the Go program that are mutated after they have been shared
    (identifiers, objects, scopes) live in an explicit store and are
    referred to by index.  Go's [panic] is an outcome of the parser monad. *)

From stdpp Require Import gmap strings list fin_maps pretty.
From Stdlib Require Import ZArith.

Open Scope Z_scope.

(* ===================================================================== *)
(** * Package token *)
(* ===================================================================== *)

Module token.

(** [token.Token]: the kinds of go/token, with the three of the indented
    form ([INDENT], [DEDENT], [DO]). *)
Inductive Token :=
  | ILLEGAL | EOF | COMMENT
  | IDENT | INT | FLOAT | IMAG | CHAR | STRING
  | ADD | SUB | MUL | QUO | REM
  | AND | OR | XOR | SHL | SHR | AND_NOT
  | ADD_ASSIGN | SUB_ASSIGN | MUL_ASSIGN | QUO_ASSIGN | REM_ASSIGN
  | AND_ASSIGN | OR_ASSIGN | XOR_ASSIGN | SHL_ASSIGN | SHR_ASSIGN | AND_NOT_ASSIGN
  | LAND | LOR | ARROW | INC | DEC
  | EQL | LSS | GTR | ASSIGN | NOT
  | NEQ | LEQ | GEQ | DEFINE | ELLIPSIS
  | LPAREN | LBRACK | LBRACE | COMMA | PERIOD
  | RPAREN | RBRACK | RBRACE | SEMICOLON | COLON
  | BREAK | CASE | CHAN | CONST | CONTINUE
  | DEFAULT | DEFER | ELSE | FALLTHROUGH | FOR
  | FUNC | GO | GOTO | IF | IMPORT
  | INTERFACE | MAP | PACKAGE | RANGE | RETURN
  | SELECT | STRUCT | SWITCH | TYPE | VAR
  | INDENT | DEDENT | DO.

#[global] Instance Token_eq_dec : EqDecision Token.
Proof. unfold EqDecision, Decision. decide equality. Defined.

(** [token.Pos] is an int; [NoPos] is the zero value. *)
Definition Pos := Z.
Definition NoPos : Pos := 0.
Definition IsValid (p : Pos) : bool := negb (p =? NoPos).

(** [token.Position], the expanded form of a [Pos]. *)
Record Position := mkPosition {
  Filename : string;
  Offset : Z;
  Line : Z;
  Column : Z
}.

(** ** serialize.go *)

(** [lineInfo]: one //line override, as the wire format lists it. *)
Record lineInfo := mkLineInfo {
  li_Offset : Z;
  li_Filename : string;
  li_Line : Z
}.

Record serializedFile := mkSerializedFile {
  sf_Name : string;
  sf_Base : Z;
  sf_Size : Z;
  sf_Lines : list Z;
  sf_Infos : list lineInfo
}.

Record serializedFileSet := mkSerializedFileSet {
  ss_Base : Z;
  ss_Files : list serializedFile
}.

(** A [*FileSet] is identified by an address; a [File] keeps the address
    of the set that owns it (its first field). *)
Definition fileset_ref := nat.

Record File := mkFile {
  f_set : fileset_ref;
  f_name : string;
  f_base : Z;
  f_size : Z;
  f_lines : list Z;
  f_infos : list lineInfo
}.

(** [FileSet]: [fs_last] is the cache of the file used last, an index into
    [fs_files] (the Go field is a pointer to one of the files). *)
Record FileSet := mkFileSet {
  fs_addr : fileset_ref;
  fs_base : Z;
  fs_files : list File;
  fs_last : option nat
}.

(** The mutex is held around the body of both functions; in this
    sequential model Lock and Unlock are no-ops. *)

Section Serialize.
(** The encoder and decoder are callbacks of the embedder.  [W] is
    whatever they write to and read from; [error] their error type. *)
Context {W error : Type}.

(** [func (self *FileSet) Read(decode func(interface{}) error) error] *)
Definition Read (self : FileSet)
    (decode : W -> (serializedFileSet + error) * W) (w : W)
    : FileSet * option error * W :=
  match decode w with
  | (inr err, w') => (self, Some err, w')
  | (inl ss, w') =>
      let files :=
        map (fun f => mkFile (fs_addr self) (sf_Name f) (sf_Base f)
                             (sf_Size f) (sf_Lines f) (sf_Infos f))
            (ss_Files ss) in
      (mkFileSet (fs_addr self) (ss_Base ss) files None, None, w')
  end.

(** [func (self *FileSet) Write(encode func(interface{}) error) error] *)
Definition Write (self : FileSet)
    (encode : serializedFileSet -> W -> option error * W) (w : W)
    : option error * W :=
  let files :=
    map (fun f => mkSerializedFile (f_name f) (f_base f) (f_size f)
                                   (f_lines f) (f_infos f))
        (fs_files self) in
  encode (mkSerializedFileSet (fs_base self) files) w.
End Serialize.

(** The file that [Read], running for the set at [owner], makes of a file
    serialized by [Write]: the same fields, owned by [owner]. *)
Definition reread (owner : fileset_ref) (f : File) : File :=
  mkFile owner (f_name f) (f_base f) (f_size f) (f_lines f) (f_infos f).

End token.

(* ===================================================================== *)
(** * Package ast *)
(* ===================================================================== *)

Module ast.
Import token.

(** Addresses of the three kinds of node that are mutated after they have
    been shared: [*ast.Ident] (its [Obj] field), [*ast.Object] (compared by
    identity) and [*ast.Scope] (its [Objects] map). *)
Definition ident_ref := nat.
Definition obj_ref := nat.
Definition scope_ref := nat.

Record Comment := mkComment { Slash : Pos; Text : string }.
(** [*ast.CommentGroup]: its [List]. *)
Definition CommentGroup := list Comment.

Record BasicLitT := mkBasicLit { ValuePos : Pos; Kind : Token; Value : string }.

Inductive ChanDir := SEND | RECV | SEND_RECV.

(** The nodes.  Constructor arguments are the Go fields, in the order of
    the struct; a nil pointer or interface is [None], a nil slice is [[]].
    No traversal of the tree is defined here, so no induction scheme is
    generated for it. *)
#[local] Unset Elimination Schemes.
Inductive Expr :=
  | BadExpr (From To : Pos)
  | Ident (id : ident_ref)
  | Ellipsis (Ellipsis : Pos) (Elt : option Expr)
  | BasicLit (lit : BasicLitT)
  | FuncLit (Typ : FuncType) (Body : BlockStmt)
  | CompositeLit (Typ : option Expr) (Lbrace : Pos) (Elts : list Expr) (Rbrace : Pos)
  | ParenExpr (Lparen : Pos) (X : Expr) (Rparen : Pos)
  | SelectorExpr (X : Expr) (Sel : ident_ref)
  | IndexExpr (X : Expr) (Lbrack : Pos) (Index : option Expr) (Rbrack : Pos)
  | SliceExpr (X : Expr) (Lbrack : Pos) (Low High : option Expr) (Rbrack : Pos)
  | TypeAssertExpr (X : Expr) (Typ : option Expr)
  | CallExpr (Fun : Expr) (Lparen : Pos) (Args : list Expr) (Ellipsis Rparen : Pos)
  | StarExpr (Star : Pos) (X : Expr)
  | UnaryExpr (OpPos : Pos) (Op : Token) (X : Expr)
  | BinaryExpr (X : Expr) (OpPos : Pos) (Op : Token) (Y : Expr)
  | KeyValueExpr (Key : Expr) (Colon : Pos) (Value : Expr)
  | ArrayType (Lbrack : Pos) (Len : option Expr) (Elt : Expr)
  | StructType (Struct : Pos) (Fields : FieldList) (Incomplete : bool)
  | FuncTypeExpr (t : FuncType)
  | InterfaceType (Interface : Pos) (Methods : FieldList) (Incomplete : bool)
  | MapType (Map : Pos) (Key Value : Expr)
  | ChanType (Begin Arrow : Pos) (Dir : ChanDir) (Value : Expr)
with FuncType :=
  | mkFuncType (Func : Pos) (Params : option FieldList) (Results : option FieldList)
with FieldList :=
  | mkFieldList (Opening : Pos) (List : list Field) (Closing : Pos)
with Field :=
  | mkField (Doc : option CommentGroup) (Names : list ident_ref)
            (Typ : option Expr) (Tag : option BasicLitT)
            (Comment : option CommentGroup)
with BlockStmt :=
  | mkBlockStmt (Opening : Pos) (List : list Stmt) (Closing : Pos) (Small : bool)
with Stmt :=
  | BadStmt (From To : Pos)
  | DeclStmt (Decl : Decl)
  | EmptyStmt (Semicolon : Pos)
  | LabeledStmt (Label : ident_ref) (Colon : Pos) (Stmt : Stmt)
  | ExprStmt (X : Expr)
  | SendStmt (Chan : Expr) (Arrow : Pos) (Value : Expr)
  | IncDecStmt (X : Expr) (TokPos : Pos) (Tok : Token)
  | AssignStmt (Lhs : list Expr) (TokPos : Pos) (Tok : Token) (Rhs : list Expr)
  | GoStmt (Go : Pos) (Call : Expr)
  | DeferStmt (Defer : Pos) (Call : Expr)
  | ReturnStmt (Return : Pos) (Results : list Expr)
  | BranchStmt (TokPos : Pos) (Tok : Token) (Label : option ident_ref)
  | Block (b : BlockStmt)
  | IfStmt (If : Pos) (Init : option Stmt) (Cond : Expr) (Body : BlockStmt)
           (Else : option Stmt)
  | CaseClause (Case : Pos) (List : list Expr) (Colon : Pos) (Body : list Stmt)
  | SwitchStmt (Switch : Pos) (Init : option Stmt) (Tag : option Expr)
               (Body : BlockStmt)
  | TypeSwitchStmt (Switch : Pos) (Init : option Stmt) (Assign : Stmt)
                   (Body : BlockStmt)
  | CommClause (Case : Pos) (Comm : option Stmt) (Colon : Pos) (Body : list Stmt)
  | SelectStmt (Select : Pos) (Body : BlockStmt)
  | ForStmt (For : Pos) (Init : option Stmt) (Cond : option Expr)
            (Post : option Stmt) (Body : BlockStmt)
  | RangeStmt (For : Pos) (Key : Expr) (Value : option Expr) (TokPos : Pos)
              (Tok : Token) (X : Expr) (Body : BlockStmt)
with Decl :=
  | BadDecl (From To : Pos)
  | GenDecl (Doc : option CommentGroup) (TokPos : Pos) (Tok : Token)
            (Indent : Pos) (Specs : list Spec) (Dedent : Pos)
  | FuncDeclD (d : FuncDecl)
with FuncDecl :=
  | mkFuncDecl (Doc : option CommentGroup) (Recv : option FieldList)
               (Name : ident_ref) (Typ : FuncType) (Body : option BlockStmt)
with Spec :=
  | ImportSpec (Doc : option CommentGroup) (Name : option ident_ref)
               (Path : option BasicLitT) (Comment : option CommentGroup)
               (EndPos : Pos)
  | ValueSpec (Doc : option CommentGroup) (Names : list ident_ref)
              (Typ : option Expr) (Values : list Expr)
              (Comment : option CommentGroup)
  | TypeSpec (Doc : option CommentGroup) (Name : ident_ref)
             (Typ : option Expr) (Comment : option CommentGroup).
#[local] Set Elimination Schemes.

Definition FuncDecl_Recv (d : FuncDecl) : option FieldList :=
  let 'mkFuncDecl _ recv _ _ _ := d in recv.
Definition FuncDecl_Name (d : FuncDecl) : ident_ref :=
  let 'mkFuncDecl _ _ name _ _ := d in name.
Definition FieldList_List (l : FieldList) : list Field :=
  let 'mkFieldList _ l _ := l in l.
Definition Field_Names (f : Field) : list ident_ref :=
  let 'mkField _ names _ _ _ := f in names.
Definition Field_Type (f : Field) : option Expr :=
  let 'mkField _ _ typ _ _ := f in typ.
Definition BlockStmt_Opening (b : BlockStmt) : Pos :=
  let 'mkBlockStmt o _ _ _ := b in o.
Definition BlockStmt_List (b : BlockStmt) : list Stmt :=
  let 'mkBlockStmt _ l _ _ := b in l.
Definition BlockStmt_Closing (b : BlockStmt) : Pos :=
  let 'mkBlockStmt _ _ c _ := b in c.
Definition BlockStmt_Small (b : BlockStmt) : bool :=
  let 'mkBlockStmt _ _ _ s := b in s.
Definition CallExpr_Args (x : Expr) : list Expr :=
  match x with CallExpr _ _ args _ _ => args | _ => [] end.

(** [ast.File] *)
Record FileNode := mkFileNode {
  File_Doc : option CommentGroup;
  File_Package : Pos;
  File_Name : ident_ref;
  File_Decls : list Decl;
  File_Scope : option scope_ref;
  File_Imports : list Spec;
  File_Unresolved : list ident_ref;
  File_Comments : list CommentGroup
}.

(** ** Scopes and objects *)

Inductive ObjKind := Bad | Pkg | Con | Typ | Var | Fun | Lbl.

#[global] Instance ObjKind_eq_dec : EqDecision ObjKind.
Proof. solve_decision. Defined.

(** [Object.Decl]: the corresponding Field, XxxSpec, FuncDecl, LabeledStmt,
    AssignStmt, Scope; or nil. *)
Inductive ObjDecl :=
  | DeclNil
  | DeclField (f : Field)
  | DeclSpec (s : Spec)
  | DeclFunc (d : FuncDecl)
  | DeclOfStmt (s : Stmt)
  | DeclScope (s : scope_ref).

(** [Object.Data]: nil, or the iota of a constant declaration. *)
Inductive ObjData := DataNil | DataInt (n : Z).

(** [Object.Type] is never set by the parser and is left out. *)
Record Object := mkObject {
  Obj_Kind : ObjKind;
  Obj_Name : string;
  Obj_Decl : ObjDecl;
  Obj_Data : ObjData
}.

Record IdentT := mkIdent {
  NamePos : Pos;
  Name : string;
  Obj : option obj_ref
}.

Record Scope := mkScope {
  Outer : option scope_ref;
  Objects : gmap string obj_ref
}.

(** The store: cell [r] of each list is the node at address [r];
    allocation appends. *)
Record Store := mkStore {
  idents : list IdentT;
  objs : list Object;
  scopes : list Scope
}.

Definition set_idents (v : list IdentT) (st : Store) : Store :=
  mkStore v (objs st) (scopes st).
Definition set_objs (v : list Object) (st : Store) : Store :=
  mkStore (idents st) v (scopes st).
Definition set_scopes (v : list Scope) (st : Store) : Store :=
  mkStore (idents st) (objs st) v.

Definition new_ident (i : IdentT) (st : Store) : ident_ref * Store :=
  (length (idents st), set_idents (idents st ++ [i]) st).
Definition new_obj (o : Object) (st : Store) : obj_ref * Store :=
  (length (objs st), set_objs (objs st ++ [o]) st).

(** [ident.Obj = o] *)
Definition set_Obj (id : ident_ref) (o : option obj_ref) (st : Store) : Store :=
  match idents st !! id with
  | Some i => set_idents (<[id := mkIdent (NamePos i) (Name i) o]> (idents st)) st
  | None => st
  end.

(** [func NewScope(outer *Scope) *Scope] *)
Definition NewScope (outer : option scope_ref) (st : Store) : scope_ref * Store :=
  (length (scopes st), set_scopes (scopes st ++ [mkScope outer ∅]) st).

(** [func (self *Scope) Lookup(name string) *Object] *)
Definition Lookup (self : Scope) (name : string) : option obj_ref :=
  Objects self !! name.

(** [func (self *Scope) Insert(obj *Object) (alt *Object)]: the scope after
    the call and [alt]. *)
Definition Insert (self : Scope) (name : string) (obj : obj_ref)
    : Scope * option obj_ref :=
  match Objects self !! name with
  | None => (mkScope (Outer self) (<[name := obj]> (Objects self)), None)
  | Some alt => (self, Some alt)
  end.

(** [func NewObj(kind ObjKind, name string) *Object] *)
Definition NewObj (kind : ObjKind) (name : string) : Object :=
  mkObject kind name DeclNil DataNil.

(** First identifier of [names] called [name]; [None] when a cell is
    missing (a nil dereference in Go). *)
Fixpoint find_name (st : Store) (name : string) (names : list ident_ref)
    : option (option Pos) :=
  match names with
  | [] => Some None
  | n :: rest =>
      match idents st !! n with
      | None => None
      | Some i =>
          if decide (Name i = name) then Some (Some (NamePos i))
          else find_name st name rest
      end
  end.

(** The same over the identifiers among the expressions of [Lhs]. *)
Fixpoint find_lhs (st : Store) (name : string) (lhs : list Expr)
    : option (option Pos) :=
  match lhs with
  | [] => Some None
  | Ident n :: rest =>
      match idents st !! n with
      | None => None
      | Some i =>
          if decide (Name i = name) then Some (Some (NamePos i))
          else find_lhs st name rest
      end
  | _ :: rest => find_lhs st name rest
  end.

Definition pos_or_NoPos (r : option (option Pos)) : option Pos :=
  match r with
  | None => None
  | Some None => Some NoPos
  | Some (Some p) => Some p
  end.

(** [func (self *Object) Pos() token.Pos]; [None] is a nil dereference. *)
Definition Object_Pos (st : Store) (self : Object) : option Pos :=
  let name := Obj_Name self in
  match Obj_Decl self with
  | DeclField (mkField _ names _ _ _) => pos_or_NoPos (find_name st name names)
  | DeclSpec (ImportSpec _ dname path _ _) =>
      let viaPath :=
        match path with Some l => Some (ValuePos l) | None => None end in
      match dname with
      | Some n =>
          match idents st !! n with
          | None => None
          | Some i => if decide (Name i = name) then Some (NamePos i) else viaPath
          end
      | None => viaPath
      end
  | DeclSpec (ValueSpec _ names _ _ _) => pos_or_NoPos (find_name st name names)
  | DeclSpec (TypeSpec _ n _ _) => pos_or_NoPos (find_name st name [n])
  | DeclFunc (mkFuncDecl _ _ n _ _) => pos_or_NoPos (find_name st name [n])
  | DeclOfStmt (LabeledStmt l _ _) => pos_or_NoPos (find_name st name [l])
  | DeclOfStmt (AssignStmt lhs _ _ _) => pos_or_NoPos (find_lhs st name lhs)
  | DeclOfStmt _ => Some NoPos
  | DeclScope _ => Some NoPos
  | DeclNil => Some NoPos
  end.

End ast.

(* ===================================================================== *)
(** * Package parser *)
(* ===================================================================== *)

Module parser.
Import token ast.

Definition newline : string := String (Ascii.ascii_of_nat 10) EmptyString.
Definition tab : string := String (Ascii.ascii_of_nat 9) EmptyString.

(** [scanner.Error] and [scanner.ErrorList] *)
Record Error := mkError { Err_Pos : Position; Err_Msg : string }.

(** The scanner is not part of these sources.  Its state is what it has
    still to deliver: the (pos, tok, lit) triples up to the end of the
    file, and the position at which it then reports [EOF], again and again. *)
Record Scanner := mkScanner {
  sc_toks : list (Pos * Token * string);
  sc_eof : Pos
}.

(** [scanner.Scan()] *)
Definition Scan (s : Scanner) : (Pos * Token * string) * Scanner :=
  match sc_toks s with
  | [] => ((sc_eof s, EOF, EmptyString), s)
  | t :: rest => (t, mkScanner rest (sc_eof s))
  end.

(** The parser structure.  [file] is reached through [Services] below;
    [trace] and [indent] only drive the printing of the trace and [call]
    and [inDo] are never read or written: the four are left out. *)
Record parser := mkParser {
  p_errors : list Error;
  p_scanner : Scanner;
  p_mode : Z;
  p_comments : list CommentGroup;
  p_leadComment : option CommentGroup;
  p_lineComment : option CommentGroup;
  p_pos : Pos;
  p_tok : Token;
  p_ptok : Token;
  p_lit : string;
  p_syncPos : Pos;
  p_syncCnt : Z;
  p_exprLev : Z;
  p_inRhs : bool;
  p_allowEmptyBlock : bool;
  p_pkgScope : option scope_ref;
  p_topScope : option scope_ref;
  p_unresolved : list ident_ref;
  p_imports : list Spec;
  p_labelScope : option scope_ref;
  p_targetStack : list (list ident_ref);
  p_store : Store
}.

Definition set_errors (v : list Error) (p : parser) : parser :=
  mkParser v (p_scanner p) (p_mode p) (p_comments p) (p_leadComment p)
           (p_lineComment p) (p_pos p) (p_tok p) (p_ptok p) (p_lit p)
           (p_syncPos p) (p_syncCnt p) (p_exprLev p) (p_inRhs p)
           (p_allowEmptyBlock p) (p_pkgScope p) (p_topScope p)
           (p_unresolved p) (p_imports p) (p_labelScope p) (p_targetStack p)
           (p_store p).
Definition set_scanner (v : Scanner) (p : parser) : parser :=
  mkParser (p_errors p) v (p_mode p) (p_comments p) (p_leadComment p)
           (p_lineComment p) (p_pos p) (p_tok p) (p_ptok p) (p_lit p)
           (p_syncPos p) (p_syncCnt p) (p_exprLev p) (p_inRhs p)
           (p_allowEmptyBlock p) (p_pkgScope p) (p_topScope p)
           (p_unresolved p) (p_imports p) (p_labelScope p) (p_targetStack p)
           (p_store p).
Definition set_mode (v : Z) (p : parser) : parser :=
  mkParser (p_errors p) (p_scanner p) v (p_comments p) (p_leadComment p)
           (p_lineComment p) (p_pos p) (p_tok p) (p_ptok p) (p_lit p)
           (p_syncPos p) (p_syncCnt p) (p_exprLev p) (p_inRhs p)
           (p_allowEmptyBlock p) (p_pkgScope p) (p_topScope p)
           (p_unresolved p) (p_imports p) (p_labelScope p) (p_targetStack p)
           (p_store p).
Definition set_comments (v : list CommentGroup) (p : parser) : parser :=
  mkParser (p_errors p) (p_scanner p) (p_mode p) v (p_leadComment p)
           (p_lineComment p) (p_pos p) (p_tok p) (p_ptok p) (p_lit p)
           (p_syncPos p) (p_syncCnt p) (p_exprLev p) (p_inRhs p)
           (p_allowEmptyBlock p) (p_pkgScope p) (p_topScope p)
           (p_unresolved p) (p_imports p) (p_labelScope p) (p_targetStack p)
           (p_store p).
Definition set_leadComment (v : option CommentGroup) (p : parser) : parser :=
  mkParser (p_errors p) (p_scanner p) (p_mode p) (p_comments p) v
           (p_lineComment p) (p_pos p) (p_tok p) (p_ptok p) (p_lit p)
           (p_syncPos p) (p_syncCnt p) (p_exprLev p) (p_inRhs p)
           (p_allowEmptyBlock p) (p_pkgScope p) (p_topScope p)
           (p_unresolved p) (p_imports p) (p_labelScope p) (p_targetStack p)
           (p_store p).
Definition set_lineComment (v : option CommentGroup) (p : parser) : parser :=
  mkParser (p_errors p) (p_scanner p) (p_mode p) (p_comments p)
           (p_leadComment p) v (p_pos p) (p_tok p) (p_ptok p) (p_lit p)
           (p_syncPos p) (p_syncCnt p) (p_exprLev p) (p_inRhs p)
           (p_allowEmptyBlock p) (p_pkgScope p) (p_topScope p)
           (p_unresolved p) (p_imports p) (p_labelScope p) (p_targetStack p)
           (p_store p).
Definition set_pos (v : Pos) (p : parser) : parser :=
  mkParser (p_errors p) (p_scanner p) (p_mode p) (p_comments p)
           (p_leadComment p) (p_lineComment p) v (p_tok p) (p_ptok p)
           (p_lit p) (p_syncPos p) (p_syncCnt p) (p_exprLev p) (p_inRhs p)
           (p_allowEmptyBlock p) (p_pkgScope p) (p_topScope p)
           (p_unresolved p) (p_imports p) (p_labelScope p) (p_targetStack p)
           (p_store p).
Definition set_tok (v : Token) (p : parser) : parser :=
  mkParser (p_errors p) (p_scanner p) (p_mode p) (p_comments p)
           (p_leadComment p) (p_lineComment p) (p_pos p) v (p_ptok p)
           (p_lit p) (p_syncPos p) (p_syncCnt p) (p_exprLev p) (p_inRhs p)
           (p_allowEmptyBlock p) (p_pkgScope p) (p_topScope p)
           (p_unresolved p) (p_imports p) (p_labelScope p) (p_targetStack p)
           (p_store p).
Definition set_ptok (v : Token) (p : parser) : parser :=
  mkParser (p_errors p) (p_scanner p) (p_mode p) (p_comments p)
           (p_leadComment p) (p_lineComment p) (p_pos p) (p_tok p) v
           (p_lit p) (p_syncPos p) (p_syncCnt p) (p_exprLev p) (p_inRhs p)
           (p_allowEmptyBlock p) (p_pkgScope p) (p_topScope p)
           (p_unresolved p) (p_imports p) (p_labelScope p) (p_targetStack p)
           (p_store p).
Definition set_lit (v : string) (p : parser) : parser :=
  mkParser (p_errors p) (p_scanner p) (p_mode p) (p_comments p)
           (p_leadComment p) (p_lineComment p) (p_pos p) (p_tok p)
           (p_ptok p) v (p_syncPos p) (p_syncCnt p) (p_exprLev p)
           (p_inRhs p) (p_allowEmptyBlock p) (p_pkgScope p) (p_topScope p)
           (p_unresolved p) (p_imports p) (p_labelScope p) (p_targetStack p)
           (p_store p).
Definition set_syncPos (v : Pos) (p : parser) : parser :=
  mkParser (p_errors p) (p_scanner p) (p_mode p) (p_comments p)
           (p_leadComment p) (p_lineComment p) (p_pos p) (p_tok p)
           (p_ptok p) (p_lit p) v (p_syncCnt p) (p_exprLev p) (p_inRhs p)
           (p_allowEmptyBlock p) (p_pkgScope p) (p_topScope p)
           (p_unresolved p) (p_imports p) (p_labelScope p) (p_targetStack p)
           (p_store p).
Definition set_syncCnt (v : Z) (p : parser) : parser :=
  mkParser (p_errors p) (p_scanner p) (p_mode p) (p_comments p)
           (p_leadComment p) (p_lineComment p) (p_pos p) (p_tok p)
           (p_ptok p) (p_lit p) (p_syncPos p) v (p_exprLev p) (p_inRhs p)
           (p_allowEmptyBlock p) (p_pkgScope p) (p_topScope p)
           (p_unresolved p) (p_imports p) (p_labelScope p) (p_targetStack p)
           (p_store p).
Definition set_exprLev (v : Z) (p : parser) : parser :=
  mkParser (p_errors p) (p_scanner p) (p_mode p) (p_comments p)
           (p_leadComment p) (p_lineComment p) (p_pos p) (p_tok p)
           (p_ptok p) (p_lit p) (p_syncPos p) (p_syncCnt p) v (p_inRhs p)
           (p_allowEmptyBlock p) (p_pkgScope p) (p_topScope p)
           (p_unresolved p) (p_imports p) (p_labelScope p) (p_targetStack p)
           (p_store p).
Definition set_inRhs (v : bool) (p : parser) : parser :=
  mkParser (p_errors p) (p_scanner p) (p_mode p) (p_comments p)
           (p_leadComment p) (p_lineComment p) (p_pos p) (p_tok p)
           (p_ptok p) (p_lit p) (p_syncPos p) (p_syncCnt p) (p_exprLev p) v
           (p_allowEmptyBlock p) (p_pkgScope p) (p_topScope p)
           (p_unresolved p) (p_imports p) (p_labelScope p) (p_targetStack p)
           (p_store p).
Definition set_allowEmptyBlock (v : bool) (p : parser) : parser :=
  mkParser (p_errors p) (p_scanner p) (p_mode p) (p_comments p)
           (p_leadComment p) (p_lineComment p) (p_pos p) (p_tok p)
           (p_ptok p) (p_lit p) (p_syncPos p) (p_syncCnt p) (p_exprLev p)
           (p_inRhs p) v (p_pkgScope p) (p_topScope p) (p_unresolved p)
           (p_imports p) (p_labelScope p) (p_targetStack p) (p_store p).
Definition set_pkgScope (v : option scope_ref) (p : parser) : parser :=
  mkParser (p_errors p) (p_scanner p) (p_mode p) (p_comments p)
           (p_leadComment p) (p_lineComment p) (p_pos p) (p_tok p)
           (p_ptok p) (p_lit p) (p_syncPos p) (p_syncCnt p) (p_exprLev p)
           (p_inRhs p) (p_allowEmptyBlock p) v (p_topScope p)
           (p_unresolved p) (p_imports p) (p_labelScope p) (p_targetStack p)
           (p_store p).
Definition set_topScope (v : option scope_ref) (p : parser) : parser :=
  mkParser (p_errors p) (p_scanner p) (p_mode p) (p_comments p)
           (p_leadComment p) (p_lineComment p) (p_pos p) (p_tok p)
           (p_ptok p) (p_lit p) (p_syncPos p) (p_syncCnt p) (p_exprLev p)
           (p_inRhs p) (p_allowEmptyBlock p) (p_pkgScope p) v
           (p_unresolved p) (p_imports p) (p_labelScope p) (p_targetStack p)
           (p_store p).
Definition set_unresolved (v : list ident_ref) (p : parser) : parser :=
  mkParser (p_errors p) (p_scanner p) (p_mode p) (p_comments p)
           (p_leadComment p) (p_lineComment p) (p_pos p) (p_tok p)
           (p_ptok p) (p_lit p) (p_syncPos p) (p_syncCnt p) (p_exprLev p)
           (p_inRhs p) (p_allowEmptyBlock p) (p_pkgScope p) (p_topScope p) v
           (p_imports p) (p_labelScope p) (p_targetStack p) (p_store p).
Definition set_imports (v : list Spec) (p : parser) : parser :=
  mkParser (p_errors p) (p_scanner p) (p_mode p) (p_comments p)
           (p_leadComment p) (p_lineComment p) (p_pos p) (p_tok p)
           (p_ptok p) (p_lit p) (p_syncPos p) (p_syncCnt p) (p_exprLev p)
           (p_inRhs p) (p_allowEmptyBlock p) (p_pkgScope p) (p_topScope p)
           (p_unresolved p) v (p_labelScope p) (p_targetStack p) (p_store p).
Definition set_labelScope (v : option scope_ref) (p : parser) : parser :=
  mkParser (p_errors p) (p_scanner p) (p_mode p) (p_comments p)
           (p_leadComment p) (p_lineComment p) (p_pos p) (p_tok p)
           (p_ptok p) (p_lit p) (p_syncPos p) (p_syncCnt p) (p_exprLev p)
           (p_inRhs p) (p_allowEmptyBlock p) (p_pkgScope p) (p_topScope p)
           (p_unresolved p) (p_imports p) v (p_targetStack p) (p_store p).
Definition set_targetStack (v : list (list ident_ref)) (p : parser) : parser :=
  mkParser (p_errors p) (p_scanner p) (p_mode p) (p_comments p)
           (p_leadComment p) (p_lineComment p) (p_pos p) (p_tok p)
           (p_ptok p) (p_lit p) (p_syncPos p) (p_syncCnt p) (p_exprLev p)
           (p_inRhs p) (p_allowEmptyBlock p) (p_pkgScope p) (p_topScope p)
           (p_unresolved p) (p_imports p) (p_labelScope p) v (p_store p).
Definition set_store (v : Store) (p : parser) : parser :=
  mkParser (p_errors p) (p_scanner p) (p_mode p) (p_comments p)
           (p_leadComment p) (p_lineComment p) (p_pos p) (p_tok p)
           (p_ptok p) (p_lit p) (p_syncPos p) (p_syncCnt p) (p_exprLev p)
           (p_inRhs p) (p_allowEmptyBlock p) (p_pkgScope p) (p_topScope p)
           (p_unresolved p) (p_imports p) (p_labelScope p) (p_targetStack p)
           v.

(** [var unresolved = new(ast.Object)]: the sentinel is the first object
    allocated, before any parser runs. *)
Definition unresolved : obj_ref := 0%nat.
Definition store0 : Store := mkStore [] [mkObject Bad EmptyString DeclNil DataNil] [].

(** ** Outcomes *)

(** How a call ends when it does not return.  A Go [panic] carries the
    [bailout] value or a string (the panics of [assert] and
    [errorExpected], and the run-time errors of a nil dereference or an
    index out of range).  The last two are not panics: [Diverge] is a loop
    of the model that has used up its fuel, [Outside] a production asked
    for input outside the fragment it has been given for. *)
Inductive Panic :=
  | bailout
  | PanicMsg (msg : string)
  | Diverge
  | Outside.

Inductive Res (A : Type) :=
  | Ok (a : A) (p : parser)
  | Raise (e : Panic) (p : parser).
Arguments Ok {A} a p.
Arguments Raise {A} e p.

Definition M (A : Type) := parser -> Res A.

Definition ret {A} (a : A) : M A := fun p => Ok a p.
Definition bind {A B} (m : M A) (k : A -> M B) : M B :=
  fun p => match m p with
           | Ok a p' => k a p'
           | Raise e p' => Raise e p'
           end.
Definition raise {A} (e : Panic) : M A := fun p => Raise e p.
Definition gets {A} (f : parser -> A) : M A := fun p => Ok (f p) p.
Definition modify (f : parser -> parser) : M unit := fun p => Ok tt (f p).

Declare Scope parser_scope.
Delimit Scope parser_scope with parser.
Notation "x <- c ;; k" := (bind c (fun x => k))
  (at level 100, c at next level, k at level 200, right associativity)
  : parser_scope.
Notation "c ;; k" := (bind c (fun _ => k))
  (at level 100, k at level 200, right associativity) : parser_scope.
Open Scope parser_scope.

Definition nil_deref {A} : M A :=
  raise (PanicMsg "runtime error: invalid memory address or nil pointer dereference").
Definition out_of_range {A} : M A :=
  raise (PanicMsg "runtime error: index out of range").

Definition deref_ident (r : ident_ref) : M IdentT :=
  fun p => match idents (p_store p) !! r with
           | Some i => Ok i p
           | None => nil_deref p
           end.
Definition deref_obj (r : obj_ref) : M Object :=
  fun p => match objs (p_store p) !! r with
           | Some o => Ok o p
           | None => nil_deref p
           end.
Definition deref_scope (r : option scope_ref) : M Scope :=
  fun p => match r with
           | Some r =>
               match scopes (p_store p) !! r with
               | Some s => Ok s p
               | None => nil_deref p
               end
           | None => nil_deref p
           end.
Definition alloc_ident (i : IdentT) : M ident_ref :=
  fun p => let '(r, st) := new_ident i (p_store p) in Ok r (set_store st p).
Definition alloc_obj (o : Object) : M obj_ref :=
  fun p => let '(r, st) := new_obj o (p_store p) in Ok r (set_store st p).
Definition alloc_scope (outer : option scope_ref) : M scope_ref :=
  fun p => let '(r, st) := NewScope outer (p_store p) in Ok r (set_store st p).
Definition assign_Obj (id : ident_ref) (o : option obj_ref) : M unit :=
  modify (fun p => set_store (set_Obj id o (p_store p)) p).

(** ** Services of the packages that are not part of these sources *)

(** [token.File.Position] and the [String] method of its result,
    [Token.String] and [Token.IsLiteral], and the values of the mode bits
    (declared with the parser's entry points). *)
Class Services := {
  file_Position : Pos -> Position;
  Position_String : Position -> string;
  tok_String : Token -> string;
  tok_IsLiteral : Token -> bool;
  AllErrors : Z;
  DeclarationErrors : Z;
  PackageClauseOnly : Z;
  ImportsOnly : Z
}.

(** The productions of the grammar whose bodies are not embedded:
    expressions, types, parameter lists, simple statements, statement lists
    and specs.  The embedded productions call them through this interface,
    which is also where the mutual recursion of the descent is cut. *)
Class Productions := {
  parseRhsList : M (list Expr);
  parseRhsOrType : M Expr;
  parseSimpleStmt : Z -> M (Stmt * bool);
  parseStmtList : M (list Stmt);
  parseParameterList : scope_ref -> bool -> M (list Field);
  tryType : M (option Expr);
  (** [parseDecl(syncStmt)], as the statements call it *)
  parseDecl_syncStmt : M Decl;
  parseImportSpec : option CommentGroup -> Token -> Z -> M Spec;
  parseValueSpec : option CommentGroup -> Token -> Z -> M Spec;
  parseTypeSpec : option CommentGroup -> Token -> Z -> M Spec
}.

(** [Pos()] and [End()] of the expression nodes of package ast, which is
    not part of these sources. *)
Class NodeOps := {
  node_Pos : Expr -> Pos;
  node_End : Expr -> Pos
}.

(** Parsing modes for parseSimpleStmt. *)
Definition basic : Z := 0.
Definition labelOk : Z := 1.
Definition rangeOk : Z := 2.


Section Parser.
Context `{Services} `{Productions}.

(** [File.Line(p)] is [File.Position(p).Line]. *)
Definition file_Line (pos : Pos) : Z := Line (file_Position pos).

Definition has_mode (p : parser) (flag : Z) : bool :=
  negb (Z.land (p_mode p) flag =? 0).

(** ** Scoping support *)

Definition openScope : M unit :=
  top <- gets p_topScope ;;
  s <- alloc_scope top ;;
  modify (set_topScope (Some s)).

Definition closeScope : M unit :=
  top <- gets p_topScope ;;
  s <- deref_scope top ;;
  modify (set_topScope (Outer s)).

Definition openLabelScope : M unit :=
  lbl <- gets p_labelScope ;;
  s <- alloc_scope lbl ;;
  modify (set_labelScope (Some s)) ;;
  modify (fun p => set_targetStack (p_targetStack p ++ [[]]) p).

Definition isIndent (p : parser) : bool :=
  bool_decide (p_tok p = SEMICOLON) && bool_decide (p_lit p = newline).

(** ** Parsing support *)

(** Advance to the next token. *)
Definition next0 (p : parser) : parser :=
  let '((pos, tok, lit), s) := Scan (p_scanner p) in
  set_lit lit (set_tok tok (set_pos pos (set_scanner s (set_ptok (p_tok p) p)))).

(** Consume a comment and return it and the line on which it ends. *)
Definition consumeComment (p : parser) : Comment * Z * parser :=
  let endline := file_Line (p_pos p) in
  let comment := mkComment (p_pos p) (p_lit p) in
  (comment, endline, next0 p).

Fixpoint consumeCommentGroup_loop (fuel : nat) (n : Z) (lst : list Comment)
    (endline : Z) (p : parser) : list Comment * Z * parser :=
  match fuel with
  | O => (lst, endline, p)
  | S fuel =>
      if bool_decide (p_tok p = COMMENT) && (file_Line (p_pos p) <=? endline + n)
      then
        let '(comment, endline, p) := consumeComment p in
        consumeCommentGroup_loop fuel n (lst ++ [comment]) endline p
      else (lst, endline, p)
  end.

(** Consume a group of adjacent comments, add it to the parser's comments
    list, and return it with the line at which its last comment ends.
    Every turn of the loop takes a token from the scanner, so one more
    turn than it has tokens left ends at [EOF]. *)
Definition consumeCommentGroup (n : Z) (p : parser) : CommentGroup * Z * parser :=
  let endline := file_Line (p_pos p) in
  let '(lst, endline, p) :=
    consumeCommentGroup_loop (S (length (sc_toks (p_scanner p)))) n [] endline p in
  (lst, endline, set_comments (p_comments p ++ [lst]) p).

Fixpoint next_groups (fuel : nat) (comment : option CommentGroup) (endline : Z)
    (p : parser) : option CommentGroup * Z * parser :=
  match fuel with
  | O => (comment, endline, p)
  | S fuel =>
      if bool_decide (p_tok p = COMMENT) then
        let '(c, endline, p) := consumeCommentGroup 1 p in
        next_groups fuel (Some c) endline p
      else (comment, endline, p)
  end.

(** Advance to the next non-comment token, collecting the comment groups
    on the way and remembering the last lead and line comments. *)
Definition next (p : parser) : parser :=
  let p := set_lineComment None (set_leadComment None p) in
  let prev := p_pos p in
  let p := next0 p in
  if bool_decide (p_tok p = COMMENT) then
    let '(comment, p) :=
      if file_Line (p_pos p) =? file_Line prev then
        let '(c, endline, p) := consumeCommentGroup 0 p in
        if negb (file_Line (p_pos p) =? endline)
        then (Some c, set_lineComment (Some c) p)
        else (Some c, p)
      else (None, p) in
    let '(comment, endline, p) :=
      next_groups (S (length (sc_toks (p_scanner p)))) comment (-1) p in
    if endline + 1 =? file_Line (p_pos p)
    then set_leadComment comment p
    else p
  else p.

(** [func (self *parser) error(pos token.Pos, msg string)] *)
Definition error (pos : Pos) (msg : string) : M unit := fun p =>
  let epos := file_Position pos in
  let add := Ok tt (set_errors (p_errors p ++ [mkError epos msg]) p) in
  if Z.land (p_mode p) AllErrors =? 0 then
    let n := Z.of_nat (length (p_errors p)) in
    if (0 <? n) &&
       match last (p_errors p) with
       | Some e => Line (Err_Pos e) =? Line epos
       | None => false
       end
    then Ok tt p
    else if 10 <? n then Raise bailout p
    else add
  else add.

(** The new error is on the line of the last recorded one. *)
Definition same_line (p : parser) (pos : Pos) : bool :=
  match last (p_errors p) with
  | Some e => Line (Err_Pos e) =? Line (file_Position pos)
  | None => false
  end.

(** A parse that meets the errors [es] one after the other. *)
Fixpoint report (es : list (Pos * string)) : M unit :=
  match es with
  | [] => ret tt
  | e :: rest => error (fst e) (snd e) ;; report rest
  end.

(** No error of [es] is on the line of the one before it, [prev] being
    the line before the first. *)
Fixpoint fresh_lines (prev : option Z) (es : list (Pos * string)) : Prop :=
  match es with
  | [] => True
  | e :: rest =>
      prev <> Some (Line (file_Position (fst e)))
      /\ fresh_lines (Some (Line (file_Position (fst e)))) rest
  end.

Definition recorded (e : Pos * string) : Error :=
  mkError (file_Position (fst e)) (snd e).

(** [func (self *parser) errorExpected(pos token.Pos, msg string)]: the
    body ends in [panic(fmt.Sprintf("%s %s", self.file.Position(pos), msg))];
    the call of [error] that follows it in the source is commented out. *)
Definition errorExpected (pos : Pos) (msg : string) : M unit := fun p =>
  let msg := "expected " +:+ msg in
  let msg :=
    if pos =? p_pos p then
      if isIndent p then msg +:+ ", found newline"
      else
        let msg := msg +:+ ", found '" +:+ tok_String (p_tok p) +:+ "'" in
        if tok_IsLiteral (p_tok p) then msg +:+ " " +:+ p_lit p else msg
    else msg in
  Raise (PanicMsg (Position_String (file_Position pos) +:+ " " +:+ msg)) p.

(** [func (self *parser) expect(tok token.Token) token.Pos] *)
Definition expect (tok : Token) : M Pos :=
  pos <- gets p_pos ;;
  cur <- gets p_tok ;;
  (if bool_decide (cur <> tok)
   then errorExpected pos ("'" +:+ tok_String tok +:+ "'")
   else ret tt) ;;
  modify next ;;
  ret pos.

(** expectClosing is like expect but provides a better error message for
    the common case of a missing comma before a newline. *)
Definition expectClosing (tok : Token) (context : string) : M Pos :=
  cur <- gets p_tok ;;
  ind <- gets isIndent ;;
  (if bool_decide (cur <> tok) && ind then
     pos <- gets p_pos ;;
     error pos ("missing ',' before newline in " +:+ context) ;;
     modify next
   else ret tt) ;;
  expect tok.

Definition assert (cond : bool) (msg : string) : M unit :=
  if cond then ret tt
  else raise (PanicMsg ("go/parser internal error: " +:+ msg)).

Definition isStmtAnchor (t : Token) : bool :=
  match t with
  | BREAK | CONST | CONTINUE | DEFER | FALLTHROUGH | FOR | GO | GOTO
  | IF | RETURN | SELECT | SWITCH | TYPE | VAR => true
  | _ => false
  end.

Definition isDeclAnchor (t : Token) : bool :=
  match t with
  | CONST | TYPE | VAR => true
  | _ => false
  end.

(** The loop of syncStmt and syncDecl, which differ in their anchors. *)
Fixpoint sync_loop (anchor : Token -> bool) (fuel : nat) : M unit :=
  match fuel with
  | O => raise Diverge
  | S fuel =>
      tok <- gets p_tok ;;
      pos <- gets p_pos ;;
      syncPos <- gets p_syncPos ;;
      syncCnt <- gets p_syncCnt ;;
      if anchor tok then
        if (pos =? syncPos) && (syncCnt <? 10) then
          modify (set_syncCnt (syncCnt + 1))
        else if syncPos <? pos then
          modify (set_syncPos pos) ;;
          modify (set_syncCnt 0)
        else
          modify next ;; sync_loop anchor fuel
      else if bool_decide (tok = EOF) then ret tt
      else modify next ;; sync_loop anchor fuel
  end.

(** syncStmt advances to the next statement.  A turn that does not return
    calls [next]; two turns more than the scanner has tokens end at EOF. *)
Definition syncStmt : M unit := fun p =>
  sync_loop isStmtAnchor (S (S (length (sc_toks (p_scanner p))))) p.

(** syncDecl advances to the next declaration. *)
Definition syncDecl : M unit := fun p =>
  sync_loop isDeclAnchor (S (S (length (sc_toks (p_scanner p))))) p.

(** [func (self *parser) expectSemi()] *)
Definition expectSemi : M unit :=
  tok <- gets p_tok ;;
  ptok <- gets p_ptok ;;
  if bool_decide (tok <> RPAREN) && bool_decide (tok <> RBRACE)
     && bool_decide (tok <> DEDENT) then
    if bool_decide (tok = SEMICOLON) then modify next
    else if bool_decide (ptok = SEMICOLON) then ret tt
    else if bool_decide (ptok = COMMENT) then ret tt
    else if bool_decide (ptok = DEDENT) then ret tt
    else
      pos <- gets p_pos ;;
      errorExpected pos "';'" ;;
      syncStmt
  else ret tt.

(** [func (self *parser) atComma(context string) bool] *)
Definition atComma (context : string) : M bool :=
  tok <- gets p_tok ;;
  if bool_decide (tok = COMMA) then ret true
  else
    ind <- gets isIndent ;;
    if ind then
      pos <- gets p_pos ;;
      error pos ("missing ',' before newline in " +:+ context) ;;
      ret true
    else ret false.

(** ** Declaring and resolving *)

(** [scope.Insert(obj)] on the scope at [scope]. *)
Definition scope_Insert (scope : option scope_ref) (name : string)
    (obj : obj_ref) : M (option obj_ref) :=
  s <- deref_scope scope ;;
  let '(s', alt) := Insert s name obj in
  match scope with
  | Some r =>
      modify (fun p =>
        set_store (set_scopes (<[r := s']> (scopes (p_store p))) (p_store p)) p) ;;
      ret alt
  | None => nil_deref
  end.

(** [func (self *parser) declare(decl, data interface{}, scope *ast.Scope,
    kind ast.ObjKind, idents ...*ast.Ident)] *)
Fixpoint declare (decl : ObjDecl) (data : ObjData) (scope : option scope_ref)
    (kind : ObjKind) (idents : list ident_ref) : M unit :=
  match idents with
  | [] => ret tt
  | ident :: rest =>
      i <- deref_ident ident ;;
      assert (bool_decide (Obj i = None))
             "identifier already declared or resolved" ;;
      obj <- alloc_obj (mkObject kind (Name i) decl data) ;;
      assign_Obj ident (Some obj) ;;
      (if bool_decide (Name i <> "_") then
         alt <- scope_Insert scope (Name i) obj ;;
         declErrors <- gets (fun p => has_mode p DeclarationErrors) ;;
         match alt with
         | Some alt =>
             if declErrors then
               a <- deref_obj alt ;;
               st <- gets p_store ;;
               match Object_Pos st a with
               | None => nil_deref
               | Some pos =>
                   let prevDecl :=
                     if IsValid pos
                     then newline +:+ tab +:+ "previous declaration at "
                          +:+ Position_String (file_Position pos)
                     else EmptyString in
                   error (NamePos i)
                         (Name i +:+ " redeclared in this block" +:+ prevDecl)
               end
             else ret tt
         | None => ret tt
         end
       else ret tt) ;;
      declare decl data scope kind rest
  end.

(** The state once [declare] has made the object of [ident] and pointed
    the identifier at it. *)
Definition declared (decl : ObjDecl) (data : ObjData) (kind : ObjKind)
    (ident : ident_ref) (i : IdentT) (p : parser) : parser :=
  set_store
    (set_Obj ident (Some (length (objs (p_store p))))
       (set_objs (objs (p_store p) ++ [mkObject kind (Name i) decl data])
                 (p_store p))) p.

(** The message of a redeclaration whose previous object is at [pos]. *)
Definition redeclared_msg (i : IdentT) (pos : Pos) : string :=
  Name i +:+ " redeclared in this block" +:+
  (if IsValid pos
   then newline +:+ tab +:+ "previous declaration at "
        +:+ Position_String (file_Position pos)
   else EmptyString).

(** The walk of tryResolve from [s] outward.  Every scope is older than
    the scopes nested in it, so the walk visits a scope at most once. *)
Fixpoint resolve_walk (fuel : nat) (s : option scope_ref) (name : string)
    : M (option obj_ref) :=
  match s with
  | None => ret None
  | Some r =>
      match fuel with
      | O => raise Diverge
      | S fuel =>
          sc <- deref_scope (Some r) ;;
          match Lookup sc name with
          | Some obj => ret (Some obj)
          | None => resolve_walk fuel (Outer sc) name
          end
      end
  end.

(** The scopes from [s] outward are allocated, and each is older than the
    one nested in it ([NewScope] makes the inner one after the outer). *)
Inductive older_chain (scs : list Scope) : option scope_ref -> Prop :=
  | older_nil : older_chain scs None
  | older_cons r s :
      scs !! r = Some s ->
      (forall o, Outer s = Some o -> (o < r)%nat) ->
      older_chain scs (Outer s) ->
      older_chain scs (Some r).

(** [func (self *parser) tryResolve(x ast.Expr, collectUnresolved bool)] *)
Definition tryResolve (x : Expr) (collectUnresolved : bool) : M unit :=
  match x with
  | Ident ident =>
      i <- deref_ident ident ;;
      assert (bool_decide (Obj i = None))
             ("identifier '" +:+ Name i +:+ "' already declared or resolved") ;;
      if bool_decide (Name i = "_") then ret tt
      else
        top <- gets p_topScope ;;
        n <- gets (fun p => length (scopes (p_store p))) ;;
        found <- resolve_walk n top (Name i) ;;
        match found with
        | Some obj => assign_Obj ident (Some obj)
        | None =>
            if collectUnresolved then
              assign_Obj ident (Some unresolved) ;;
              modify (fun p => set_unresolved (p_unresolved p ++ [ident]) p)
            else ret tt
        end
  | _ => ret tt
  end.

Definition resolve (x : Expr) : M unit := tryResolve x true.

(** The state in which tryResolve leaves an identifier that it has looked
    up: linked to the object found, or marked and collected. *)
Definition resolved_as (id : ident_ref) (found : option obj_ref) (p : parser)
    : parser :=
  match found with
  | Some obj => set_store (set_Obj id (Some obj) (p_store p)) p
  | None =>
      set_unresolved (p_unresolved p ++ [id])
        (set_store (set_Obj id (Some unresolved) (p_store p)) p)
  end.


(** The loop of closeLabelScope over the targets of the function. *)
Fixpoint resolve_labels (scope : option scope_ref) (targets : list ident_ref)
    : M unit :=
  match targets with
  | [] => ret tt
  | ident :: rest =>
      i <- deref_ident ident ;;
      sc <- deref_scope scope ;;
      let o := Lookup sc (Name i) in
      assign_Obj ident o ;;
      declErrors <- gets (fun p => has_mode p DeclarationErrors) ;;
      (if bool_decide (o = None) && declErrors
       then error (NamePos i) ("label " +:+ Name i +:+ " undefined")
       else ret tt) ;;
      resolve_labels scope rest
  end.

(** [func (self *parser) closeLabelScope()] *)
Definition closeLabelScope : M unit :=
  stack <- gets p_targetStack ;;
  scope <- gets p_labelScope ;;
  match last stack with
  | None => out_of_range
  | Some targets =>
      resolve_labels scope targets ;;
      modify (set_targetStack (removelast stack)) ;;
      s <- deref_scope scope ;;
      modify (set_labelScope (Outer s))
  end.

(** ** Identifiers *)

Definition parseIdent : M ident_ref :=
  pos <- gets p_pos ;;
  tok <- gets p_tok ;;
  name <- (if bool_decide (tok = IDENT) then
             lit <- gets p_lit ;;
             modify next ;;
             ret lit
           else
             expect IDENT ;;
             ret "_") ;;
  alloc_ident (mkIdent pos name None).

Definition add_exprLev (d : Z) : M unit :=
  modify (fun p => set_exprLev (p_exprLev p + d) p).

(** ** Statements that a short-form block may hold *)

Definition parseReturnStmt : M Stmt :=
  pos <- gets p_pos ;;
  expect RETURN ;;
  tok <- gets p_tok ;;
  x <- (if bool_decide (tok <> SEMICOLON) && bool_decide (tok <> DEDENT)
        then parseRhsList
        else ret []) ;;
  expectSemi ;;
  ret (ReturnStmt pos x).

Definition parseBranchStmt (tok : Token) : M Stmt :=
  pos <- expect tok ;;
  cur <- gets p_tok ;;
  label <- (if bool_decide (tok <> FALLTHROUGH) && bool_decide (cur = IDENT) then
              label <- parseIdent ;;
              stack <- gets p_targetStack ;;
              match last stack with
              | None => out_of_range
              | Some targets =>
                  modify (set_targetStack (removelast stack ++ [targets ++ [label]])) ;;
                  ret (Some label)
              end
            else ret None) ;;
  expectSemi ;;
  ret (BranchStmt pos tok label).

Definition parseSmallStmt : M Stmt :=
  tok <- gets p_tok ;;
  match tok with
  | CONST | TYPE | VAR =>
      d <- parseDecl_syncStmt ;;
      ret (DeclStmt d)
  | IDENT | INT | FLOAT | IMAG | CHAR | STRING | FUNC | LPAREN
  | LBRACK | STRUCT
  | ADD | SUB | MUL | AND | XOR | ARROW | NOT =>
      sr <- parseSimpleStmt basic ;;
      ret (fst sr)
  | RETURN => parseReturnStmt
  | BREAK | CONTINUE | GOTO | FALLTHROUGH => parseBranchStmt tok
  | SEMICOLON =>
      pos <- gets p_pos ;;
      ret (EmptyStmt pos)
  | _ =>
      pos <- gets p_pos ;;
      errorExpected pos "small statement" ;;
      syncStmt ;;
      cur <- gets p_pos ;;
      ret (BadStmt pos cur)
  end.

(** ** Blocks *)

Definition parseBody (scope : scope_ref) : M BlockStmt :=
  tok <- gets p_tok ;;
  if bool_decide (tok = COLON) then
    colon <- expect COLON ;;
    modify (set_topScope (Some scope)) ;;
    tok <- gets p_tok ;;
    lst <- (if bool_decide (tok = SEMICOLON) then
              expectSemi ;;
              ret []
            else
              s <- parseSmallStmt ;;
              ret [s]) ;;
    closeScope ;;
    closing <- gets p_pos ;;
    ret (mkBlockStmt colon lst closing true)
  else
    expectSemi ;;
    tok <- gets p_tok ;;
    allowEmpty <- gets p_allowEmptyBlock ;;
    if bool_decide (tok = INDENT) then
      indent <- expect INDENT ;;
      openScope ;;
      openLabelScope ;;
      lst <- parseStmtList ;;
      closeLabelScope ;;
      closeScope ;;
      dedent <- expect DEDENT ;;
      ret (mkBlockStmt indent lst dedent false)
    else if allowEmpty then
      pos <- gets p_pos ;;
      ret (mkBlockStmt pos [] pos false)
    else
      pos <- gets p_pos ;;
      errorExpected pos "block" ;;
      pos <- gets p_pos ;;
      ret (mkBlockStmt pos [] pos false).

(** The state once [openScope] has run in [p]. *)
Definition opened (p : parser) : parser :=
  set_topScope (Some (length (scopes (p_store p))))
    (set_store
       (set_scopes (scopes (p_store p) ++ [mkScope (p_topScope p) ∅]) (p_store p))
       p).

(** The state once [ast.NewScope(self.topScope)] has run in [p]. *)
Definition with_func_scope (p : parser) : parser :=
  set_store
    (set_scopes (scopes (p_store p) ++ [mkScope (p_topScope p) ∅]) (p_store p))
    p.

Definition parseBlockStmt : M BlockStmt :=
  tok <- gets p_tok ;;
  if bool_decide (tok = COLON) then
    colon <- expect COLON ;;
    openScope ;;
    s <- parseSmallStmt ;;
    closeScope ;;
    pos <- gets p_pos ;;
    expectSemi ;;
    ret (mkBlockStmt colon [s] pos true)
  else
    expectSemi ;;
    tok <- gets p_tok ;;
    allowEmpty <- gets p_allowEmptyBlock ;;
    if bool_decide (tok = INDENT) then
      indent <- expect INDENT ;;
      openScope ;;
      lst <- parseStmtList ;;
      closeScope ;;
      dedent <- expect DEDENT ;;
      ret (mkBlockStmt indent lst dedent false)
    else if allowEmpty then
      pos <- gets p_pos ;;
      ret (mkBlockStmt pos [] pos false)
    else
      pos <- gets p_pos ;;
      errorExpected pos "block" ;;
      pos <- gets p_pos ;;
      ret (mkBlockStmt pos [] pos false).

(** ** Signatures *)

Definition parseParameters (scope : scope_ref) (ellipsisOk : bool) : M FieldList :=
  lparen <- expect LPAREN ;;
  tok <- gets p_tok ;;
  params <- (if bool_decide (tok <> RPAREN)
             then parseParameterList scope ellipsisOk
             else ret []) ;;
  rparen <- expect RPAREN ;;
  ret (mkFieldList lparen params rparen).

Definition parseResult (scope : scope_ref) : M (option FieldList) :=
  tok <- gets p_tok ;;
  if bool_decide (tok = LPAREN) then
    r <- parseParameters scope false ;;
    ret (Some r)
  else
    typ <- tryType ;;
    match typ with
    | Some t => ret (Some (mkFieldList NoPos [mkField None [] (Some t) None None] NoPos))
    | None => ret None
    end.

Definition parseSignature (scope : scope_ref) : M (FieldList * option FieldList) :=
  params <- parseParameters scope true ;;
  results <- parseResult scope ;;
  ret (params, results).

(** ** Calls *)

(** The argument loop of parseCallOrConversion.  A turn that goes on calls
    [next], so the body is entered at most once more than the scanner has
    tokens. *)
Fixpoint parseCallArgs (fuel : nat) (lst : list Expr) (ellipsis : Pos)
    : M (list Expr * Pos) :=
  tok <- gets p_tok ;;
  if bool_decide (tok <> RPAREN) && bool_decide (tok <> EOF)
     && negb (IsValid ellipsis) then
    match fuel with
    | O => raise Diverge
    | S fuel =>
        x <- parseRhsOrType ;;
        let lst := lst ++ [x] in
        tok <- gets p_tok ;;
        ellipsis <- (if bool_decide (tok = ELLIPSIS) then
                       pos <- gets p_pos ;;
                       modify next ;;
                       ret pos
                     else ret ellipsis) ;;
        comma <- atComma "argument list" ;;
        if negb comma then ret (lst, ellipsis)
        else
          modify next ;;
          parseCallArgs fuel lst ellipsis
    end
  else ret (lst, ellipsis).

(** The [do] sugar: [if self.tok == token.DO { ... }]. *)
Definition parseDoLit (lst : list Expr) : M (list Expr) :=
  tok <- gets p_tok ;;
  if bool_decide (tok = DO) then
    pos <- expect DO ;;
    top <- gets p_topScope ;;
    scope <- alloc_scope top ;;
    sig <- parseSignature scope ;;
    let typ := mkFuncType pos (Some (fst sig)) (snd sig) in
    add_exprLev 1 ;;
    body <- parseBody scope ;;
    add_exprLev (-1) ;;
    ret (lst ++ [FuncLit typ body])
  else ret lst.

Definition parseCallOrConversion (fn : Expr) : M Expr :=
  lparen <- expect LPAREN ;;
  add_exprLev 1 ;;
  fuel <- gets (fun p => S (length (sc_toks (p_scanner p)))) ;;
  args <- parseCallArgs fuel [] NoPos ;;
  add_exprLev (-1) ;;
  rparen <- expectClosing RPAREN "argument list" ;;
  lst <- parseDoLit (fst args) ;;
  ret (CallExpr fn lparen lst (snd args) rparen).

(** ** Function declarations *)

Definition parseReceiver (typ : Expr) (scope : scope_ref) : M Field :=
  ident <- alloc_ident (mkIdent NoPos "self" None) ;;
  let field := mkField None [ident] (Some typ) None None in
  declare (DeclField field) DataNil (Some scope) Var [ident] ;;
  match typ with
  | Ident _ => resolve typ
  | _ => ret tt
  end ;;
  ret field.

(** The receiver and the name of parseFuncDecl: from [lparen := self.pos]
    to the building of [recvList]. *)
Definition parseFuncDecl_name (scope : scope_ref)
    : M (option FieldList * ident_ref) :=
  lparen <- gets p_pos ;;
  tok <- gets p_tok ;;
  ri <- (if bool_decide (tok = MUL) then
           star <- expect MUL ;;
           typ <- parseIdent ;;
           recv <- parseReceiver (StarExpr star (Ident typ)) scope ;;
           expect PERIOD ;;
           ident <- parseIdent ;;
           ret (Some recv, ident)
         else
           ident <- parseIdent ;;
           tok <- gets p_tok ;;
           if bool_decide (tok = PERIOD) then
             recv <- parseReceiver (Ident ident) scope ;;
             modify next ;;
             ident <- parseIdent ;;
             ret (Some recv, ident)
           else ret (None, ident)) ;;
  closing <- gets p_pos ;;
  match fst ri with
  | Some recv => ret (Some (mkFieldList lparen [recv] closing), snd ri)
  | None => ret (None, snd ri)
  end.

(** parseFuncDecl up to the building of [decl]. *)
Definition parseFuncDecl_node : M FuncDecl :=
  doc <- gets p_leadComment ;;
  pos <- expect FUNC ;;
  top <- gets p_topScope ;;
  scope <- alloc_scope top ;;
  rn <- parseFuncDecl_name scope ;;
  sig <- parseSignature scope ;;
  body <- parseBody scope ;;
  ret (mkFuncDecl doc (fst rn) (snd rn)
                  (mkFuncType pos (Some (fst sig)) (snd sig)) (Some body)).

(** The end of parseFuncDecl: [if recv == nil { if ident.Name != "init"
    { self.declare(decl, nil, self.pkgScope, ast.Fun, ident) } }]. *)
Definition declareFunc (decl : FuncDecl) : M unit :=
  match FuncDecl_Recv decl with
  | None =>
      i <- deref_ident (FuncDecl_Name decl) ;;
      if bool_decide (Name i <> "init") then
        pkg <- gets p_pkgScope ;;
        declare (DeclFunc decl) DataNil pkg Fun [FuncDecl_Name decl]
      else ret tt
  | Some _ => ret tt
  end.

Definition parseFuncDecl : M FuncDecl :=
  decl <- parseFuncDecl_node ;;
  declareFunc decl ;;
  ret decl.

(** ** Declarations *)

Definition parseSpecFunction := option CommentGroup -> Token -> Z -> M Spec.

Fixpoint parseSpecs (fuel : nat) (f : parseSpecFunction) (keyword : Token)
    (iota : Z) (lst : list Spec) : M (list Spec) :=
  tok <- gets p_tok ;;
  if bool_decide (tok <> DEDENT) && bool_decide (tok <> EOF) then
    match fuel with
    | O => raise Diverge
    | S fuel =>
        lead <- gets p_leadComment ;;
        s <- f lead keyword iota ;;
        parseSpecs fuel f keyword (iota + 1) (lst ++ [s])
    end
  else ret lst.

Definition parseGenDecl (keyword : Token) (f : parseSpecFunction) : M Decl :=
  doc <- gets p_leadComment ;;
  pos <- expect keyword ;;
  tok <- gets p_tok ;;
  if bool_decide (tok = SEMICOLON) then
    expectSemi ;;
    indent <- expect INDENT ;;
    fuel <- gets (fun p => S (length (sc_toks (p_scanner p)))) ;;
    lst <- parseSpecs fuel f keyword 0 [] ;;
    dedent <- expect DEDENT ;;
    ret (GenDecl doc pos keyword indent lst dedent)
  else
    s <- f None keyword 0 ;;
    ret (GenDecl doc pos keyword NoPos [s] NoPos).

Definition parseDecl (sync : M unit) : M Decl :=
  tok <- gets p_tok ;;
  match tok with
  | CONST | VAR => parseGenDecl tok parseValueSpec
  | TYPE => parseGenDecl tok parseTypeSpec
  | FUNC =>
      d <- parseFuncDecl ;;
      ret (FuncDeclD d)
  | _ =>
      pos <- gets p_pos ;;
      errorExpected pos "declaration" ;;
      sync ;;
      cur <- gets p_pos ;;
      ret (BadDecl pos cur)
  end.

(** ** Source files *)

Fixpoint parseImports (fuel : nat) (decls : list Decl) : M (list Decl) :=
  tok <- gets p_tok ;;
  if bool_decide (tok = IMPORT) then
    match fuel with
    | O => raise Diverge
    | S fuel =>
        d <- parseGenDecl IMPORT parseImportSpec ;;
        parseImports fuel (decls ++ [d])
    end
  else ret decls.

Fixpoint parseDecls (fuel : nat) (decls : list Decl) : M (list Decl) :=
  tok <- gets p_tok ;;
  if bool_decide (tok <> EOF) then
    match fuel with
    | O => raise Diverge
    | S fuel =>
        d <- parseDecl syncDecl ;;
        parseDecls fuel (decls ++ [d])
    end
  else ret decls.

(** The last loop of parseFile, "resolve global identifiers within the
    same file": [n] turns are left, [j] is the index the range has reached
    and [i] the number of identifiers kept so far.  The kept identifiers
    are written back into the array the range is reading. *)
Fixpoint resolveGlobals (n j i : nat) : M nat :=
  match n with
  | O => ret i
  | S n =>
      arr <- gets p_unresolved ;;
      match arr !! j with
      | None => out_of_range
      | Some ident =>
          id <- deref_ident ident ;;
          assert (bool_decide (Obj id = Some unresolved))
                 "object already resolved" ;;
          pkg <- gets p_pkgScope ;;
          sc <- deref_scope pkg ;;
          let o := Lookup sc (Name id) in
          assign_Obj ident o ;;
          match o with
          | None =>
              modify (fun p => set_unresolved (<[i := ident]> (p_unresolved p)) p) ;;
              resolveGlobals n (S j) (S i)
          | Some _ => resolveGlobals n (S j) i
          end
      end
  end.

(** An identifier of the list survives when the package scope has no
    object of its name. *)
Definition survivor (st : Store) (sc : Scope) (id : ident_ref) : bool :=
  match idents st !! id with
  | Some i => bool_decide (Lookup sc (Name i) = None)
  | None => false
  end.

Definition parseFile : M (option FileNode) :=
  nerr <- gets (fun p => length (p_errors p)) ;;
  if bool_decide (nerr <> 0%nat) then ret None
  else
    doc <- gets p_leadComment ;;
    pos <- expect PACKAGE ;;
    ident <- parseIdent ;;
    i <- deref_ident ident ;;
    (if bool_decide (Name i = "_") then
       cur <- gets p_pos ;;
       error cur "invalid package name _"
     else ret tt) ;;
    expectSemi ;;
    nerr <- gets (fun p => length (p_errors p)) ;;
    if bool_decide (nerr <> 0%nat) then ret None
    else
      openScope ;;
      top <- gets p_topScope ;;
      modify (set_pkgScope top) ;;
      clauseOnly <- gets (fun p => has_mode p PackageClauseOnly) ;;
      importsOnly <- gets (fun p => has_mode p ImportsOnly) ;;
      decls <- (if negb clauseOnly then
                  fuel <- gets (fun p => S (length (sc_toks (p_scanner p)))) ;;
                  decls <- parseImports fuel [] ;;
                  if negb importsOnly then
                    fuel <- gets (fun p => S (length (sc_toks (p_scanner p)))) ;;
                    parseDecls fuel decls
                  else ret decls
                else ret []) ;;
      closeScope ;;
      top <- gets p_topScope ;;
      assert (bool_decide (top = None)) "unbalanced scopes" ;;
      lbl <- gets p_labelScope ;;
      assert (bool_decide (lbl = None)) "unbalanced label scopes" ;;
      n <- gets (fun p => length (p_unresolved p)) ;;
      i <- resolveGlobals n 0 0 ;;
      pkg <- gets p_pkgScope ;;
      imports <- gets p_imports ;;
      unres <- gets p_unresolved ;;
      comments <- gets p_comments ;;
      ret (Some (mkFileNode doc pos ident decls pkg imports (take i unres) comments)).

(** [func (self *parser) init(fset, filename, src, mode)]: the file and the
    scanner are set up, every other field has its zero value, and the first
    token is read. *)
Definition init (toks : list (Pos * Token * string)) (eof : Pos) (mode : Z)
    : parser :=
  next (mkParser [] (mkScanner toks eof) mode [] None None
                 NoPos ILLEGAL ILLEGAL EmptyString NoPos 0 0 false false
                 None None [] [] None [] store0).

(** ** Identifier lists *)

(** The loop of parseIdentList, [for self.tok == token.COMMA].  Every turn
    calls [next], so the body is entered at most once more than the
    scanner has tokens. *)
Fixpoint parseIdentList_loop (fuel : nat) (lst : list ident_ref)
    : M (list ident_ref) :=
  tok <- gets p_tok ;;
  if bool_decide (tok = COMMA) then
    match fuel with
    | O => raise Diverge
    | S fuel =>
        modify next ;;
        id <- parseIdent ;;
        parseIdentList_loop fuel (lst ++ [id])
    end
  else ret lst.

(** [func (self *parser) parseIdentList() (list []*ast.Ident)] *)
Definition parseIdentList : M (list ident_ref) :=
  id <- parseIdent ;;
  fuel <- gets (fun p => S (length (sc_toks (p_scanner p)))) ;;
  parseIdentList_loop fuel [id].

(** ** Checks on expressions *)

(** [func unparen(x ast.Expr) ast.Expr] *)
Fixpoint unparen (x : Expr) : Expr :=
  match x with
  | ParenExpr _ y _ => unparen y
  | _ => x
  end.

(** [func deref(x ast.Expr) ast.Expr] *)
Definition deref (x : Expr) : Expr :=
  match x with
  | StarExpr _ y => y
  | _ => x
  end.

(** [func isTypeName(x ast.Expr) bool] *)
Definition isTypeName (x : Expr) : bool :=
  match x with
  | BadExpr _ _ => true
  | Ident _ => true
  | SelectorExpr (Ident _) _ => true
  | SelectorExpr _ _ => false
  | _ => false
  end.

(** [func isLiteralType(x ast.Expr) bool] *)
Definition isLiteralType (x : Expr) : bool :=
  match x with
  | BadExpr _ _ => true
  | Ident _ => true
  | SelectorExpr (Ident _) _ => true
  | SelectorExpr _ _ => false
  | ArrayType _ _ _ => true
  | StructType _ _ _ => true
  | MapType _ _ _ => true
  | _ => false
  end.

(** The expressions that the switch of checkExpr lets pass. *)
Definition properExpr (x : Expr) : bool :=
  match x with
  | BadExpr _ _ | Ident _ | BasicLit _ | FuncLit _ _ | CompositeLit _ _ _ _
  | SelectorExpr _ _ | IndexExpr _ _ _ _ | SliceExpr _ _ _ _ _
  | TypeAssertExpr _ _ | CallExpr _ _ _ _ _ | StarExpr _ _
  | UnaryExpr _ _ _ | BinaryExpr _ _ _ _ => true
  | _ => false
  end.

(** [Pos()] and [End()] of the nodes of package ast come through
    [NodeOps], the position of an identifier apart, which is its NamePos
    (as [declare] and [Object.Pos] read it). *)
Context `{NodeOps}.

(** [x.Pos()] *)
Definition expr_Pos (x : Expr) : M Pos :=
  match x with
  | Ident id => i <- deref_ident id ;; ret (NamePos i)
  | _ => ret (node_Pos x)
  end.

(** [func (self *parser) checkExpr(x ast.Expr) ast.Expr] *)
Definition checkExpr (x : Expr) : M Expr :=
  match unparen x with
  | BadExpr _ _ | Ident _ | BasicLit _ | FuncLit _ _ | CompositeLit _ _ _ _ =>
      ret x
  | ParenExpr _ _ _ => raise (PanicMsg "unreachable")
  | SelectorExpr _ _ | IndexExpr _ _ _ _ | SliceExpr _ _ _ _ _
  | TypeAssertExpr _ _ | CallExpr _ _ _ _ _ | StarExpr _ _
  | UnaryExpr _ _ _ | BinaryExpr _ _ _ _ =>
      ret x
  | _ =>
      pos <- expr_Pos x ;;
      errorExpected pos "expression" ;;
      from <- expr_Pos x ;;
      ret (BadExpr from (node_End x))
  end.

(** ** Short variable declarations *)

(** The range loop of shortVarDecl; [n] counts the new variables. *)
Fixpoint shortVarDecl_loop (decl : Stmt) (lst : list Expr) (n : Z) : M Z :=
  match lst with
  | [] => ret n
  | Ident ident :: rest =>
      i <- deref_ident ident ;;
      assert (bool_decide (Obj i = None))
             "identifier already declared or resolved" ;;
      obj <- alloc_obj (mkObject Var (Name i) (DeclOfStmt decl) DataNil) ;;
      assign_Obj ident (Some obj) ;;
      n <- (if bool_decide (Name i <> "_") then
              top <- gets p_topScope ;;
              alt <- scope_Insert top (Name i) obj ;;
              match alt with
              | Some alt => assign_Obj ident (Some alt) ;; ret n
              | None => ret (n + 1)
              end
            else ret n) ;;
      shortVarDecl_loop decl rest n
  | x :: rest =>
      pos <- expr_Pos x ;;
      errorExpected pos "identifier on left side of :=" ;;
      shortVarDecl_loop decl rest n
  end.

(** [func (self *parser) shortVarDecl(decl *ast.AssignStmt, list []ast.Expr)] *)
Definition shortVarDecl (decl : Stmt) (lst : list Expr) : M unit :=
  n <- shortVarDecl_loop decl lst 0 ;;
  declErrors <- gets (fun p => has_mode p DeclarationErrors) ;;
  if (n =? 0) && declErrors then
    match lst with
    | [] => out_of_range
    | x :: _ =>
        pos <- expr_Pos x ;;
        error pos "no new variables on left side of :="
    end
  else ret tt.

(** ** Views of the state for the statements about it *)

(** The token the parser is at, followed by the tokens the scanner has
    still to deliver. *)
Definition upcoming (p : parser) : list (Pos * Token * string) :=
  (p_pos p, p_tok p, p_lit p) :: sc_toks (p_scanner p).

(** What the scanner reports once its tokens are used up. *)
Definition eof_token (p : parser) : Pos * Token * string :=
  (sc_eof (p_scanner p), EOF, EmptyString).

(** The tokens [s] once [k] of them have been read, the scanner reporting
    [e] from the end on. *)
Definition after (k : nat) (s : list (Pos * Token * string))
    (e : Pos * Token * string) : list (Pos * Token * string) :=
  match drop k s with
  | [] => [e]
  | l => l
  end.

Definition isComment (t : Pos * Token * string) : bool :=
  bool_decide (snd (fst t) = COMMENT).

(** The comment that consumeComment makes of a comment token. *)
Definition comment_of (t : Pos * Token * string) : Comment :=
  mkComment (fst (fst t)) (snd t).

(** The comment tokens at the head of [s], and what follows them. *)
Fixpoint leading_comments (s : list (Pos * Token * string))
    : list (Pos * Token * string) :=
  match s with
  | [] => []
  | t :: rest => if isComment t then t :: leading_comments rest else []
  end.

Fixpoint after_comments (s : list (Pos * Token * string))
    : list (Pos * Token * string) :=
  match s with
  | [] => []
  | t :: rest => if isComment t then after_comments rest else s
  end.

(** What reading tokens leaves alone: every field but the scanner's
    tokens, the current and the previous token and the comments. *)
Definition token_frame (p q : parser) : Prop :=
  p_errors q = p_errors p
  /\ sc_eof (p_scanner q) = sc_eof (p_scanner p)
  /\ p_mode q = p_mode p
  /\ p_syncPos q = p_syncPos p
  /\ p_syncCnt q = p_syncCnt p
  /\ p_exprLev q = p_exprLev p
  /\ p_inRhs q = p_inRhs p
  /\ p_allowEmptyBlock q = p_allowEmptyBlock p
  /\ p_pkgScope q = p_pkgScope p
  /\ p_topScope q = p_topScope p
  /\ p_unresolved q = p_unresolved p
  /\ p_imports q = p_imports p
  /\ p_labelScope q = p_labelScope p
  /\ p_targetStack q = p_targetStack p
  /\ p_store q = p_store p.

(** The scopes from [s] outward, the innermost first. *)
Inductive scope_path (scs : list Scope) : option scope_ref -> list Scope -> Prop :=
  | path_nil : scope_path scs None []
  | path_cons r sc l :
      scs !! r = Some sc ->
      scope_path scs (Outer sc) l ->
      scope_path scs (Some r) (sc :: l).

(** The object that the first scope of [path] holding [name] has for it. *)
Fixpoint first_hit (name : string) (path : list Scope) : option obj_ref :=
  match path with
  | [] => None
  | sc :: rest =>
      match Lookup sc name with
      | Some obj => Some obj
      | None => first_hit name rest
      end
  end.

(** No two errors that follow each other in the list are on one line. *)
Fixpoint lines_differ (l : list Error) : Prop :=
  match l with
  | e1 :: ((e2 :: _) as rest) =>
      Line (Err_Pos e1) <> Line (Err_Pos e2) /\ lines_differ rest
  | _ => True
  end.

(** What syncStmt and syncDecl leave alone: what reading tokens leaves
    alone, the two synchronization fields apart. *)
Definition sync_frame (p q : parser) : Prop :=
  token_frame p (set_syncCnt (p_syncCnt p) (set_syncPos (p_syncPos p) q)).

(** A bound on the turns of the loop of syncStmt and syncDecl. *)
Definition sync_measure (p : parser) : nat :=
  if bool_decide (p_tok p = EOF) then 1 else 2 + length (sc_toks (p_scanner p)).

(** The errors of closeLabelScope for the targets whose label the scope
    [sc] does not hold, in the order of the targets. *)
Definition label_errors (st : Store) (sc : Scope) (targets : list ident_ref)
    : list Error :=
  omap (fun id =>
          match idents st !! id with
          | Some i =>
              match Lookup sc (Name i) with
              | None =>
                  Some (mkError (file_Position (NamePos i))
                                ("label " +:+ Name i +:+ " undefined"))
              | Some _ => None
              end
          | None => None
          end) targets.

(** An identifier of a list after the first: the comma before it, its
    position and its name. *)
Record listed := mkListed {
  comma_pos : Pos;
  comma_lit : string;
  name_pos : Pos;
  name_lit : string
}.

(** The tokens of the identifiers of a list after the first. *)
Definition listed_tokens (more : list listed) : list (Pos * Token * string) :=
  flat_map (fun m => [(comma_pos m, COMMA, comma_lit m);
                      (name_pos m, IDENT, name_lit m)]) more.

Definition listed_ident (m : listed) : IdentT :=
  mkIdent (name_pos m) (name_lit m) None.


End Parser.

End parser.

(* ===================================================================== *)
(** * The printer *)
(* ===================================================================== *)

Module printer.
Import token ast.

(** ** keepTypeColumn *)

(** [for ; i < j; i++ { m[i] = true }], [n] turns from index [i]. *)
Fixpoint populate_loop (n i : nat) (m : list bool) : list bool :=
  match n with
  | O => m
  | S n => populate_loop n (S i) (<[i := true]> m)
  end.

(** The closure [populate] of keepTypeColumn. *)
Definition populate (i j : Z) (keepType : bool) (m : list bool) : list bool :=
  if keepType then populate_loop (Z.to_nat (j - i)) (Z.to_nat i) m else m.

Definition is_nil {A} (l : list A) : bool :=
  match l with [] => true | _ => false end.

(** The range loop of keepTypeColumn: spec [i] is the head of [specs];
    the state is [i0], [keepType] and [m].  [None] is the panic of the
    type assertion of [s] to a ValueSpec. *)
Fixpoint keepTypeColumn_loop (specs : list Spec) (i i0 : Z) (keepType : bool)
    (m : list bool) : option (Z * bool * list bool) :=
  match specs with
  | [] => Some (i0, keepType, m)
  | ValueSpec _ _ typ values _ :: rest =>
      let '(i0, keepType, m) :=
        if negb (is_nil values) then
          if i0 <? 0 then (i, false, m) else (i0, keepType, m)
        else
          if 0 <=? i0 then (-1, keepType, populate i0 i keepType m)
          else (i0, keepType, m) in
      let keepType := if typ is Some _ then true else keepType in
      keepTypeColumn_loop rest (i + 1) i0 keepType m
  | _ :: _ => None
  end.

(** [func keepTypeColumn(specs []ast.Spec) []bool] *)
Definition keepTypeColumn (specs : list Spec) : option (list bool) :=
  let m := replicate (length specs) false in
  match keepTypeColumn_loop specs 0 (-1) false m with
  | None => None
  | Some (i0, keepType, m) =>
      Some (if 0 <=? i0
            then populate i0 (Z.of_nat (length specs)) keepType m
            else m)
  end.

(** The property of keepTypeColumn in the words of its specification.
    [hasValues] and [hasType] read a value spec; [run_has_type specs] says
    that the run of specs with values that starts at the head of [specs]
    holds a spec with a type; [keepTypeColumn_spec seen specs] is the
    column of booleans, [seen] telling whether the run that the head of
    [specs] continues has already shown a type. *)
Definition isValueSpec (s : Spec) : bool :=
  match s with ValueSpec _ _ _ _ _ => true | _ => false end.
Definition hasValues (s : Spec) : bool :=
  match s with ValueSpec _ _ _ values _ => negb (is_nil values) | _ => false end.
Definition hasType (s : Spec) : bool :=
  match s with ValueSpec _ _ (Some _) _ _ => true | _ => false end.

Fixpoint run_has_type (specs : list Spec) : bool :=
  match specs with
  | [] => false
  | s :: rest => hasValues s && (hasType s || run_has_type rest)
  end.

Fixpoint keepTypeColumn_spec (seen : bool) (specs : list Spec) : list bool :=
  match specs with
  | [] => []
  | s :: rest =>
      if hasValues s
      then (seen || run_has_type specs) :: keepTypeColumn_spec (seen || hasType s) rest
      else false :: keepTypeColumn_spec false rest
  end.

(** Spec [i] and spec [j] are in one run: every spec from the one to the
    other has initialization values. *)
Definition same_run (specs : list Spec) (i j : nat) : Prop :=
  forall k, (Nat.min i j <= k <= Nat.max i j)%nat ->
            exists s, specs !! k = Some s /\ hasValues s = true.

(** Spec [l] has initialization values; spec [j] has an explicit type. *)
Definition values_at (specs : list Spec) (l : nat) : Prop :=
  exists u, specs !! l = Some u /\ hasValues u = true.
Definition type_at (specs : list Spec) (j : nat) : Prop :=
  exists t, specs !! j = Some t /\ hasType t = true.

(** The end of keepTypeColumn: the run that is open when the range is over
    is populated. *)
Definition finish (n : nat) (r : option (Z * bool * list bool)) : option (list bool) :=
  match r with
  | None => None
  | Some (i0, keepType, m) =>
      Some (if 0 <=? i0 then populate i0 (Z.of_nat n) keepType m else m)
  end.

(** The loop state [i0]: the start of the open run, or -1; and the index
    from which the column has not been written yet. *)
Definition i0_of (run : option nat) : Z :=
  match run with Some a => Z.of_nat a | None => -1 end.
Definition from (run : option nat) (k : nat) : nat :=
  match run with Some a => a | None => k end.

(** ** The CallExpr case of expr1 *)

Inductive whiteSpace :=
  | ignore | blank | vtab | newline | formfeed | indent | unindent.

(** What [print] is given: a token, a position or a white space. *)
Inductive printArg :=
  | PTok (t : Token)
  | PPos (p : Pos)
  | PWhite (w : whiteSpace).

Definition exprListMode := Z.
Definition commaTerm : exprListMode := 1.
Definition noIndent : exprListMode := 2.

(** The printer state and the routines that the case calls.  Their bodies
    are the rest of the printer; [HighestPrec] is [token.HighestPrec]. *)
Class PrinterOps := {
  printerT : Type;
  print : list printArg -> printerT -> printerT;
  expr1 : Expr -> Z -> Z -> printerT -> printerT;
  exprList : Pos -> list Expr -> Z -> exprListMode -> Pos -> printerT -> printerT;
  signature : option FieldList -> option FieldList -> printerT -> printerT;
  adjBlock : BlockStmt -> printerT -> printerT;
  lineFor : Pos -> printerT -> Z;
  HighestPrec : Z
}.

Section Expr1.
Context `{PrinterOps}.

(** [case *ast.CallExpr:] in expr1, for [x = CallExpr fn lparen args
    ellipsis rparen]; any other [x] is another case of the switch. *)
Definition expr1_CallExpr (x : Expr) (depth : Z) (p : printerT) : printerT :=
  match x with
  | CallExpr fn lparen args ellipsis rparen =>
      let depth := if (1 <? Z.of_nat (length args)) then depth + 1 else depth in
      let p :=
        match fn with
        | FuncTypeExpr _ =>
            print [PTok RPAREN] (expr1 fn HighestPrec depth (print [PTok LPAREN] p))
        | _ => expr1 fn HighestPrec depth p
        end in
      let p := print [PPos lparen; PTok LPAREN] p in
      if IsValid ellipsis then
        let p := exprList lparen args depth 0 ellipsis p in
        let p := print [PPos ellipsis; PTok ELLIPSIS] p in
        let p :=
          if IsValid rparen && (lineFor ellipsis p <? lineFor rparen p)
          then print [PTok COMMA; PWhite formfeed] p
          else p in
        print [PPos rparen; PTok RPAREN] p
      else
        match last args with
        | Some (FuncLit (mkFuncType _ params results) body) =>
            let args' := removelast args in
            let p := exprList lparen args' depth commaTerm rparen p in
            let p := print [PPos rparen; PTok RPAREN] p in
            let p := print [PWhite blank; PTok DO] p in
            let p := signature params results p in
            adjBlock body p
        | Some _ =>
            let p := exprList lparen args depth commaTerm rparen p in
            print [PPos rparen; PTok RPAREN] p
        | None => print [PPos rparen; PTok RPAREN] p
        end
  | _ => p
  end.

(** The printing of the function of a call: [x.Fun], in parentheses when
    it is a literal function type. *)
Definition print_fun (fn : Expr) (depth : Z) (p : printerT) : printerT :=
  match fn with
  | FuncTypeExpr _ =>
      print [PTok RPAREN] (expr1 fn HighestPrec depth (print [PTok LPAREN] p))
  | _ => expr1 fn HighestPrec depth p
  end.

(** The [do] form in the words of the specification: the arguments
    before the function literal inside the parentheses, then a blank and
    [do], then the signature of the literal, then its body. *)
Definition print_do_call (fn : Expr) (lparen : Pos) (args : list Expr)
    (rparen : Pos) (params results : option FieldList) (body : BlockStmt)
    (depth : Z) (p : printerT) : printerT :=
  let p := print_fun fn depth p in
  let p := print [PPos lparen; PTok LPAREN] p in
  let p := exprList lparen args depth commaTerm rparen p in
  let p := print [PPos rparen; PTok RPAREN] p in
  let p := print [PWhite blank; PTok DO] p in
  let p := signature params results p in
  adjBlock body p.

End Expr1.

(** ** The cutoff of binary expressions *)

(** [Token.Precedence] and [Token.String] of package token, which is not
    part of these sources. *)
Class TokenOps := {
  Precedence : Token -> Z;
  Token_String : Token -> string
}.

Section Binary.
Context `{TokenOps}.

(** [func walkBinary(e *ast.BinaryExpr) (has4, has5 bool, maxProblem int)].
    The argument is a binary expression; the last case is there for the
    match to be total and is never reached with one. *)
Fixpoint walkBinary (e : Expr) : bool * bool * Z :=
  match e with
  | BinaryExpr X _ Op Y =>
      let has4 := Precedence Op =? 4 in
      let has5 := Precedence Op =? 5 in
      let maxProblem := 0 in
      let '(has4, has5, maxProblem) :=
        match X with
        | BinaryExpr _ _ lOp _ =>
            if Precedence lOp <? Precedence Op then (has4, has5, maxProblem)
            else
              let '(h4, h5, mp) := walkBinary X in
              (has4 || h4, has5 || h5,
               if maxProblem <? mp then mp else maxProblem)
        | _ => (has4, has5, maxProblem)
        end in
      match Y with
      | BinaryExpr _ _ rOp _ =>
          if Precedence rOp <=? Precedence Op then (has4, has5, maxProblem)
          else
            let '(h4, h5, mp) := walkBinary Y in
            (has4 || h4, has5 || h5,
             if maxProblem <? mp then mp else maxProblem)
      | StarExpr _ _ =>
          if bool_decide (Op = QUO) then (has4, has5, 5)
          else (has4, has5, maxProblem)
      | UnaryExpr _ rOp _ =>
          let s := Token_String Op +:+ Token_String rOp in
          if bool_decide (s = "/*") || bool_decide (s = "&&")
             || bool_decide (s = "&^")
          then (has4, has5, 5)
          else if bool_decide (s = "++") || bool_decide (s = "--")
          then (has4, has5, if maxProblem <? 4 then 4 else maxProblem)
          else (has4, has5, maxProblem)
      | _ => (has4, has5, maxProblem)
      end
  | _ => (false, false, 0)
  end.

(** [func cutoff(e *ast.BinaryExpr, depth int) int] *)
Definition cutoff (e : Expr) (depth : Z) : Z :=
  let '(has4, has5, maxProblem) := walkBinary e in
  if 0 <? maxProblem then maxProblem + 1
  else if has4 && has5 then
    if depth =? 1 then 5 else 4
  else
    if depth =? 1 then 6 else 4.

(** [func diffPrec(expr ast.Expr, prec int) int] *)
Definition diffPrec (expr : Expr) (prec : Z) : Z :=
  match expr with
  | BinaryExpr _ _ Op _ => if negb (prec =? Precedence Op) then 1 else 0
  | _ => 1
  end.

(** [func reduceDepth(depth int) int] *)
Definition reduceDepth (depth : Z) : Z :=
  let depth := depth - 1 in
  if depth <? 1 then 1 else depth.

End Binary.

End printer.

(* ===================================================================== *)
(** * A fragment of the remaining productions, and services to run it *)
(* ===================================================================== *)

(** The examples below run the embedded productions on token streams.  For
    that the interface [Productions] is given the behaviour of the source
    on a small fragment: operands that are an identifier or a basic literal,
    lists of them, the statements [x], [x++] and [x--], and type names.
    On any other input a production of the fragment ends in [Outside]. *)

Module fragment.
Import token ast parser.

Definition outside {A} : M A := raise Outside.

Definition isBinaryOp (t : Token) : bool :=
  match t with
  | LOR | LAND | EQL | NEQ | LSS | LEQ | GTR | GEQ
  | ADD | SUB | OR | XOR
  | MUL | QUO | REM | SHL | SHR | AND | AND_NOT => true
  | _ => false
  end.

Section Fragment.
Context `{Services}.

(** parseOperand on an identifier or a basic literal. *)
Definition parseOperand (lhs : bool) : M Expr :=
  tok <- gets p_tok ;;
  match tok with
  | IDENT =>
      x <- parseIdent ;;
      (if negb lhs then resolve (Ident x) else ret tt) ;;
      ret (Ident x)
  | INT | FLOAT | IMAG | CHAR | STRING =>
      pos <- gets p_pos ;;
      lit <- gets p_lit ;;
      modify next ;;
      ret (BasicLit (mkBasicLit pos tok lit))
  | _ => outside
  end.

(** parseExpr when the operand is the whole expression: the token after
    it opens no selector, index, call or literal value and is no binary
    operator ([=] counts as [==] in a right-hand side). *)
Definition parseExpr (lhs : bool) : M Expr :=
  x <- parseOperand lhs ;;
  tok <- gets p_tok ;;
  inRhs <- gets p_inRhs ;;
  match tok with
  | PERIOD | LBRACK | LPAREN | LBRACE => outside
  | _ =>
      if isBinaryOp tok || (inRhs && bool_decide (tok = ASSIGN)) then outside
      else ret x
  end.

Definition frag_parseRhsOrType : M Expr :=
  old <- gets p_inRhs ;;
  modify (set_inRhs true) ;;
  x <- parseExpr false ;;
  modify (set_inRhs old) ;;
  ret x.

(** The loop of parseExprList: [for self.tok == token.COMMA]. *)
Fixpoint parseExprList_loop (fuel : nat) (lhs : bool) (lst : list Expr)
    : M (list Expr) :=
  tok <- gets p_tok ;;
  if bool_decide (tok = COMMA) then
    match fuel with
    | O => raise Diverge
    | S fuel =>
        modify next ;;
        x <- parseExpr lhs ;;
        parseExprList_loop fuel lhs (lst ++ [x])
    end
  else ret lst.

Definition parseExprList (lhs : bool) : M (list Expr) :=
  x <- parseExpr lhs ;;
  fuel <- gets (fun p => S (length (sc_toks (p_scanner p)))) ;;
  parseExprList_loop fuel lhs [x].

Definition frag_parseRhsList : M (list Expr) :=
  old <- gets p_inRhs ;;
  modify (set_inRhs true) ;;
  lst <- parseExprList false ;;
  modify (set_inRhs old) ;;
  ret lst.

Fixpoint resolve_all (l : list Expr) : M unit :=
  match l with
  | [] => ret tt
  | x :: rest => resolve x ;; resolve_all rest
  end.

(** parseSimpleStmt on one operand, alone or followed by [++] or [--]. *)
Definition frag_parseSimpleStmt (mode : Z) : M (Stmt * bool) :=
  old <- gets p_inRhs ;;
  modify (set_inRhs false) ;;
  x <- parseExpr true ;;
  tok <- gets p_tok ;;
  match tok with
  | COMMA | DEFINE | ASSIGN | ADD_ASSIGN | SUB_ASSIGN | MUL_ASSIGN
  | QUO_ASSIGN | REM_ASSIGN | AND_ASSIGN | OR_ASSIGN | XOR_ASSIGN
  | SHL_ASSIGN | SHR_ASSIGN | AND_NOT_ASSIGN | COLON | ARROW => outside
  | _ =>
      resolve_all [x] ;;
      modify (set_inRhs old) ;;
      match tok with
      | INC | DEC =>
          pos <- gets p_pos ;;
          modify next ;;
          ret (IncDecStmt x pos tok, false)
      | _ => ret (ExprStmt x, false)
      end
  end.

(** tryType on a (qualified) type name, or on a token that starts no type. *)
Definition frag_tryType : M (option Expr) :=
  tok <- gets p_tok ;;
  match tok with
  | IDENT =>
      ident <- parseIdent ;;
      tok <- gets p_tok ;;
      typ <- (if bool_decide (tok = PERIOD) then
                modify next ;;
                resolve (Ident ident) ;;
                sel <- parseIdent ;;
                ret (SelectorExpr (Ident ident) sel)
              else ret (Ident ident)) ;;
      resolve typ ;;
      ret (Some typ)
  | LBRACK | STRUCT | MUL | FUNC | INTERFACE | MAP | CHAN | ARROW | LPAREN =>
      outside
  | _ => ret None
  end.

#[export] Instance productions : Productions := {|
  parseRhsList := frag_parseRhsList;
  parseRhsOrType := frag_parseRhsOrType;
  parseSimpleStmt := frag_parseSimpleStmt;
  parseStmtList := outside;
  parseParameterList := fun _ _ => outside;
  tryType := frag_tryType;
  parseDecl_syncStmt := outside;
  parseImportSpec := fun _ _ _ => outside;
  parseValueSpec := fun _ _ _ => outside;
  parseTypeSpec := fun _ _ _ => outside
|}.

End Fragment.

(** Services for the examples: a file called demo.igo whose lines are 100
    positions long, so that position [p] is on line [p / 100 + 1]; the
    token strings and the mode bits of go/token and go/parser. *)
Definition demo_Position (pos : Pos) : Position :=
  mkPosition "demo.igo" (pos - 1) (pos / 100 + 1) (pos `mod` 100).

Definition demo_Position_String (p : Position) : string :=
  Filename p +:+ ":" +:+ pretty (Line p) +:+ ":" +:+ pretty (Column p).

Definition demo_tok_String (t : Token) : string :=
  match t with
  | ILLEGAL => "ILLEGAL" | EOF => "EOF" | COMMENT => "COMMENT"
  | IDENT => "IDENT" | INT => "INT" | FLOAT => "FLOAT" | IMAG => "IMAG"
  | CHAR => "CHAR" | STRING => "STRING"
  | ADD => "+" | SUB => "-" | MUL => "*" | QUO => "/" | REM => "%"
  | AND => "&" | OR => "|" | XOR => "^" | SHL => "<<" | SHR => ">>"
  | AND_NOT => "&^"
  | ADD_ASSIGN => "+=" | SUB_ASSIGN => "-=" | MUL_ASSIGN => "*="
  | QUO_ASSIGN => "/=" | REM_ASSIGN => "%="
  | AND_ASSIGN => "&=" | OR_ASSIGN => "|=" | XOR_ASSIGN => "^="
  | SHL_ASSIGN => "<<=" | SHR_ASSIGN => ">>=" | AND_NOT_ASSIGN => "&^="
  | LAND => "&&" | LOR => "||" | ARROW => "<-" | INC => "++" | DEC => "--"
  | EQL => "==" | LSS => "<" | GTR => ">" | ASSIGN => "=" | NOT => "!"
  | NEQ => "!=" | LEQ => "<=" | GEQ => ">=" | DEFINE => ":="
  | ELLIPSIS => "..."
  | LPAREN => "(" | LBRACK => "[" | LBRACE => "{" | COMMA => ","
  | PERIOD => "."
  | RPAREN => ")" | RBRACK => "]" | RBRACE => "}" | SEMICOLON => ";"
  | COLON => ":"
  | BREAK => "break" | CASE => "case" | CHAN => "chan" | CONST => "const"
  | CONTINUE => "continue" | DEFAULT => "default" | DEFER => "defer"
  | ELSE => "else" | FALLTHROUGH => "fallthrough" | FOR => "for"
  | FUNC => "func" | GO => "go" | GOTO => "goto" | IF => "if"
  | IMPORT => "import" | INTERFACE => "interface" | MAP => "map"
  | PACKAGE => "package" | RANGE => "range" | RETURN => "return"
  | SELECT => "select" | STRUCT => "struct" | SWITCH => "switch"
  | TYPE => "type" | VAR => "var"
  | INDENT => "INDENT" | DEDENT => "DEDENT" | DO => "do"
  end.

Definition demo_tok_IsLiteral (t : Token) : bool :=
  match t with
  | IDENT | INT | FLOAT | IMAG | CHAR | STRING => true
  | _ => false
  end.

#[export] Instance services : Services := {|
  file_Position := demo_Position;
  Position_String := demo_Position_String;
  tok_String := demo_tok_String;
  tok_IsLiteral := demo_tok_IsLiteral;
  AllErrors := 32;
  DeclarationErrors := 16;
  PackageClauseOnly := 1;
  ImportsOnly := 2
|}.

End fragment.

(* ===================================================================== *)
(** * Inputs of the examples *)
(* ===================================================================== *)

Module examples.
Import token ast parser.

(** ** A FileSet and a codec that keeps the encoded value *)

Definition demo_fs : FileSet :=
  mkFileSet 1%nat 42
    [ mkFile 1%nat "a.igo" 1 20 [0; 7; 15] [];
      mkFile 1%nat "b.igo" 22 19 [0; 10] [mkLineInfo 10 "b.y" 3] ]
    (Some 1%nat).

(** The set that is read into: it keeps its own address. *)
Definition demo_target : FileSet := mkFileSet 2%nat 1 [] None.

Definition store_encode (ss : serializedFileSet) (w : option serializedFileSet)
    : option unit * option serializedFileSet :=
  (None, Some ss).

Definition store_decode (w : option serializedFileSet)
    : (serializedFileSet + unit) * option serializedFileSet :=
  match w with
  | Some ss => (inl ss, w)
  | None => (inr tt, w)
  end.

(** ** Parser inputs *)

Import fragment.

(** Fifty errors, one per line, from line 2 on. *)
Definition fifty_errors : list (Pos * string) :=
  map (fun k => (100 * Z.of_nat k, "malformed declaration")) (seq 1 50).

(** The parser before its first token, in the default mode. *)
Definition empty_input : parser := init [] 1 0.

(** [package 1]: a literal where the package name is expected. *)
Definition package_1 : parser :=
  init [(1, PACKAGE, "package"); (9, INT, "1"); (10, SEMICOLON, parser.newline)] 11 0.

(** ** States of the parser *)

Definition state_of {A} (r : Res A) : parser :=
  match r with Ok _ p => p | Raise _ p => p end.

(** The state in which parseFile parses the declarations: the package
    scope is open and is the top scope. *)
Definition at_top (p : parser) : parser :=
  set_pkgScope (Some (length (scopes (p_store p)))) (opened p).

(** ** Blocks in the short form *)

(** [: return] newline [y]: the colon at 105, the semicolon at 113 and
    the next token at 200. *)
Definition short_return : parser :=
  init [(105, COLON, ":"); (107, RETURN, "return");
        (113, SEMICOLON, parser.newline);
        (200, IDENT, "y"); (201, SEMICOLON, parser.newline)] 300 0.

(** [: x++] newline [y]. *)
Definition short_incr : parser :=
  init [(105, COLON, ":"); (107, IDENT, "x"); (108, INC, "++");
        (113, SEMICOLON, parser.newline); (200, IDENT, "y");
        (201, SEMICOLON, parser.newline)] 300 0.

(** The states of the parse of [short_incr]: after the statement, after
    the scope is closed and after the semicolon. *)
Definition short_incr_q : parser :=
  Eval vm_compute in state_of (parseSmallStmt (opened (next short_incr))).
Definition short_incr_q2 : parser :=
  Eval vm_compute in state_of (closeScope short_incr_q).
Definition short_incr_q3 : parser :=
  Eval vm_compute in state_of (expectSemi short_incr_q2).

(** ** Calls with a trailing function *)

(** [(1, 2) do (): return], the parser being at the opening parenthesis
    of the call. *)
Definition call_do : parser :=
  init [(101, LPAREN, "("); (102, INT, "1"); (103, COMMA, ","); (105, INT, "2");
        (106, RPAREN, ")"); (108, DO, "do"); (111, LPAREN, "("); (112, RPAREN, ")");
        (113, COLON, ":"); (115, RETURN, "return"); (121, SEMICOLON, parser.newline)]
       200 0.

(** [(xs...) do (): return]. *)
Definition call_ellipsis_do : parser :=
  init [(101, LPAREN, "("); (102, IDENT, "xs"); (104, ELLIPSIS, "...");
        (107, RPAREN, ")"); (109, DO, "do"); (112, LPAREN, "("); (113, RPAREN, ")");
        (114, COLON, ":"); (116, RETURN, "return"); (122, SEMICOLON, parser.newline)]
       200 0.

Definition do_lit (func lparen rparen colon ret closing : Pos) : Expr :=
  FuncLit (mkFuncType func (Some (mkFieldList lparen [] rparen)) None)
          (mkBlockStmt colon [ReturnStmt ret []] closing true).

(** The states of the parse of [call_do]: after the arguments, after the
    signature and after the body. *)
Definition call_do_q : parser :=
  Eval vm_compute in
    state_of (parseCallArgs 11 [] NoPos
                (set_exprLev (p_exprLev (next call_do) + 1) (next call_do))).
Definition call_do_q2 : parser :=
  Eval vm_compute in next (set_exprLev (p_exprLev call_do_q + -1) call_do_q).
Definition call_do_q3 : parser :=
  Eval vm_compute in
    state_of (parseSignature (length (scopes (p_store (next call_do_q2))))
                             (with_func_scope (next call_do_q2))).
Definition call_do_q4 : parser :=
  Eval vm_compute in
    state_of (parseBody (length (scopes (p_store (next call_do_q2))))
                        (set_exprLev (p_exprLev call_do_q3 + 1) call_do_q3)).

Definition two_args : list Expr :=
  [BasicLit (mkBasicLit 102 INT "1"); BasicLit (mkBasicLit 105 INT "2")].

(** ** Methods and functions *)

(** [func T.m(): return], read up to [T], inside a file whose package
    scope is open; the function scope is scope 1. *)
Definition method_T_m : parser :=
  with_func_scope
    (next (at_top (init [(201, FUNC, "func"); (206, IDENT, "T"); (207, PERIOD, ".");
                         (208, IDENT, "m"); (209, LPAREN, "("); (210, RPAREN, ")");
                         (211, COLON, ":"); (213, RETURN, "return");
                         (219, SEMICOLON, parser.newline)] 300 0))).

(** [func *T.n(): return], read up to the star. *)
Definition method_star_T_n : parser :=
  with_func_scope
    (next (at_top (init [(301, FUNC, "func"); (306, MUL, "*"); (307, IDENT, "T");
                         (308, PERIOD, "."); (309, IDENT, "n"); (310, LPAREN, "(");
                         (311, RPAREN, ")"); (312, COLON, ":");
                         (314, RETURN, "return");
                         (320, SEMICOLON, parser.newline)] 400 0))).

(** The declarations [func init(): return], [func f(): return] and
    [func T.m(): return], each at the top of a file. *)
Definition func_decl (recv : list (Pos * Token * string)) (name : string)
    : parser :=
  at_top (init ([(201, FUNC, "func")] ++ recv ++
                [(208, IDENT, name); (212, LPAREN, "("); (213, RPAREN, ")");
                 (214, COLON, ":"); (216, RETURN, "return");
                 (222, SEMICOLON, parser.newline)]) 300 0).
Definition func_init : parser := func_decl [] "init".
Definition func_f : parser := func_decl [] "f".
Definition func_T_m : parser :=
  func_decl [(206, IDENT, "T"); (207, PERIOD, ".")] "m".

Definition func_init_decl : FuncDecl :=
  mkFuncDecl None None 0%nat
    (mkFuncType 201 (Some (mkFieldList 212 [] 213)) None)
    (Some (mkBlockStmt 214 [ReturnStmt 216 []] 300 true)).
Definition func_init_q : parser :=
  Eval vm_compute in state_of (parseFuncDecl_node func_init).

(** ** Redeclarations *)

(** The parameter of [func T.m(self int)], under DeclarationErrors: the
    state in which the signature declares the parameter [self], the
    receiver and the method name being read, the parenthesis passed and
    the identifier of the parameter made. *)
Definition method_self_param : parser :=
  with_func_scope
    (next (at_top (init [(201, FUNC, "func"); (206, IDENT, "T"); (207, PERIOD, ".");
                         (208, IDENT, "m"); (209, LPAREN, "("); (210, IDENT, "self");
                         (215, IDENT, "int"); (218, RPAREN, ")");
                         (219, COLON, ":"); (221, RETURN, "return");
                         (227, SEMICOLON, parser.newline)] 300 16))).
Definition self_param : parser :=
  Eval vm_compute in
    state_of (parseIdent (next (state_of (parseFuncDecl_name 1%nat method_self_param)))).
Definition self_field : Field :=
  mkField None [3%nat] (Some (Ident 4%nat)) None None.

(** Two parameters [x] of one field, on line 2, columns 5 and 12, under
    DeclarationErrors and AllErrors: both identifiers are made, and the
    first is declared. *)
Definition x_field : Field := mkField None [0%nat; 1%nat] None None None.
Definition x_pair : parser :=
  Eval vm_compute in
    state_of
      (parseIdent
         (next
            (state_of
               (parseIdent
                  (at_top (init [(105, IDENT, "x"); (106, COMMA, ",");
                                 (112, IDENT, "x");
                                 (113, SEMICOLON, parser.newline)]
                                300 48)))))).
Definition x_twice : parser :=
  Eval vm_compute in
    state_of (declare (DeclField x_field) DataNil (Some 0%nat) Var [0%nat] x_pair).

(** ** A file with an unresolved identifier *)

(** [package p], then [func f(): return g, f]. *)
Definition file_f_g : parser :=
  init [(1, PACKAGE, "package"); (9, IDENT, "p"); (10, SEMICOLON, parser.newline);
        (101, FUNC, "func"); (106, IDENT, "f"); (107, LPAREN, "("); (108, RPAREN, ")");
        (109, COLON, ":"); (111, RETURN, "return"); (118, IDENT, "g");
        (119, COMMA, ","); (121, IDENT, "f"); (122, SEMICOLON, parser.newline)] 200 0.

(** The state of parseFile on it once the package scope is closed. *)
Definition file_f_g_end : parser :=
  Eval vm_compute in
    state_of
      (closeScope
         (state_of
            (parseDecls 11 []
               (at_top (state_of (expectSemi
                                    (state_of (parseIdent (next file_f_g))))))))).

(** ** Value specs *)

(** A group of four specs: typed with a value, untyped with a value,
    without either, untyped with a value. *)
Definition four_specs : list Spec :=
  [ ValueSpec None [0%nat] (Some (Ident 10%nat)) [Ident 20%nat] None;
    ValueSpec None [1%nat] None [Ident 21%nat] None;
    ValueSpec None [2%nat] None [] None;
    ValueSpec None [3%nat] None [Ident 23%nat] None ].

(** ** Labels and lists of identifiers *)

(** [goto L] in the body of a function: the label scope of the body is
    open and no target has been collected yet. *)
Definition goto_L : parser :=
  state_of
    (openLabelScope
       (init [(1, GOTO, "goto"); (6, IDENT, "L");
              (7, SEMICOLON, parser.newline)] 100 0)).

(** [a, b, c int] *)
Definition names_a_b_c : parser :=
  init [(1, IDENT, "a"); (2, COMMA, ","); (4, IDENT, "b"); (5, COMMA, ",");
        (7, IDENT, "c"); (9, IDENT, "int");
        (12, SEMICOLON, parser.newline)] 100 0.

(** ** A printer that records what it is asked to do *)

Import printer.

Inductive event :=
  | EvPrint (args : list printArg)
  | EvExpr1 (x : Expr) (prec depth : Z)
  | EvExprList (prev : Pos) (l : list Expr) (depth : Z) (mode : exprListMode)
               (next : Pos)
  | EvSignature (params results : option FieldList)
  | EvAdjBlock (b : BlockStmt).

#[export] Instance trace_printer : PrinterOps := {|
  printerT := list event;
  print args p := p ++ [EvPrint args];
  expr1 x prec depth p := p ++ [EvExpr1 x prec depth];
  exprList prev l depth mode next p := p ++ [EvExprList prev l depth mode next];
  signature params results p := p ++ [EvSignature params results];
  adjBlock b p := p ++ [EvAdjBlock b];
  lineFor pos p := pos / 100 + 1;
  HighestPrec := 7
|}.

End examples.

(* ===================================================================== *)
(** * Theorems: FileSet serialization *)
(* ===================================================================== *)

Section SerializeFacts.
Import token.
Context {W error : Type}.
Context (encode : serializedFileSet -> W -> option error * W).
Context (decode : W -> (serializedFileSet + error) * W).

Lemma Read_of_serialized (s fs : FileSet) w w' :
  decode w = (inl (mkSerializedFileSet (fs_base fs)
                 (map (fun f => mkSerializedFile (f_name f) (f_base f) (f_size f)
                                                 (f_lines f) (f_infos f))
                      (fs_files fs))), w') ->
  Read s decode w =
    (mkFileSet (fs_addr s) (fs_base fs) (map (reread (fs_addr s)) (fs_files fs)) None,
     None, w').
Proof.
  intros Hd. unfold Read. rewrite Hd. cbn.
  rewrite map_map. reflexivity.
Qed.

Lemma reread_own (fs : FileSet) :
  Forall (fun f => f_set f = fs_addr fs) (fs_files fs) ->
  map (reread (fs_addr fs)) (fs_files fs) = fs_files fs.
Proof.
  induction 1 as [|f l Hf _ IH]; [reflexivity|].
  cbn. rewrite IH. f_equal. destruct f; cbn in *. subst. reflexivity.
Qed.

(** C8. For every FileSet [fs], when [Write] has handed the serialized set
    to an encoder that succeeds, and the decoder hands back what was
    encoded, [Read] into a set [s] succeeds and leaves in [s] the base of
    [fs] and, file by file, the name, base, size, line offsets and lineInfo
    overrides of [fs], each file now owned by [s]; the cache of the last
    file is nil.  Read back into [fs] itself, the result is [fs] with its
    cache cleared. *)
Theorem FileSet_Read_Write (fs s : FileSet) (w w' : W) :
  (forall ss w0 w1, encode ss w0 = (None, w1) ->
                    exists w2, decode w1 = (inl ss, w2)) ->
  Write fs encode w = (None, w') ->
  exists s' w'',
    Read s decode w' = (s', None, w'')
    /\ fs_base s' = fs_base fs
    /\ fs_files s' = map (reread (fs_addr s)) (fs_files fs)
    /\ length (fs_files s') = length (fs_files fs)
    /\ (forall i f, fs_files fs !! i = Some f ->
          exists f', fs_files s' !! i = Some f'
                     /\ f_name f' = f_name f /\ f_base f' = f_base f
                     /\ f_size f' = f_size f /\ f_lines f' = f_lines f
                     /\ f_infos f' = f_infos f)
    /\ fs_last s' = None
    /\ (fs_addr s = fs_addr fs ->
        Forall (fun f => f_set f = fs_addr fs) (fs_files fs) ->
        s' = mkFileSet (fs_addr fs) (fs_base fs) (fs_files fs) None).
Proof.
  intros Hcodec Hw. unfold Write in Hw.
  destruct (Hcodec _ _ _ Hw) as [w'' Hd].
  exists (mkFileSet (fs_addr s) (fs_base fs)
                    (map (reread (fs_addr s)) (fs_files fs)) None), w''.
  split; [apply Read_of_serialized; exact Hd|].
  cbn. repeat split.
  - apply length_map.
  - intros i f Hi. exists (reread (fs_addr s) f). split.
    + rewrite list_lookup_fmap, Hi. reflexivity.
    + repeat split.
  - intros Ha Hown. rewrite Ha, reread_own by exact Hown. reflexivity.
Qed.

End SerializeFacts.

(** The codec hypothesis and a successful [Write] at the example set. *)
Lemma FileSet_Read_Write_witness :
  (forall ss w0 w1, examples.store_encode ss w0 = (None, w1) ->
                    exists w2, examples.store_decode w1 = (inl ss, w2))
  /\ token.Write examples.demo_fs examples.store_encode None
     = (None, Some (token.mkSerializedFileSet 42
         [ token.mkSerializedFile "a.igo" 1 20 [0; 7; 15] [];
           token.mkSerializedFile "b.igo" 22 19 [0; 10]
             [token.mkLineInfo 10 "b.y" 3] ]))
  /\ exists s' w'',
       token.Read examples.demo_target examples.store_decode
         (Some (token.mkSerializedFileSet 42
            [ token.mkSerializedFile "a.igo" 1 20 [0; 7; 15] [];
              token.mkSerializedFile "b.igo" 22 19 [0; 10]
                [token.mkLineInfo 10 "b.y" 3] ]))
       = (s', None, w'')
       /\ token.fs_base s' = 42
       /\ token.fs_last s' = None.
Proof.
  assert (Hc : forall ss w0 w1, examples.store_encode ss w0 = (None, w1) ->
                 exists w2, examples.store_decode w1 = (inl ss, w2)).
  { intros ss w0 w1 Hs. unfold examples.store_encode in Hs.
    inversion Hs. subst. eexists. reflexivity. }
  split; [exact Hc|]. split; [reflexivity|].
  destruct (FileSet_Read_Write examples.store_encode examples.store_decode
              examples.demo_fs examples.demo_target None _ Hc eq_refl)
    as (s' & w'' & Hr & Hb & _ & _ & _ & Hl & _).
  exists s', w''. repeat split; assumption.
Defined.

(* ===================================================================== *)
(** * Theorems: scopes *)
(* ===================================================================== *)

Section ScopeFacts.
Import token ast.

(** Scope.Insert and Scope.Lookup.  Insert returns what Lookup found under
    the name before the call.  When that is nil, the scope afterwards
    holds the object under the name; when it is an object [alt], the scope
    is left as it was, so that the first object declared under a name
    stays.  In both cases every other name is looked up as before and the
    outer scope is the same. *)
Theorem Scope_Insert_Lookup (s : Scope) (name : string) (obj : obj_ref) :
  let s' := fst (Insert s name obj) in
  let alt := snd (Insert s name obj) in
  alt = Lookup s name
  /\ (alt = None -> Lookup s' name = Some obj)
  /\ (forall a, alt = Some a -> s' = s /\ Lookup s' name = Some a)
  /\ (forall other, other <> name -> Lookup s' other = Lookup s other)
  /\ Outer s' = Outer s
  /\ Insert s' name obj = (s', Lookup s' name).
Proof.
  unfold Insert, Lookup. destruct (Objects s !! name) as [a|] eqn:Hl; cbn.
  - rewrite Hl. repeat split; congruence.
  - rewrite lookup_insert_eq. repeat split; try discriminate.
    intros other Hne. rewrite lookup_insert_ne by congruence. reflexivity.
Qed.

End ScopeFacts.

Section SerializeMore.
Import token.
Context {W error : Type}.
Context (encode : serializedFileSet -> W -> option error * W).
Context (decode : W -> (serializedFileSet + error) * W).

Lemma serialized_of_read (owner : fileset_ref) (l : list serializedFile) :
  map (fun f => mkSerializedFile (f_name f) (f_base f) (f_size f)
                                 (f_lines f) (f_infos f))
      (map (fun f => mkFile owner (sf_Name f) (sf_Base f) (sf_Size f)
                            (sf_Lines f) (sf_Infos f)) l) = l.
Proof.
  induction l as [|f l IH]; [reflexivity|].
  cbn. rewrite IH. destruct f; reflexivity.
Qed.

(** FileSet.Read.  When the decoder fails, Read returns its error and the
    set is what it was, the cache of the last file included.  When the
    decoder delivers a serialized set, Read returns no error, every file
    of the set it leaves belongs to the receiver, the cache is nil, and
    Write on that set hands the encoder the serialized set that was
    decoded: Write undoes Read. *)
Theorem FileSet_Write_Read (s : FileSet) (w : W) :
  (forall err w', decode w = (inr err, w') ->
     Read s decode w = (s, Some err, w'))
  /\ (forall ss w', decode w = (inl ss, w') ->
        exists s',
          Read s decode w = (s', None, w')
          /\ fs_addr s' = fs_addr s
          /\ Forall (fun f => f_set f = fs_addr s) (fs_files s')
          /\ fs_last s' = None
          /\ forall w0, Write s' encode w0 = encode ss w0).
Proof.
  split.
  - intros err w' Hd. unfold Read. rewrite Hd. reflexivity.
  - intros ss w' Hd. unfold Read. rewrite Hd. eexists. split; [reflexivity|].
    cbn. repeat split.
    + apply Forall_forall. intros f Hf. apply list_elem_of_fmap in Hf as (g & -> & _).
      reflexivity.
    + intros w0. unfold Write. cbn. rewrite serialized_of_read.
      destruct ss; reflexivity.
Qed.

End SerializeMore.

(* ===================================================================== *)
(** * Theorems: keepTypeColumn *)
(* ===================================================================== *)

Section KeepTypeColumn.
Import token ast printer.

Lemma populate_loop_lookup n i (m : list bool) k :
  populate_loop n i m !! k =
    if decide ((i <= k < i + n)%nat /\ (k < length m)%nat) then Some true else m !! k.
Proof.
  revert i m. induction n as [|n IH]; intros i m; cbn.
  - case_decide; [lia|reflexivity].
  - rewrite IH, length_insert, list_lookup_insert.
    repeat case_decide; try reflexivity; try lia.
Qed.

Lemma segments_lookup (m : list bool) (i0 k : nat) (b : bool) j :
  (i0 <= k <= length m)%nat ->
  (take i0 m ++ replicate (k - i0) b ++ drop k m) !! j =
    if decide (j < i0)%nat then m !! j
    else if decide (j < k)%nat then Some b
    else m !! j.
Proof.
  intros Hk.
  destruct (decide (j < i0)%nat).
  - rewrite lookup_app_l by (rewrite length_take; lia).
    apply lookup_take_lt. lia.
  - rewrite lookup_app_r by (rewrite length_take; lia).
    rewrite length_take, Nat.min_l by lia.
    destruct (decide (j < k)%nat).
    + rewrite lookup_app_l by (rewrite length_replicate; lia).
      apply lookup_replicate_2. lia.
    + rewrite lookup_app_r by (rewrite length_replicate; lia).
      rewrite length_replicate, lookup_drop. f_equal. lia.
Qed.

(** [populate] from [i0] up to [k] over a column whose entries from [i0]
    to [k] are still false. *)
Lemma populate_segments (i0 k : nat) (b : bool) (m : list bool) :
  (i0 <= k <= length m)%nat ->
  (forall j, (i0 <= j < k)%nat -> m !! j = Some false) ->
  populate (Z.of_nat i0) (Z.of_nat k) b m
  = take i0 m ++ replicate (k - i0) b ++ drop k m.
Proof.
  intros Hk Hf. apply list_eq. intros j.
  rewrite segments_lookup by exact Hk.
  unfold populate.
  replace (Z.to_nat (Z.of_nat k - Z.of_nat i0)) with (k - i0)%nat by lia.
  rewrite Nat2Z.id.
  destruct b.
  - rewrite populate_loop_lookup.
    repeat case_decide; try reflexivity; try lia.
  - repeat case_decide; try reflexivity. apply Hf. lia.
Qed.

Lemma run_has_type_no_values s rest :
  hasValues s = false -> run_has_type (s :: rest) = false.
Proof. intros Hv. cbn. rewrite Hv. reflexivity. Qed.

Lemma take_S_false (m : list bool) k :
  m !! k = Some false -> take (S k) m = take k m ++ [false].
Proof. apply take_S_r. Qed.

Lemma take_S_prefix (a k : nat) (b : bool) (m : list bool) :
  (a <= k)%nat -> (k < length m)%nat -> m !! k = Some false ->
  take (S k) (take a m ++ replicate (k - a) b ++ drop k m)
  = (take a m ++ replicate (k - a) b) ++ [false].
Proof.
  intros Ha Hk Hf. rewrite app_assoc.
  replace (S k) with (length (take a m ++ replicate (k - a) b) + 1)%nat
    by (rewrite length_app, length_take, length_replicate; lia).
  rewrite take_app_add' by reflexivity.
  rewrite (drop_S m false k Hf). reflexivity.
Qed.

Lemma replicate_snoc {A} n (x : A) : replicate (S n) x = replicate n x ++ [x].
Proof. induction n as [|n IH]; cbn; [reflexivity|]. f_equal. exact IH. Qed.

(** The loop from spec [k] on.  [run] is the start of the open run, if
    one is open; [m] is still false from there, or from [k]. *)
Lemma keepTypeColumn_loop_spec (rest : list Spec) :
  Forall (fun s => isValueSpec s = true) rest ->
  forall (k : nat) (run : option nat) (kt : bool) (m : list bool),
    length m = (k + length rest)%nat ->
    (from run k <= k)%nat ->
    (forall j, (from run k <= j < length m)%nat -> m !! j = Some false) ->
    finish (k + length rest)
           (keepTypeColumn_loop rest (Z.of_nat k) (i0_of run) kt m)
    = Some (take (from run k) m
            ++ replicate (k - from run k) (kt || run_has_type rest)
            ++ keepTypeColumn_spec (if run is Some _ then kt else false) rest).
Proof.
  induction 1 as [|s rest Hs _ IH]; intros k run kt m Hlen Hrun Hfalse.
  - cbn [keepTypeColumn_loop finish keepTypeColumn_spec run_has_type length].
    rewrite Nat.add_0_r in *. rewrite app_nil_r, orb_false_r.
    destruct run as [a|]; cbn [i0_of from] in *.
    + destruct (Z.leb_spec 0 (Z.of_nat a)); [|lia].
      rewrite populate_segments; [|lia|intros; apply Hfalse; lia].
      rewrite drop_ge by lia. rewrite app_nil_r. reflexivity.
    + cbn. rewrite Nat.sub_diag. cbn. rewrite app_nil_r, take_ge by lia.
      reflexivity.
  - destruct s as [| doc names typ values cmt |]; try discriminate Hs.
    cbn [keepTypeColumn_loop].
    assert (Hk : m !! k = Some false).
    { apply Hfalse. cbn [length] in Hlen. lia. }
    assert (Hsucc : (k + length (ValueSpec doc names typ values cmt :: rest)
                     = S k + length rest)%nat) by (cbn [length]; lia).
    rewrite Hsucc. rewrite Hsucc in Hlen.
    replace (Z.of_nat k + 1) with (Z.of_nat (S k)) by lia.
    cbn [keepTypeColumn_spec run_has_type hasValues hasType].
    destruct (is_nil values) eqn:Hnil; cbn [negb andb].
    + (* no values: a run that is open ends here *)
      destruct run as [a|]; cbn [i0_of from] in *.
      * destruct (Z.leb_spec 0 (Z.of_nat a)); [|lia].
        rewrite populate_segments; [|lia|intros; apply Hfalse; lia].
        rewrite (IH (S k) None); cbn [from].
        -- rewrite Nat.sub_diag, orb_false_r. cbn [replicate app].
           f_equal. rewrite (take_S_prefix a k kt m) by (try lia; assumption).
           rewrite <- !app_assoc. reflexivity.
        -- rewrite !length_app, length_take, length_replicate, length_drop. lia.
        -- lia.
        -- intros j Hj.
           rewrite !length_app, length_take, length_replicate, length_drop in Hj.
           rewrite app_assoc, lookup_app_r
             by (rewrite length_app, length_take, length_replicate; lia).
           rewrite length_app, length_take, length_replicate, lookup_drop.
           apply Hfalse. lia.
      * destruct (Z.leb_spec 0 (-1)); [lia|].
        rewrite (IH (S k) None); cbn [from].
        -- rewrite !Nat.sub_diag. cbn [replicate app].
           rewrite (take_S_r m k false Hk), <- app_assoc. reflexivity.
        -- lia.
        -- lia.
        -- intros j Hj. apply Hfalse. lia.
    + (* values: a run opens, or the open run goes on *)
      destruct run as [a|]; cbn [i0_of from] in *.
      * destruct (Z.ltb_spec (Z.of_nat a) 0); [lia|].
        rewrite (IH (S k) (Some a)); cbn [from]; [|lia|lia|assumption].
        f_equal. f_equal.
        replace (S k - a)%nat with (S (k - a)) by lia.
        rewrite replicate_snoc, <- app_assoc. cbn [app].
        destruct typ; cbn; rewrite ?orb_true_r, ?orb_false_r; reflexivity.
      * destruct (Z.ltb_spec (-1) 0); [|lia].
        rewrite (IH (S k) (Some k)); cbn [from]; [|lia|lia|].
        -- rewrite !Nat.sub_diag. f_equal. f_equal.
           replace (S k - k)%nat with 1%nat by lia. cbn [replicate app].
           destruct typ; cbn; reflexivity.
        -- intros j Hj. apply Hfalse. lia.
Qed.

Lemma keepTypeColumn_is_spec (specs : list Spec) :
  Forall (fun s => isValueSpec s = true) specs ->
  keepTypeColumn specs = Some (keepTypeColumn_spec false specs).
Proof.
  intros Hv.
  assert (Hl := keepTypeColumn_loop_spec specs Hv 0 None false
                  (replicate (length specs) false)
                  (length_replicate _ _) (Nat.le_refl _)).
  cbn [from] in Hl. rewrite Nat.sub_diag in Hl. cbn in Hl.
  apply Hl. intros j Hj. rewrite length_replicate in Hj.
  apply lookup_replicate_2. lia.
Qed.

Lemma run_has_type_iff (specs : list Spec) :
  run_has_type specs = true <->
  exists j, type_at specs j /\ forall l, (l <= j)%nat -> values_at specs l.
Proof.
  induction specs as [|s rest IH]; cbn [run_has_type].
  - split; [discriminate|]. intros (j & (t & Ht & _) & _). discriminate.
  - rewrite andb_true_iff, orb_true_iff, IH. split.
    + intros [Hv [Ht | (j & Hj & Hall)]].
      * exists 0%nat. split; [exists s; auto|].
        intros l Hl. assert (l = 0%nat) as -> by lia. exists s; auto.
      * exists (S j). split; [exact Hj|].
        intros [|l] Hl; [exists s; auto|]. apply Hall. lia.
    + intros (j & (t & Hjt & Ht) & Hall).
      destruct (Hall 0%nat ltac:(lia)) as (u & Hu & Hv).
      cbn in Hu. injection Hu as <-. split; [exact Hv|].
      destruct j as [|j].
      * cbn in Hjt. injection Hjt as <-. left. exact Ht.
      * right. exists j. split; [exists t; auto|].
        intros l Hl. apply (Hall (S l)). lia.
Qed.

Lemma same_run_cons s rest i j :
  same_run (s :: rest) (S i) (S j) <-> same_run rest i j.
Proof.
  unfold same_run. split; intros Hr k Hk.
  - apply (Hr (S k)). lia.
  - destruct k as [|k]; [lia|]. apply Hr. lia.
Qed.

Lemma same_run_0 specs j :
  same_run specs 0 j <-> forall l, (l <= j)%nat -> values_at specs l.
Proof.
  unfold same_run, values_at. split; intros Hr k Hk; apply Hr; lia.
Qed.

Lemma same_run_0_r specs i :
  same_run specs i 0 <-> forall l, (l <= i)%nat -> values_at specs l.
Proof.
  unfold same_run, values_at. split; intros Hr k Hk; apply Hr; lia.
Qed.

Lemma keepTypeColumn_spec_iff (specs : list Spec) :
  forall seen i,
    keepTypeColumn_spec seen specs !! i = Some true <->
    values_at specs i
    /\ ((seen = true /\ forall l, (l <= i)%nat -> values_at specs l)
        \/ exists j, type_at specs j /\ same_run specs i j).
Proof.
  induction specs as [|s rest IH]; intros seen i; cbn [keepTypeColumn_spec].
  - split; [discriminate|]. intros [(u & Hu & _) _]. discriminate.
  - assert (H0 : forall u, (s :: rest) !! 0%nat = Some u -> u = s).
    { intros u Hu. cbn in Hu. congruence. }
    change (hasValues s && (hasType s || run_has_type rest))
      with (run_has_type (s :: rest)).
    destruct (hasValues s) eqn:Hv.
    + assert (Hs : values_at (s :: rest) 0) by (exists s; auto).
      destruct i as [|i].
      * change ((?x :: _) !! 0%nat) with (Some x).
        split.
        -- intros Hb. injection Hb as Hb. split; [exact Hs|].
           apply orb_true_iff in Hb as [Hseen | Hr].
           ++ left. split; [exact Hseen|].
              intros l Hl. assert (l = 0%nat) as -> by lia. exact Hs.
           ++ right.
              apply (proj1 (run_has_type_iff (s :: rest))) in Hr as (j & Hj & Hall).
              exists j. split; [exact Hj|].
              exact (proj2 (same_run_0 (s :: rest) j) Hall).
        -- intros [_ [[Hseen _] | (j & Hj & Hr)]]; f_equal; apply orb_true_iff.
           ++ left. exact Hseen.
           ++ right. apply (proj2 (run_has_type_iff (s :: rest))).
              exists j. split; [exact Hj|].
              exact (proj1 (same_run_0 (s :: rest) j) Hr).
      * change ((_ :: ?l) !! S i) with (l !! i).
        rewrite IH. unfold values_at at 1 3.
        change ((s :: rest) !! S i) with (rest !! i).
        split; intros [Hi Hd]; (split; [exact Hi|]).
        -- destruct Hd as [[Hseen Hall] | (j & Hj & Hr)].
           ++ apply orb_true_iff in Hseen as [Hseen | Ht].
              ** left. split; [exact Hseen|].
                 intros [|l] Hl; [exact Hs|]. apply Hall. lia.
              ** right. exists 0%nat. split; [exists s; auto|].
                 apply (proj2 (same_run_0_r (s :: rest) (S i))).
                 intros [|l] Hl; [exact Hs|]. apply Hall. lia.
           ++ right. exists (S j). split; [exact Hj|].
              exact (proj2 (same_run_cons s rest i j) Hr).
        -- destruct Hd as [[Hseen Hall] | (j & Hj & Hr)].
           ++ left. split; [apply orb_true_iff; left; exact Hseen|].
              intros l Hl. apply (Hall (S l)). lia.
           ++ destruct j as [|j].
              ** left. destruct Hj as (t & Ht & Htt).
                 apply H0 in Ht as ->.
                 split; [apply orb_true_iff; right; exact Htt|].
                 intros l Hl.
                 apply (proj1 (same_run_0_r (s :: rest) (S i)) Hr (S l)). lia.
              ** right. exists j. split; [exact Hj|].
                 exact (proj1 (same_run_cons s rest i j) Hr).
    + destruct i as [|i].
      * change ((?x :: _) !! 0%nat) with (Some x).
        split; [discriminate|].
        intros [(u & Hu & Huv) _]. apply H0 in Hu as ->. congruence.
      * change ((_ :: ?l) !! S i) with (l !! i).
        rewrite IH. unfold values_at at 1 3.
        change ((s :: rest) !! S i) with (rest !! i).
        split; intros [Hi Hd]; (split; [exact Hi|]).
        -- destruct Hd as [[Hseen _] | (j & Hj & Hr)]; [discriminate|].
           right. exists (S j). split; [exact Hj|].
           exact (proj2 (same_run_cons s rest i j) Hr).
        -- assert (Hno : ~ values_at (s :: rest) 0).
           { intros (u & Hu & Huv). apply H0 in Hu as ->. congruence. }
           destruct Hd as [[_ Hall] | (j & Hj & Hr)].
           ++ exfalso. apply Hno, Hall. lia.
           ++ destruct j as [|j].
              ** exfalso. apply Hno.
                 apply (proj1 (same_run_0_r (s :: rest) (S i)) Hr). lia.
              ** right. exists j. split; [exact Hj|].
                 exact (proj1 (same_run_cons s rest i j) Hr).
Qed.

Lemma keepTypeColumn_spec_length seen specs :
  length (keepTypeColumn_spec seen specs) = length specs.
Proof.
  revert seen. induction specs as [|s rest IH]; intros seen; cbn; [reflexivity|].
  destruct (hasValues s); cbn; rewrite IH; reflexivity.
Qed.

End KeepTypeColumn.

(** ** More on the printer *)

Section KeepTypeMore.
Import token ast printer.

Lemma keepTypeColumn_loop_panics (specs : list Spec) :
  Exists (fun s => isValueSpec s = false) specs ->
  forall i i0 keepType m, keepTypeColumn_loop specs i i0 keepType m = None.
Proof.
  induction 1 as [s rest Hs|s rest _ IH]; intros i i0 keepType m.
  - destruct s; [reflexivity|discriminate|reflexivity].
  - destruct s; [reflexivity| |reflexivity].
    cbn [keepTypeColumn_loop].
    destruct (negb (is_nil Values)), (i0 <? 0), (0 <=? i0); apply IH.
Qed.

(** keepTypeColumn asserts that every spec is a value spec: it panics
    exactly when the slice holds an import spec or a type spec, whatever
    the other specs are; on an empty slice it returns an empty slice. *)
Theorem keepTypeColumn_panics (specs : list Spec) :
  (keepTypeColumn specs = None <->
     Exists (fun s => isValueSpec s = false) specs)
  /\ keepTypeColumn [] = Some [].
Proof.
  split; [|reflexivity]. split.
  - intros Hn. destruct (decide (Forall (fun s => isValueSpec s = true) specs))
      as [Hall|Hex].
    + rewrite (keepTypeColumn_is_spec specs Hall) in Hn. discriminate.
    + apply not_Forall_Exists in Hex; [|intros s; apply _].
      eapply Exists_impl; [exact Hex|]. intros s Hs. cbn in Hs.
      destruct (isValueSpec s); [contradiction|reflexivity].
  - intros Hex. unfold keepTypeColumn.
    rewrite (keepTypeColumn_loop_panics specs Hex). reflexivity.
Qed.

End KeepTypeMore.

Section BinaryFacts.
Import token ast printer.
Context `{TokenOps}.

Lemma walkBinary_problem :
  forall e, snd (walkBinary e) = 0 \/ snd (walkBinary e) = 4
            \/ snd (walkBinary e) = 5.
Proof.
  fix IH 1. intros e. destruct e as [| | | | | | | | | | | | | |X OpPos Op Y| | | | | | |];
    try (left; reflexivity).
  pose proof (IH X) as HX. pose proof (IH Y) as HY.
  cbn [walkBinary].
  set (l := match X with
            | BinaryExpr _ _ lOp _ => _
            | _ => _
            end).
  assert (Hl : snd l = 0 \/ snd l = 4 \/ snd l = 5).
  { unfold l. clear HY. destruct X; try (left; reflexivity).
    destruct (_ <? _); [left; reflexivity|].
    destruct (walkBinary _) as [[h4 h5] mp]. cbn [snd] in *.
    destruct (0 <? mp) eqn:Hlt; cbn [snd]; [exact HX|].
    left. reflexivity. }
  clearbody l. clear HX. destruct l as [[has4 has5] maxProblem]. cbn [snd] in Hl.
  destruct Y; cbn [snd]; try exact Hl.
  - destruct (bool_decide _); cbn [snd]; [right; right; reflexivity|exact Hl].
  - destruct (_ || _); cbn [snd]; [right; right; reflexivity|].
    destruct (_ || _); cbn [snd]; [|exact Hl].
    destruct (maxProblem <? 4) eqn:Hlt; [right; left; reflexivity|exact Hl].
  - destruct (_ <=? _); cbn [snd]; [exact Hl|].
    destruct (walkBinary _) as [[h4 h5] mp]. cbn [snd] in *.
    destruct (maxProblem <? mp) eqn:Hlt; cbn [snd]; [exact HY|exact Hl].
Qed.

(** The cutoff of a binary expression is 4, 5 or 6.  In normal mode
    (depth 1) it is at least 5, so that an operator of precedence 4 or
    less is below it and is printed with blanks; in compact mode it is 4
    unless walkBinary has found an operand that would clash with the
    operator. *)
Theorem cutoff_range (e : Expr) (depth : Z) :
  (cutoff e depth = 4 \/ cutoff e depth = 5 \/ cutoff e depth = 6)
  /\ (depth = 1 -> 5 <= cutoff e depth)
  /\ (depth <> 1 -> snd (walkBinary e) = 0 -> cutoff e depth = 4)
  /\ (0 < snd (walkBinary e) -> cutoff e depth = snd (walkBinary e) + 1).
Proof.
  pose proof (walkBinary_problem e) as Hp. unfold cutoff.
  destruct (walkBinary e) as [[has4 has5] mp]. cbn [snd] in *.
  destruct (Z.ltb_spec 0 mp) as [Hpos|Hpos].
  - repeat split; try lia.
  - assert (mp = 0) as -> by lia. clear Hp Hpos.
    destruct (Z.eqb_spec depth 1) as [->|Hd]; destruct (has4 && has5);
      repeat split; try lia; auto.
Qed.

End BinaryFacts.

(* ===================================================================== *)
(** * Theorems: the parser *)
(* ===================================================================== *)

Section ParserFacts.
Import token ast parser.
Context `{Services} `{Productions}.

(** ** The monad *)

Lemma bind_Ok {A B} (m : M A) (k : A -> M B) p b q :
  bind m k p = Ok b q <-> exists a p1, m p = Ok a p1 /\ k a p1 = Ok b q.
Proof.
  unfold bind. destruct (m p) as [a p1|e p1]; split.
  - intros Hk. exists a, p1. auto.
  - intros (a' & p1' & Heq & Hk). injection Heq as -> ->. exact Hk.
  - discriminate.
  - intros (a' & p1' & Heq & _). discriminate.
Qed.

Lemma bind_step {A B} (m : M A) (k : A -> M B) p a p1 :
  m p = Ok a p1 -> bind m k p = k a p1.
Proof. intros Hm. unfold bind. rewrite Hm. reflexivity. Qed.

Lemma bind_raise {A B} (m : M A) (k : A -> M B) p e p1 :
  m p = Raise e p1 -> bind m k p = Raise e p1.
Proof. intros Hm. unfold bind. rewrite Hm. reflexivity. Qed.

Lemma set_errors_same p : set_errors (p_errors p) p = p.
Proof. destruct p; reflexivity. Qed.

(** ** parser.error *)

Lemma error_cases pos msg p :
  error pos msg p =
    if Z.land (p_mode p) AllErrors =? 0 then
      if same_line p pos then Ok tt p
      else if 10 <? Z.of_nat (length (p_errors p)) then Raise bailout p
      else Ok tt (set_errors (p_errors p ++ [recorded (pos, msg)]) p)
    else Ok tt (set_errors (p_errors p ++ [recorded (pos, msg)]) p).
Proof.
  unfold error, same_line, recorded. cbn [fst snd].
  destruct (Z.land (p_mode p) AllErrors =? 0); [|reflexivity].
  destruct (p_errors p) as [|e l] eqn:He using rev_ind; [reflexivity|].
  rewrite last_snoc.
  replace (0 <? Z.of_nat (length (l ++ [e]))) with true.
  2:{ symmetry. apply Z.ltb_lt. rewrite length_app. cbn. lia. }
  reflexivity.
Qed.

Lemma report_fresh (es : list (Pos * string)) :
  forall p,
    Z.land (p_mode p) AllErrors = 0 ->
    (length (p_errors p) <= 11)%nat ->
    fresh_lines (Line <$> (Err_Pos <$> last (p_errors p))) es ->
    report es p =
      if decide (length (p_errors p) + length es <= 11)%nat
      then Ok tt (set_errors (p_errors p ++ map recorded es) p)
      else Raise bailout
             (set_errors (p_errors p
                          ++ map recorded (take (11 - length (p_errors p)) es)) p).
Proof.
  induction es as [|e rest IH]; intros p Hmode Hlen Hfresh.
  - cbn. rewrite decide_True by lia. rewrite app_nil_r, set_errors_same.
    reflexivity.
  - destruct e as [pos msg]. cbn [report fst snd fresh_lines] in *.
    destruct Hfresh as [Hline Hrest].
    assert (Hsl : same_line p pos = false).
    { unfold same_line. destruct (last (p_errors p)) as [e|]; [|reflexivity].
      apply Z.eqb_neq. intros Heq. apply Hline. cbn. congruence. }
    destruct (decide (length (p_errors p) = 11%nat)) as [H11|H11].
    + erewrite bind_raise.
      2:{ rewrite error_cases, Hsl. apply Z.eqb_eq in Hmode. rewrite Hmode.
          replace (10 <? _) with true by (symmetry; apply Z.ltb_lt; lia).
          reflexivity. }
      rewrite decide_False by (cbn; lia).
      rewrite H11. cbn. rewrite app_nil_r, set_errors_same. reflexivity.
    + erewrite bind_step.
      2:{ rewrite error_cases, Hsl. apply Z.eqb_eq in Hmode. rewrite Hmode.
          replace (10 <? _) with false by (symmetry; apply Z.ltb_ge; lia).
          reflexivity. }
      rewrite IH; cbn [p_errors p_mode set_errors].
      * rewrite length_app. cbn [length].
        replace (11 - length (p_errors p))%nat
          with (S (11 - (length (p_errors p) + 1)))%nat by lia.
        cbn [take map]. rewrite <- !app_assoc. cbn [app].
        repeat case_decide; try lia; reflexivity.
      * exact Hmode.
      * rewrite length_app. cbn. lia.
      * rewrite last_snoc. cbn. exact Hrest.
Qed.

(** C1 (amended).  parser.error raises the bailout exactly when AllErrors
    is unset, more than 10 errors are in the list and the new error is not
    on the line of the last one; it raises nothing else.  So a parse in
    the default mode that meets errors on lines that differ from one error
    to the next records the first 11 of them and is aborted by the 12th. *)
Theorem error_bailout_after_eleven (pos : Pos) (msg : string) (p : parser)
    (es : list (Pos * string)) :
  (error pos msg p = Raise bailout p <->
     Z.land (p_mode p) AllErrors = 0
     /\ (10 < length (p_errors p))%nat
     /\ same_line p pos = false)
  /\ (forall e q, error pos msg p = Raise e q -> e = bailout /\ q = p)
  /\ (Z.land (p_mode p) AllErrors = 0 ->
      p_errors p = [] ->
      fresh_lines None es ->
      ((length es <= 11)%nat ->
         report es p = Ok tt (set_errors (map recorded es) p))
      /\ ((11 < length es)%nat ->
         report es p = Raise bailout (set_errors (map recorded (take 11 es)) p))).
Proof.
  split; [|split].
  - rewrite error_cases.
    destruct (Z.eqb_spec (Z.land (p_mode p) AllErrors) 0) as [Hm|Hm].
    + destruct (same_line p pos).
      * split; [discriminate|]. intros (_ & _ & Hf). discriminate.
      * destruct (Z.ltb_spec 10 (Z.of_nat (length (p_errors p)))).
        -- split; [intros _; repeat split; [exact Hm|lia] | reflexivity].
        -- split; [discriminate|]. intros (_ & Hn & _). lia.
    + split; [discriminate|]. intros (Hm' & _). contradiction.
  - intros e q. rewrite error_cases.
    repeat match goal with |- context [if ?b then _ else _] => destruct b end;
      try discriminate.
    intros Hr. injection Hr as <- <-. auto.
  - intros Hmode Herrs Hfresh.
    pose proof (report_fresh es p Hmode) as Hr.
    rewrite Herrs in Hr. cbn [length last fmap option_fmap option_map app] in Hr.
    specialize (Hr ltac:(lia) Hfresh).
    split; intros Hlen.
    + rewrite Hr, decide_True by (cbn; lia). reflexivity.
    + rewrite Hr, decide_False by (cbn; lia). reflexivity.
Qed.

(** C2.  errorExpected never returns: it panics with a string, whatever the
    state, and records nothing; so does expect at a token that is not the
    expected one. *)
Theorem errorExpected_panics (pos : Pos) (msg : string) (tok : Token) (p : parser) :
  (exists s, errorExpected pos msg p = Raise (PanicMsg s) p)
  /\ (p_tok p <> tok -> exists s, expect tok p = Raise (PanicMsg s) p).
Proof.
  split.
  - unfold errorExpected. eexists. reflexivity.
  - intros Hne. unfold expect. cbn [bind gets].
    rewrite bool_decide_true by exact Hne.
    unfold errorExpected. cbn. eexists. reflexivity.
Qed.


(** ** Running the monad step by step *)

Lemma run_gets {A B} (f : parser -> A) (k : A -> M B) p :
  bind (gets f) k p = k (f p) p.
Proof. reflexivity. Qed.
Lemma run_modify {B} (f : parser -> parser) (k : unit -> M B) p :
  bind (modify f) k p = k tt (f p).
Proof. reflexivity. Qed.
Lemma run_ret {A B} (a : A) (k : A -> M B) p : bind (ret a) k p = k a p.
Proof. reflexivity. Qed.
Lemma run_raise {A B} (e : Panic) (k : A -> M B) p :
  bind (raise e) k p = Raise e p.
Proof. reflexivity. Qed.
Lemma run_bind {A B C} (m : M A) (k1 : A -> M B) (k2 : B -> M C) p :
  bind (bind m k1) k2 p = bind m (fun a => bind (k1 a) k2) p.
Proof. unfold bind. destruct (m p); reflexivity. Qed.
Lemma run_assert_true {B} msg (k : unit -> M B) p :
  bind (assert true msg) k p = k tt p.
Proof. reflexivity. Qed.
Lemma run_alloc_obj {B} o (k : obj_ref -> M B) p :
  bind (alloc_obj o) k p
  = k (length (objs (p_store p)))
      (set_store (set_objs (objs (p_store p) ++ [o]) (p_store p)) p).
Proof. reflexivity. Qed.
Lemma run_alloc_ident {B} i (k : ident_ref -> M B) p :
  bind (alloc_ident i) k p
  = k (length (idents (p_store p)))
      (set_store (set_idents (idents (p_store p) ++ [i]) (p_store p)) p).
Proof. reflexivity. Qed.
Lemma run_alloc_scope {B} outer (k : scope_ref -> M B) p :
  bind (alloc_scope outer) k p
  = k (length (scopes (p_store p)))
      (set_store (set_scopes (scopes (p_store p) ++ [mkScope outer ∅]) (p_store p)) p).
Proof. reflexivity. Qed.
Lemma run_assign_Obj {B} id o (k : unit -> M B) p :
  bind (assign_Obj id o) k p = k tt (set_store (set_Obj id o (p_store p)) p).
Proof. reflexivity. Qed.
Lemma run_deref_ident {B} r i (k : IdentT -> M B) p :
  idents (p_store p) !! r = Some i -> bind (deref_ident r) k p = k i p.
Proof. intros Hr. unfold bind, deref_ident. rewrite Hr. reflexivity. Qed.
Lemma run_deref_obj {B} r o (k : Object -> M B) p :
  objs (p_store p) !! r = Some o -> bind (deref_obj r) k p = k o p.
Proof. intros Hr. unfold bind, deref_obj. rewrite Hr. reflexivity. Qed.
Lemma run_deref_scope {B} r s (k : Scope -> M B) p :
  scopes (p_store p) !! r = Some s -> bind (deref_scope (Some r)) k p = k s p.
Proof. intros Hr. unfold bind, deref_scope. rewrite Hr. reflexivity. Qed.

Create Rewrite HintDb mrun.
Hint Rewrite @run_bind @run_gets @run_modify @run_ret @run_raise
  @run_assert_true @run_alloc_obj @run_alloc_ident @run_alloc_scope
  @run_assign_Obj : mrun.

(** Projections of updated states. *)
Ltac psimpl :=
  cbn [p_errors p_scanner p_mode p_comments p_leadComment p_lineComment
       p_pos p_tok p_ptok p_lit p_syncPos p_syncCnt p_exprLev p_inRhs
       p_allowEmptyBlock p_pkgScope p_topScope p_unresolved p_imports
       p_labelScope p_targetStack p_store
       set_errors set_scanner set_mode set_comments set_leadComment
       set_lineComment set_pos set_tok set_ptok set_lit set_syncPos
       set_syncCnt set_exprLev set_inRhs set_allowEmptyBlock set_pkgScope
       set_topScope set_unresolved set_imports set_labelScope
       set_targetStack set_store
       idents objs scopes set_idents set_objs set_scopes fst snd] in *.

Ltac mrun := repeat (progress (autorewrite with mrun; psimpl)).

(** States in normal form: the updates applied, field by field. *)
Ltac pnorm :=
  cbn [p_errors p_scanner p_mode p_comments p_leadComment p_lineComment
       p_pos p_tok p_ptok p_lit p_syncPos p_syncCnt p_exprLev p_inRhs
       p_allowEmptyBlock p_pkgScope p_topScope p_unresolved p_imports
       p_labelScope p_targetStack p_store
       set_errors set_scanner set_mode set_comments set_leadComment
       set_lineComment set_pos set_tok set_ptok set_lit set_syncPos
       set_syncCnt set_exprLev set_inRhs set_allowEmptyBlock set_pkgScope
       set_topScope set_unresolved set_imports set_labelScope
       set_targetStack set_store
       idents objs scopes set_idents set_objs set_scopes sc_toks sc_eof
       fst snd].


Lemma set_Obj_scopes id o st : scopes (set_Obj id o st) = scopes st.
Proof. unfold set_Obj. destruct (idents st !! id); reflexivity. Qed.
Lemma set_Obj_objs id o st : objs (set_Obj id o st) = objs st.
Proof. unfold set_Obj. destruct (idents st !! id); reflexivity. Qed.

Lemma declare_one decl data scope kind ident i p :
  idents (p_store p) !! ident = Some i ->
  Obj i = None ->
  declare decl data scope kind [ident] p =
    let p1 := declared decl data kind ident i p in
    let o := length (objs (p_store p)) in
    if bool_decide (Name i <> "_") then
      match scope with
      | None => nil_deref p1
      | Some r =>
          match scopes (p_store p) !! r with
          | None => nil_deref p1
          | Some sc =>
              match Objects sc !! Name i with
              | None =>
                  Ok tt (set_store
                           (set_scopes
                              (<[r := mkScope (Outer sc) (<[Name i := o]> (Objects sc))]>
                                 (scopes (p_store p1)))
                              (p_store p1)) p1)
              | Some alt =>
                  if has_mode p DeclarationErrors then
                    match objs (p_store p1) !! alt with
                    | None => nil_deref p1
                    | Some a =>
                        match Object_Pos (p_store p1) a with
                        | None => nil_deref p1
                        | Some pos => error (NamePos i) (redeclared_msg i pos) p1
                        end
                    end
                  else Ok tt p1
              end
          end
      end
    else Ok tt p1.
Proof.
  intros Hi Hobj. cbn [declare].
  rewrite (run_deref_ident _ _ _ _ Hi).
  rewrite Hobj. rewrite bool_decide_true by reflexivity.
  mrun.
  match goal with |- _ ?q = _ =>
    change q with (declared decl data kind ident i p) end.
  cbv zeta.
  set (p1 := declared decl data kind ident i p).
  assert (Hsc : scopes (p_store p1) = scopes (p_store p)).
  { unfold p1, declared. psimpl. rewrite set_Obj_scopes. reflexivity. }
  destruct (bool_decide (Name i <> "_")); mrun; [|reflexivity].
  unfold scope_Insert.
  destruct scope as [r|]; [|reflexivity].
  destruct (scopes (p_store p) !! r) as [sc|] eqn:Hr.
  2:{ unfold deref_scope, bind. rewrite Hsc, Hr. reflexivity. }
  rewrite run_bind.
  rewrite (run_deref_scope r sc) by (rewrite Hsc; exact Hr).
  unfold Insert.
  destruct (Objects sc !! Name i) as [alt|] eqn:Halt; mrun.
  - assert (Hid : <[r := sc]> (scopes (p_store p1)) = scopes (p_store p1)).
    { apply list_insert_id. rewrite Hsc. exact Hr. }
    rewrite Hid.
    assert (Hst : set_store (set_scopes (scopes (p_store p1)) (p_store p1)) p1 = p1).
    { destruct p1 as [? ? ? ? ? ? ? ? ? ? ? ? ? ? ? ? ? ? ? ? ? st]. destruct st. reflexivity. }
    rewrite Hst.
    change (has_mode p1 DeclarationErrors) with (has_mode p DeclarationErrors).
    destruct (has_mode p DeclarationErrors); [|reflexivity].
    destruct (objs (p_store p1) !! alt) as [a|] eqn:Ha.
    2:{ unfold deref_obj, bind. rewrite Ha. reflexivity. }
    rewrite run_bind, (run_deref_obj alt a) by exact Ha. mrun.
    destruct (Object_Pos (p_store p1) a) as [pos|]; [|reflexivity].
    unfold redeclared_msg, bind. destruct (error _ _ p1) as [[] ?|]; reflexivity.
  - reflexivity.
Qed.


Lemma set_Obj_lookup id o st i :
  idents st !! id = Some i ->
  idents (set_Obj id o st) !! id = Some (mkIdent (NamePos i) (Name i) o).
Proof.
  intros Hi. unfold set_Obj. rewrite Hi. cbn.
  apply list_lookup_insert_eq. apply lookup_lt_Some in Hi. exact Hi.
Qed.

Lemma set_Obj_lookup_ne id o st r :
  r <> id -> idents (set_Obj id o st) !! r = idents st !! r.
Proof.
  intros Hne. unfold set_Obj. destruct (idents st !! id); [|reflexivity].
  cbn. apply list_lookup_insert_ne. congruence.
Qed.

Lemma error_AllErrors pos msg p :
  Z.land (p_mode p) AllErrors <> 0 ->
  error pos msg p = Ok tt (set_errors (p_errors p ++ [recorded (pos, msg)]) p).
Proof.
  intros Hm. rewrite error_cases.
  destruct (Z.eqb_spec (Z.land (p_mode p) AllErrors) 0); [contradiction|].
  reflexivity.
Qed.

Lemma declare_cons decl data scope kind ident rest p :
  declare decl data scope kind (ident :: rest) p
  = bind (declare decl data scope kind [ident])
         (fun _ => declare decl data scope kind rest) p.
Proof.
  cbn [declare]. unfold bind.
  destruct (deref_ident ident p) as [i p1|]; [|reflexivity].
  destruct (assert _ _ p1) as [? p2|]; [|reflexivity].
  destruct (alloc_obj _ p2) as [o p3|]; [|reflexivity].
  destruct (assign_Obj _ _ p3) as [? p4|]; [|reflexivity].
  match goal with |- match ?m p4 with _ => _ end = _ => destruct (m p4) as [? p5|] end;
    reflexivity.
Qed.

(** C7 (amended).  For every call of declare and every identifier in it
    that has no object yet, a new Object of the given kind is made and the
    identifier's Obj points at it.  A blank identifier is not inserted
    into the scope.  Another one is inserted when its name is free.  When
    the scope already holds an object of that name the scope is left as it
    is and, with DeclarationErrors set, parser.error is called once, at the
    identifier, with the message [x redeclared in this block], followed by
    the line that reports the previous declaration only when the position
    of the previous object is valid; under AllErrors that error is
    recorded.  The identifiers of a call are treated one after the other. *)
Theorem declare_redeclaration (decl : ObjDecl) (data : ObjData) (r : scope_ref)
    (kind : ObjKind) (ident : ident_ref) (rest : list ident_ref)
    (i : IdentT) (sc : Scope) (p : parser) :
  idents (p_store p) !! ident = Some i ->
  Obj i = None ->
  scopes (p_store p) !! r = Some sc ->
  let p1 := declared decl data kind ident i p in
  let o := length (objs (p_store p)) in
  objs (p_store p1) !! o = Some (mkObject kind (Name i) decl data)
  /\ idents (p_store p1) !! ident = Some (mkIdent (NamePos i) (Name i) (Some o))
  /\ scopes (p_store p1) = scopes (p_store p)
  /\ (Name i = "_" -> declare decl data (Some r) kind [ident] p = Ok tt p1)
  /\ (Name i <> "_" -> Objects sc !! Name i = None ->
        declare decl data (Some r) kind [ident] p
        = Ok tt (set_store
                   (set_scopes
                      (<[r := mkScope (Outer sc) (<[Name i := o]> (Objects sc))]>
                         (scopes (p_store p1)))
                      (p_store p1)) p1))
  /\ (Name i <> "_" -> forall alt, Objects sc !! Name i = Some alt ->
        (has_mode p DeclarationErrors = false ->
           declare decl data (Some r) kind [ident] p = Ok tt p1)
        /\ (has_mode p DeclarationErrors = true ->
            forall a pos,
              objs (p_store p1) !! alt = Some a ->
              Object_Pos (p_store p1) a = Some pos ->
              declare decl data (Some r) kind [ident] p
              = error (NamePos i) (redeclared_msg i pos) p1
              /\ (Z.land (p_mode p) AllErrors <> 0 ->
                  declare decl data (Some r) kind [ident] p
                  = Ok tt (set_errors
                             (p_errors p
                              ++ [mkError (file_Position (NamePos i))
                                          (redeclared_msg i pos)]) p1))))
  /\ declare decl data (Some r) kind (ident :: rest) p
     = bind (declare decl data (Some r) kind [ident])
            (fun _ => declare decl data (Some r) kind rest) p.
Proof.
  intros Hi Hobj Hr p1 o.
  pose proof (declare_one decl data (Some r) kind ident i p Hi Hobj) as Hd.
  cbv beta iota zeta in Hd. fold p1 in Hd. fold o in Hd. rewrite Hr in Hd.
  split; [|split; [|split; [|split; [|split; [|split]]]]].
  - unfold p1, declared. psimpl. rewrite set_Obj_objs. psimpl.
    rewrite lookup_app_r by lia. rewrite Nat.sub_diag. reflexivity.
  - unfold p1, declared. psimpl. apply set_Obj_lookup. exact Hi.
  - unfold p1, declared. psimpl. rewrite set_Obj_scopes. reflexivity.
  - intros Hblank. rewrite Hd, bool_decide_false; [reflexivity|].
    intros Hne. contradiction.
  - intros Hne Hfree. rewrite Hd, bool_decide_true, Hfree by exact Hne.
    reflexivity.
  - intros Hne alt Halt.
    rewrite bool_decide_true, Halt in Hd by exact Hne.
    split.
    + intros Hoff. rewrite Hd, Hoff. reflexivity.
    + intros Hon a pos Ha Hpos. rewrite Hon, Ha, Hpos in Hd.
      split; [exact Hd|]. intros Hall. rewrite Hd.
      rewrite error_AllErrors by exact Hall. reflexivity.
  - apply declare_cons.
Qed.



(** ** The end of parseFile *)

Lemma survivor_set_Obj id o st sc r :
  survivor (set_Obj id o st) sc r = survivor st sc r.
Proof.
  unfold survivor. destruct (decide (r = id)) as [->|Hne].
  - destruct (idents st !! id) as [i|] eqn:Hi.
    + rewrite (set_Obj_lookup _ _ _ _ Hi). reflexivity.
    + unfold set_Obj. rewrite Hi, Hi. reflexivity.
  - rewrite set_Obj_lookup_ne by exact Hne. reflexivity.
Qed.

Lemma set_idents_set_Obj ids id o st :
  set_idents ids (set_Obj id o st) = set_idents ids st.
Proof. unfold set_idents. rewrite set_Obj_objs, set_Obj_scopes. reflexivity. Qed.

Lemma resolveGlobals_spec (n : nat) :
  forall (j i : nat) (p : parser) (us : list ident_ref) ps sc,
    p_pkgScope p = Some ps ->
    scopes (p_store p) !! ps = Some sc ->
    length us = (j + n)%nat ->
    (i <= j)%nat ->
    length (p_unresolved p) = length us ->
    (forall k, (j <= k)%nat -> p_unresolved p !! k = us !! k) ->
    NoDup (drop j us) ->
    (forall id, id ∈ drop j us ->
       exists I, idents (p_store p) !! id = Some I /\ Obj I = Some unresolved) ->
    exists q,
      let kept := List.filter (survivor (p_store p) sc) (drop j us) in
      resolveGlobals n j i p = Ok (i + length kept)%nat q
      /\ take (i + length kept) (p_unresolved q) = take i (p_unresolved p) ++ kept
      /\ (forall id I, id ∈ drop j us -> idents (p_store p) !! id = Some I ->
            idents (p_store q) !! id
            = Some (mkIdent (NamePos I) (Name I) (Lookup sc (Name I))))
      /\ (forall id, id ∉ drop j us ->
            idents (p_store q) !! id = idents (p_store p) !! id)
      /\ objs (p_store q) = objs (p_store p)
      /\ scopes (p_store q) = scopes (p_store p)
      /\ q = set_unresolved (p_unresolved q)
               (set_store (set_idents (idents (p_store q)) (p_store p)) p).
Proof.
  induction n as [|n IH]; intros j i p us ps sc Hpkg Hsc Hlen Hij Hlu Harr Hnd Hsent.
  - exists p. cbv zeta. rewrite drop_ge by lia. cbn [List.filter length].
    rewrite Nat.add_0_r, app_nil_r. cbn [resolveGlobals ret].
    repeat split; try reflexivity.
    + intros id I Hin. apply elem_of_nil in Hin. contradiction.
    + destruct p as [? ? ? ? ? ? ? ? ? ? ? ? ? ? ? ? ? ? ? ? ? st]; destruct st;
        reflexivity.
  - assert (Hj : (j < length us)%nat) by lia.
    destruct (lookup_lt_is_Some_2 us j Hj) as [ident Hident].
    assert (Hdrop : drop j us = ident :: drop (S j) us)
      by (apply drop_S; exact Hident).
    rewrite Hdrop in Hnd, Hsent |- *.
    apply NoDup_cons in Hnd as [Hnotin Hnd].
    destruct (Hsent ident ltac:(left)) as (I & HI & HobjI).
    cbn [resolveGlobals].
    rewrite run_gets, (Harr j (Nat.le_refl j)), Hident.
    rewrite (run_deref_ident _ _ _ _ HI), HobjI.
    rewrite bool_decide_true by reflexivity.
    mrun. rewrite Hpkg.
    rewrite (run_deref_scope ps sc) by exact Hsc.
    mrun.
    assert (Hsurv : forall r, survivor (set_Obj ident (Lookup sc (Name I)) (p_store p)) sc r
                             = survivor (p_store p) sc r)
      by (intros r; apply survivor_set_Obj).
    assert (Hs0 : survivor (p_store p) sc ident = bool_decide (Lookup sc (Name I) = None)).
    { unfold survivor. rewrite HI. reflexivity. }
    cbn [List.filter]. rewrite Hs0.
    destruct (Lookup sc (Name I)) as [obj|] eqn:Hlk.
    + (* resolved against the package scope *)
      rewrite bool_decide_false by discriminate.
      set (p1 := set_store (set_Obj ident (Some obj) (p_store p)) p).
      destruct (IH (S j) i p1 us ps sc) as (q & Hq); try assumption.
      * unfold p1. psimpl. rewrite set_Obj_scopes. exact Hsc.
      * lia.
      * lia.
      * intros k Hk. apply Harr. lia.
      * intros id Hin. destruct (Hsent id ltac:(right; exact Hin)) as (I' & HI' & Ho').
        exists I'. split; [|exact Ho']. unfold p1. psimpl.
        rewrite set_Obj_lookup_ne; [exact HI'|]. intros ->. contradiction.
      * cbv zeta in Hq. destruct Hq as (Hrun & Htake & Hin & Hout & Hobjs & Hscs & Hframe).
        exists q. cbv zeta.
        assert (Hf : List.filter (survivor (p_store p1) sc) (drop (S j) us)
                     = List.filter (survivor (p_store p) sc) (drop (S j) us)).
        { apply List.filter_ext. intros r. unfold p1. psimpl. apply Hsurv. }
        rewrite Hf in Hrun, Htake.
        split; [exact Hrun|]. split; [exact Htake|].
        split; [|split; [|split; [|split]]].
        -- intros id I' Hid HI'. apply elem_of_cons in Hid as [->|Hid].
           ++ rewrite Hout by exact Hnotin. unfold p1. psimpl.
              rewrite (set_Obj_lookup _ _ _ _ HI). congruence.
           ++ apply Hin; [exact Hid|]. unfold p1. psimpl.
              rewrite set_Obj_lookup_ne; [exact HI'|]. intros ->. contradiction.
        -- intros id Hid. rewrite Hout.
           ++ unfold p1. psimpl. apply set_Obj_lookup_ne.
              intros ->. apply Hid. left.
           ++ intros Hin'. apply Hid. right. exact Hin'.
        -- rewrite Hobjs. unfold p1. psimpl. apply set_Obj_objs.
        -- rewrite Hscs. unfold p1. psimpl. apply set_Obj_scopes.
        -- rewrite Hframe at 1. unfold p1. psimpl.
           rewrite set_idents_set_Obj. reflexivity.
    + (* a survivor: kept at index i *)
      rewrite bool_decide_true by reflexivity.
      set (p1 := set_unresolved (<[i:=ident]> (p_unresolved p))
                   (set_store (set_Obj ident None (p_store p)) p)).
      destruct (IH (S j) (S i) p1 us ps sc) as (q & Hq); try assumption.
      * unfold p1. psimpl. rewrite set_Obj_scopes. exact Hsc.
      * lia.
      * lia.
      * unfold p1. psimpl. rewrite length_insert. exact Hlu.
      * intros k Hk. unfold p1. psimpl.
        rewrite list_lookup_insert_ne by lia. apply Harr. lia.
      * intros id Hin. destruct (Hsent id ltac:(right; exact Hin)) as (I' & HI' & Ho').
        exists I'. split; [|exact Ho']. unfold p1. psimpl.
        rewrite set_Obj_lookup_ne; [exact HI'|]. intros ->. contradiction.
      * cbv zeta in Hq. destruct Hq as (Hrun & Htake & Hin & Hout & Hobjs & Hscs & Hframe).
        exists q. cbv zeta.
        assert (Hf : List.filter (survivor (p_store p1) sc) (drop (S j) us)
                     = List.filter (survivor (p_store p) sc) (drop (S j) us)).
        { apply List.filter_ext. intros r. unfold p1. psimpl. apply Hsurv. }
        rewrite Hf in Hrun, Htake.
        cbn [length].
        replace (i + S (length (List.filter (survivor (p_store p) sc) (drop (S j) us))))%nat
          with (S i + length (List.filter (survivor (p_store p) sc) (drop (S j) us)))%nat
          by lia.
        split; [exact Hrun|]. split.
        { rewrite Htake. unfold p1. psimpl.
          assert (Hi : (i < length (p_unresolved p))%nat) by lia.
          rewrite (take_S_r _ i ident) by (apply list_lookup_insert_eq; exact Hi).
          rewrite take_insert_ge by lia. rewrite <- app_assoc. reflexivity. }
        split; [|split; [|split; [|split]]].
        -- intros id I' Hid HI'. apply elem_of_cons in Hid as [->|Hid].
           ++ rewrite Hout by exact Hnotin. unfold p1. psimpl.
              rewrite (set_Obj_lookup _ _ _ _ HI). congruence.
           ++ apply Hin; [exact Hid|]. unfold p1. psimpl.
              rewrite set_Obj_lookup_ne; [exact HI'|]. intros ->. contradiction.
        -- intros id Hid. rewrite Hout.
           ++ unfold p1. psimpl. apply set_Obj_lookup_ne.
              intros ->. apply Hid. left.
           ++ intros Hin'. apply Hid. right. exact Hin'.
        -- rewrite Hobjs. unfold p1. psimpl. apply set_Obj_objs.
        -- rewrite Hscs. unfold p1. psimpl. apply set_Obj_scopes.
        -- rewrite Hframe at 1. unfold p1. psimpl.
           rewrite set_idents_set_Obj. reflexivity.
Qed.

Lemma parseFile_end (p0 : parser) (f : FileNode) (q' : parser) :
  parseFile p0 = Ok (Some f) q' ->
  exists q0 k,
    resolveGlobals (length (p_unresolved q0)) 0 0 q0 = Ok k q'
    /\ File_Unresolved f = take k (p_unresolved q')
    /\ File_Scope f = p_pkgScope q'.
Proof.
  unfold parseFile. intros Hp.
  rewrite run_gets in Hp.
  destruct (bool_decide (length (p_errors p0) <> 0%nat)); [discriminate|].
  rewrite run_gets in Hp.
  apply bind_Ok in Hp as (pos & p1 & _ & Hp).
  apply bind_Ok in Hp as (ident & p2 & _ & Hp).
  apply bind_Ok in Hp as (i & p3 & _ & Hp).
  apply bind_Ok in Hp as ([] & p4 & _ & Hp).
  apply bind_Ok in Hp as ([] & p5 & _ & Hp).
  rewrite run_gets in Hp.
  destruct (bool_decide (length (p_errors p5) <> 0%nat)); [discriminate|].
  apply bind_Ok in Hp as ([] & p6 & _ & Hp).
  rewrite run_gets, run_modify, !run_gets in Hp.
  apply bind_Ok in Hp as (decls & p7 & _ & Hp).
  apply bind_Ok in Hp as ([] & p8 & _ & Hp).
  rewrite run_gets in Hp.
  apply bind_Ok in Hp as ([] & p9 & Ha1 & Hp).
  rewrite run_gets in Hp.
  apply bind_Ok in Hp as ([] & p10 & Ha2 & Hp).
  rewrite run_gets in Hp.
  apply bind_Ok in Hp as (k & p11 & Hres & Hp).
  rewrite !run_gets in Hp. unfold ret in Hp.
  injection Hp as <- <-.
  exists p10, k. split; [exact Hres|]. split; reflexivity.
Qed.

(** C6.  At the end of the file, when the identifiers collected in
    parser.unresolved are distinct and each carries the unresolved
    sentinel, the last loop of parseFile returns; it points every collected
    identifier at the object the package scope has under its name, nil when
    it has none, and the first [length kept] entries of the list, which
    parseFile returns as File.Unresolved, are exactly the identifiers whose
    name the package scope does not contain, in the order of collection. *)
Theorem unresolved_at_end (p : parser) (ps : scope_ref) (sc : Scope) :
  p_pkgScope p = Some ps ->
  scopes (p_store p) !! ps = Some sc ->
  NoDup (p_unresolved p) ->
  (forall id, id ∈ p_unresolved p ->
     exists I, idents (p_store p) !! id = Some I /\ Obj I = Some unresolved) ->
  let kept := List.filter (survivor (p_store p) sc) (p_unresolved p) in
  (exists q,
     resolveGlobals (length (p_unresolved p)) 0 0 p = Ok (length kept) q
     /\ take (length kept) (p_unresolved q) = kept
     /\ (forall id I, id ∈ p_unresolved p -> idents (p_store p) !! id = Some I ->
           idents (p_store q) !! id
           = Some (mkIdent (NamePos I) (Name I) (Lookup sc (Name I))))
     /\ scopes (p_store q) = scopes (p_store p)
     /\ objs (p_store q) = objs (p_store p))
  /\ (forall id, id ∈ kept <->
        id ∈ p_unresolved p
        /\ exists I, idents (p_store p) !! id = Some I
                     /\ Lookup sc (Name I) = None)
  /\ (forall p0 f q', parseFile p0 = Ok (Some f) q' ->
        exists q0 k,
          resolveGlobals (length (p_unresolved q0)) 0 0 q0 = Ok k q'
          /\ File_Unresolved f = take k (p_unresolved q')
          /\ File_Scope f = p_pkgScope q').
Proof.
  intros Hpkg Hsc Hnd Hsent kept.
  split; [|split].
  - destruct (resolveGlobals_spec (length (p_unresolved p)) 0 0 p
                (p_unresolved p) ps sc Hpkg Hsc eq_refl (Nat.le_refl 0) eq_refl
                (fun k _ => eq_refl) Hnd Hsent)
      as (q & Hrun & Htake & Hin & _ & Hobjs & Hscs & _).
    exists q. cbn [drop Nat.add take app] in *.
    repeat split; assumption.
  - intros id. unfold kept. rewrite list_elem_of_In, List.filter_In.
    rewrite <- list_elem_of_In. unfold survivor. split.
    + intros [Hin Hs]. split; [exact Hin|].
      destruct (idents (p_store p) !! id) as [I|]; [|discriminate].
      exists I. split; [reflexivity|]. apply bool_decide_eq_true in Hs. exact Hs.
    + intros [Hin (I & HI & Hlk)]. split; [exact Hin|].
      rewrite HI. apply bool_decide_eq_true. exact Hlk.
  - apply parseFile_end.
Qed.

(** ** Tokens *)

Lemma next_plain p pos tok lit rest :
  sc_toks (p_scanner p) = (pos, tok, lit) :: rest ->
  tok <> COMMENT ->
  next p =
    set_lit lit
      (set_tok tok
         (set_pos pos
            (set_scanner (mkScanner rest (sc_eof (p_scanner p)))
               (set_ptok (p_tok p)
                  (set_lineComment None (set_leadComment None p)))))).
Proof.
  intros Hs Hne. unfold next, next0, Scan. psimpl. rewrite Hs. psimpl.
  rewrite bool_decide_false by exact Hne. reflexivity.
Qed.

Lemma expect_ok tok p : p_tok p = tok -> expect tok p = Ok (p_pos p) (next p).
Proof.
  intros Ht. unfold expect. mrun.
  rewrite bool_decide_false by (intros Hne; apply Hne; exact Ht).
  mrun. reflexivity.
Qed.

Lemma openScope_ok p : openScope p = Ok tt (opened p).
Proof. unfold openScope. mrun. reflexivity. Qed.

Lemma closeScope_pos p q : closeScope p = Ok tt q -> p_pos q = p_pos p /\ p_tok q = p_tok p.
Proof.
  unfold closeScope. rewrite run_gets. intros Hc.
  apply bind_Ok in Hc as (s & p1 & Hd & Hm).
  unfold deref_scope in Hd.
  destruct (p_topScope p) as [r|]; [|discriminate].
  destruct (scopes (p_store p) !! r); [|discriminate].
  injection Hd as <- <-. unfold modify in Hm. injection Hm as <-. split; reflexivity.
Qed.

(** C3 (amended).  A block in the short form, a colon and one small
    statement, is returned with Small true, the statement as its List,
    Opening at the colon, and Closing at the token that is current once the
    small statement has been parsed, both by parseBlockStmt and by
    parseBody.  That token is the terminating semicolon when the statement
    leaves it unread; a return statement reads its own semicolon, so that
    after it the current token is the one that follows the semicolon. *)
Theorem short_block_closing (p : parser) (scope : scope_ref) (s : Stmt)
    (q q2 q3 : parser) :
  p_tok p = COLON ->
  (parseSmallStmt (opened (next p)) = Ok s q ->
   closeScope q = Ok tt q2 ->
   expectSemi q2 = Ok tt q3 ->
   parseBlockStmt p = Ok (mkBlockStmt (p_pos p) [s] (p_pos q) true) q3)
  /\ (p_tok (next p) <> SEMICOLON ->
      parseSmallStmt (set_topScope (Some scope) (next p)) = Ok s q ->
      closeScope q = Ok tt q2 ->
      parseBody scope p = Ok (mkBlockStmt (p_pos p) [s] (p_pos q) true) q2)
  /\ (forall p0 ps l c t l' rest,
        p_tok p0 = RETURN ->
        sc_toks (p_scanner p0) = (ps, SEMICOLON, l) :: (c, t, l') :: rest ->
        t <> COMMENT ->
        exists q0,
          parseSmallStmt p0 = Ok (ReturnStmt (p_pos p0) []) q0
          /\ p_pos q0 = c /\ p_tok q0 = t /\ p_ptok q0 = SEMICOLON).
Proof.
  intros Hcolon. split; [|split].
  - intros Hs Hc Hsemi. unfold parseBlockStmt.
    rewrite run_gets, Hcolon. rewrite bool_decide_true by reflexivity.
    rewrite (bind_step _ _ _ _ _ (expect_ok COLON p Hcolon)).
    rewrite (bind_step _ _ _ _ _ (openScope_ok (next p))).
    rewrite (bind_step _ _ _ _ _ Hs).
    rewrite (bind_step _ _ _ _ _ Hc).
    rewrite run_gets.
    rewrite (bind_step _ _ _ _ _ Hsemi).
    destruct (closeScope_pos _ _ Hc) as [-> _]. reflexivity.
  - intros Hns Hs Hc. unfold parseBody.
    rewrite run_gets, Hcolon. rewrite bool_decide_true by reflexivity.
    rewrite (bind_step _ _ _ _ _ (expect_ok COLON p Hcolon)).
    rewrite run_modify, run_gets. psimpl.
    rewrite bool_decide_false by exact Hns.
    rewrite run_bind, (bind_step _ _ _ _ _ Hs). mrun.
    rewrite (bind_step _ _ _ _ _ Hc). mrun.
    destruct (closeScope_pos _ _ Hc) as [-> _]. reflexivity.
  - intros p0 ps l c t l' rest Hret Hsc Hnc.
    unfold parseSmallStmt. rewrite run_gets, Hret.
    unfold parseReturnStmt. rewrite run_gets.
    rewrite (bind_step _ _ _ _ _ (expect_ok RETURN p0 Hret)).
    rewrite (next_plain p0 _ _ _ _ Hsc) by discriminate.
    mrun. rewrite bool_decide_false by (intros Hne; apply Hne; reflexivity).
    cbn [andb]. mrun.
    unfold expectSemi. mrun.
    rewrite !bool_decide_true by discriminate. cbn [andb].
    rewrite bool_decide_true by reflexivity. mrun.
    erewrite next_plain; [|psimpl; reflexivity|exact Hnc].
    psimpl. eexists. split; [reflexivity|]. psimpl. repeat split.
Qed.

(** ** Calls *)

Lemma expectClosing_ok tok context p :
  p_tok p = tok -> expectClosing tok context p = Ok (p_pos p) (next p).
Proof.
  intros Ht. unfold expectClosing. mrun.
  rewrite bool_decide_false by (intros Hne; apply Hne; exact Ht).
  cbn [andb]. mrun. apply expect_ok. exact Ht.
Qed.

Lemma parseDoLit_DO (lst : list Expr) (p : parser) sig body q3 q4 :
  p_tok p = DO ->
  parseSignature (length (scopes (p_store (next p)))) (with_func_scope (next p))
    = Ok sig q3 ->
  parseBody (length (scopes (p_store (next p))))
            (set_exprLev (p_exprLev q3 + 1) q3) = Ok body q4 ->
  parseDoLit lst p
  = Ok (lst ++ [FuncLit (mkFuncType (p_pos p) (Some (fst sig)) (snd sig)) body])
       (set_exprLev (p_exprLev q4 + -1) q4).
Proof.
  intros Hdo Hsig Hbody. unfold parseDoLit.
  rewrite run_gets, Hdo. rewrite bool_decide_true by reflexivity.
  rewrite (bind_step _ _ _ _ _ (expect_ok DO p Hdo)).
  rewrite run_gets, run_alloc_scope.
  change (set_store _ (next p)) with (with_func_scope (next p)).
  rewrite (bind_step _ _ _ _ _ Hsig).
  unfold add_exprLev. rewrite run_modify.
  rewrite (bind_step _ _ _ _ _ Hbody).
  rewrite run_modify. reflexivity.
Qed.

Lemma parseDoLit_other (lst : list Expr) (p : parser) :
  p_tok p <> DO -> parseDoLit lst p = Ok lst p.
Proof.
  intros Hne. unfold parseDoLit. rewrite run_gets.
  rewrite bool_decide_false by exact Hne. reflexivity.
Qed.

Section DoSugar.
Import printer.
Context `{PrinterOps}.

Lemma last_snoc_removelast {A} (l : list A) (x : A) :
  last (l ++ [x]) = Some x /\ removelast (l ++ [x]) = l.
Proof. split; [apply last_snoc|apply removelast_last]. Qed.

(** C4 (amended).  When the argument list of a call has been parsed and
    closed, and the next token is DO, parseCallOrConversion parses a
    signature and a body and appends exactly one argument, the FuncLit made
    of them, to the arguments of the call; without DO the arguments are
    returned as they are.  Conversely, for a call without ellipsis whose
    last argument is a function literal, the CallExpr case of expr1 emits
    the other arguments inside the parentheses, then a blank and [do], then
    the signature of the literal, then its body. *)
Theorem do_sugar (fn : Expr) (p : parser) (args : list Expr) (ell : Pos)
    (q : parser) (sig : FieldList * option FieldList) (body : BlockStmt)
    (q3 q4 : parser) (lparen rparen : Pos) (params results : option FieldList)
    (func : Pos) (depth : Z) (pr : printerT) :
  let p1 := set_exprLev (p_exprLev (next p) + 1) (next p) in
  let q1 := set_exprLev (p_exprLev q + -1) q in
  let q2 := next q1 in
  p_tok p = LPAREN ->
  parseCallArgs (S (length (sc_toks (p_scanner p1)))) [] NoPos p1 = Ok (args, ell) q ->
  p_tok q1 = RPAREN ->
  (p_tok q2 = DO ->
   parseSignature (length (scopes (p_store (next q2)))) (with_func_scope (next q2))
     = Ok sig q3 ->
   parseBody (length (scopes (p_store (next q2))))
             (set_exprLev (p_exprLev q3 + 1) q3) = Ok body q4 ->
   parseCallOrConversion fn p
   = Ok (CallExpr fn (p_pos p)
           (args ++ [FuncLit (mkFuncType (p_pos q2) (Some (fst sig)) (snd sig)) body])
           ell (p_pos q1))
        (set_exprLev (p_exprLev q4 + -1) q4))
  /\ (p_tok q2 <> DO ->
      parseCallOrConversion fn p = Ok (CallExpr fn (p_pos p) args ell (p_pos q1)) q2)
  /\ (IsValid ell = false ->
      expr1_CallExpr
        (CallExpr fn lparen (args ++ [FuncLit (mkFuncType func params results) body])
                  ell rparen) depth pr
      = print_do_call fn lparen args rparen params results body
          (if 1 <? Z.of_nat (length (args ++ [FuncLit (mkFuncType func params results) body]))
           then depth + 1 else depth) pr).
Proof.
  intros p1 q1 q2 Hlp Hargs Hrp.
  assert (Hhead :
             parseCallOrConversion fn p
             = bind (parseDoLit args) (fun lst => ret (CallExpr fn (p_pos p) lst ell (p_pos q1))) q2).
  { unfold parseCallOrConversion.
    rewrite (bind_step _ _ _ _ _ (expect_ok LPAREN p Hlp)).
    unfold add_exprLev. rewrite run_modify, run_gets.
    fold p1. rewrite (bind_step _ _ _ _ _ Hargs).
    rewrite run_modify. fold q1.
    rewrite (bind_step _ _ _ _ _ (expectClosing_ok RPAREN _ q1 Hrp)).
    reflexivity. }
  split; [|split].
  - intros Hdo Hsig Hbody. rewrite Hhead.
    rewrite (bind_step _ _ _ _ _ (parseDoLit_DO args q2 sig body q3 q4 Hdo Hsig Hbody)).
    reflexivity.
  - intros Hne. rewrite Hhead.
    rewrite (bind_step _ _ _ _ _ (parseDoLit_other args q2 Hne)). reflexivity.
  - intros Hell. unfold expr1_CallExpr, print_do_call, print_fun.
    rewrite Hell.
    destruct (last_snoc_removelast args (FuncLit (mkFuncType func params results) body))
      as [-> ->].
    reflexivity.
Qed.

End DoSugar.

(** ** Receivers *)

Lemma resolve_walk_total (scs : list Scope) (s : option scope_ref) :
  older_chain scs s ->
  forall fuel name p,
    scopes (p_store p) = scs ->
    (forall r, s = Some r -> (r < fuel)%nat) ->
    exists found, resolve_walk fuel s name p = Ok found p.
Proof.
  induction 1 as [|r sc Hr Hold _ IH]; intros fuel name p Hscs Hfuel.
  - exists None. destruct fuel; reflexivity.
  - destruct fuel as [|fuel]; [specialize (Hfuel r eq_refl); lia|].
    cbn [resolve_walk].
    rewrite (run_deref_scope r sc) by (rewrite Hscs; exact Hr).
    destruct (Lookup sc name) as [obj|]; [exists (Some obj); reflexivity|].
    apply IH; [exact Hscs|].
    intros o Ho. specialize (Hold o Ho). specialize (Hfuel r eq_refl). lia.
Qed.

Lemma older_chain_insert (scs : list Scope) (s : option scope_ref) k x :
  older_chain scs s ->
  (forall r, s = Some r -> (r < k)%nat) ->
  older_chain (<[k := x]> scs) s.
Proof.
  induction 1 as [|r sc Hr Hold _ IH]; intros Hk; [constructor|].
  specialize (Hk r eq_refl) as Hrk.
  apply (older_cons _ r sc).
  - rewrite list_lookup_insert_ne by lia. exact Hr.
  - exact Hold.
  - apply IH. intros o Ho. specialize (Hold o Ho). lia.
Qed.

Lemma tryResolve_ident (id : ident_ref) (I : IdentT) (p : parser) :
  idents (p_store p) !! id = Some I ->
  Obj I = None ->
  older_chain (scopes (p_store p)) (p_topScope p) ->
  (Name I = "_" /\ tryResolve (Ident id) true p = Ok tt p)
  \/ (Name I <> "_" /\
      exists found, tryResolve (Ident id) true p = Ok tt (resolved_as id found p)).
Proof.
  intros HI Hobj Hchain. unfold tryResolve.
  rewrite (run_deref_ident _ _ _ _ HI), Hobj.
  rewrite bool_decide_true by reflexivity. rewrite run_assert_true.
  destruct (decide (Name I = "_")) as [Hb|Hb].
  - left. split; [exact Hb|]. rewrite bool_decide_true by exact Hb. reflexivity.
  - right. split; [exact Hb|]. rewrite bool_decide_false by exact Hb.
    rewrite !run_gets.
    destruct (resolve_walk_total _ _ Hchain (length (scopes (p_store p))) (Name I) p
                eq_refl) as [found Hw].
    { intros r Hr. rewrite Hr in Hchain. inversion Hchain as [|? sc Hsc _ _]; subst.
      apply lookup_lt_Some in Hsc. exact Hsc. }
    rewrite (bind_step _ _ _ _ _ Hw).
    exists found. destruct found as [obj|]; mrun; reflexivity.
Qed.

Lemma parseIdent_plain p pos tok lit rest :
  p_tok p = IDENT ->
  sc_toks (p_scanner p) = (pos, tok, lit) :: rest ->
  tok <> COMMENT ->
  parseIdent p
  = Ok (length (idents (p_store p)))
       (set_store
          (set_idents (idents (p_store p) ++ [mkIdent (p_pos p) (p_lit p) None])
                      (p_store p))
          (next p)).
Proof.
  intros Ht Hs Hne. unfold parseIdent. rewrite !run_gets, Ht.
  rewrite bool_decide_true by reflexivity. rewrite run_bind, run_gets, run_bind.
  rewrite run_modify, run_ret.
  rewrite (next_plain p _ _ _ _ Hs Hne). unfold alloc_ident, new_ident. psimpl.
  reflexivity.
Qed.

Lemma parseReceiver_fresh (typ : Expr) (scope : scope_ref) (sc : Scope) (p : parser) :
  scopes (p_store p) !! scope = Some sc ->
  Objects sc !! "self" = None ->
  let selfid := length (idents (p_store p)) in
  let o := length (objs (p_store p)) in
  let recv := mkField None [selfid] (Some typ) None None in
  let q :=
    set_store
      (mkStore (idents (p_store p) ++ [mkIdent NoPos "self" (Some o)])
               (objs (p_store p) ++ [mkObject Var "self" (DeclField recv) DataNil])
               (<[scope := mkScope (Outer sc) (<["self" := o]> (Objects sc))]>
                  (scopes (p_store p)))) p in
  parseReceiver typ scope p
  = bind (match typ with Ident _ => resolve typ | _ => ret tt end)
         (fun _ => ret recv) q.
Proof.
  intros Hsc Hfree selfid o recv q. unfold parseReceiver.
  rewrite run_alloc_ident. fold selfid. fold recv.
  set (p1 := set_store _ p).
  assert (Hself : idents (p_store p1) !! selfid = Some (mkIdent NoPos "self" None)).
  { unfold p1. psimpl. rewrite lookup_app_r by (unfold selfid; lia).
    unfold selfid. rewrite Nat.sub_diag. reflexivity. }
  pose proof (declare_one (DeclField recv) DataNil (Some scope) Var selfid _ p1
                Hself eq_refl) as Hd.
  cbv beta iota zeta in Hd. cbn [Name NamePos] in Hd.
  rewrite bool_decide_true in Hd by discriminate.
  replace (scopes (p_store p1) !! scope) with (Some sc) in Hd
    by (unfold p1; psimpl; symmetry; exact Hsc).
  rewrite Hfree in Hd.
  rewrite (bind_step _ _ _ _ _ Hd).
  f_equal.
  unfold declared, p1, set_Obj. psimpl.
  rewrite lookup_app_r by (unfold selfid; lia).
  unfold selfid at 1 2. rewrite Nat.sub_diag. cbn [lookup list_lookup].
  psimpl.
  replace (selfid - length (idents (p_store p)))%nat with 0%nat
    by (unfold selfid; lia).
  cbn [lookup list_lookup NamePos Name].
  unfold selfid at 1. rewrite insert_app_r_alt by lia.
  rewrite Nat.sub_diag. reflexivity.
Qed.

Lemma length_snoc {A} (l : list A) x : length (l ++ [x]) = S (length l).
Proof. rewrite length_app. cbn. lia. Qed.

Lemma parseReceiver_star (star : Pos) (x : Expr) (scope : scope_ref) (sc : Scope)
    (p : parser) :
  scopes (p_store p) !! scope = Some sc ->
  Objects sc !! "self" = None ->
  let selfid := length (idents (p_store p)) in
  let o := length (objs (p_store p)) in
  let recv := mkField None [selfid] (Some (StarExpr star x)) None None in
  parseReceiver (StarExpr star x) scope p
  = Ok recv
      (set_store
         (mkStore (idents (p_store p) ++ [mkIdent NoPos "self" (Some o)])
                  (objs (p_store p) ++ [mkObject Var "self" (DeclField recv) DataNil])
                  (<[scope := mkScope (Outer sc) (<["self" := o]> (Objects sc))]>
                     (scopes (p_store p)))) p).
Proof.
  intros Hsc Hfree. cbv zeta.
  rewrite (parseReceiver_fresh _ _ _ _ Hsc Hfree). reflexivity.
Qed.

Lemma set_Obj_snoc2 (l : list IdentT) (a b : IdentT) o os ss :
  set_Obj (length l) o (mkStore ((l ++ [a]) ++ [b]) os ss)
  = mkStore ((l ++ [mkIdent (NamePos a) (Name a) o]) ++ [b]) os ss.
Proof.
  unfold set_Obj. cbn [idents].
  rewrite lookup_app_l by (rewrite length_snoc; lia).
  rewrite lookup_app_r by lia. rewrite Nat.sub_diag. cbn [lookup list_lookup].
  unfold set_idents. cbn [idents objs scopes]. f_equal.
  rewrite insert_app_l by (rewrite length_snoc; lia).
  rewrite insert_app_r_alt by lia. rewrite Nat.sub_diag. reflexivity.
Qed.


Lemma bind_cong {A B} (c c' : M A) (k : A -> M B) p q :
  c p = c' q -> bind c k p = bind c' k q.
Proof. intros Hc. unfold bind. rewrite Hc. reflexivity. Qed.

Lemma value_receiver_case (p : parser) (scope : scope_ref) (sc : Scope)
    pd ld pm m pn tn ln rest :
  scopes (p_store p) !! scope = Some sc ->
  Objects sc !! "self" = None ->
  let tid := length (idents (p_store p)) in
  let selfid := S tid in
  let mid := S (S tid) in
  let o := length (objs (p_store p)) in
  p_tok p = IDENT ->
  sc_toks (p_scanner p)
  = (pd, PERIOD, ld) :: (pm, IDENT, m) :: (pn, tn, ln) :: rest ->
  tn <> COMMENT ->
  older_chain (scopes (p_store p)) (p_topScope p) ->
  (forall r, p_topScope p = Some r -> (r < scope)%nat) ->
  let recv := mkField None [selfid] (Some (Ident tid)) None None in
  exists q tobj,
    parseFuncDecl_name scope p
    = Ok (Some (mkFieldList (p_pos p) [recv] pn), mid) q
    /\ idents (p_store q)
       = idents (p_store p)
         ++ [mkIdent (p_pos p) (p_lit p) tobj;
             mkIdent NoPos "self" (Some o); mkIdent pm m None]
    /\ objs (p_store q)
       = objs (p_store p) ++ [mkObject Var "self" (DeclField recv) DataNil]
    /\ scopes (p_store q)
       = <[scope := mkScope (Outer sc) (<["self" := o]> (Objects sc))]>
           (scopes (p_store p))
    /\ p_pos q = pn /\ p_tok q = tn.
Proof.
  intros Hsc Hfree tid selfid mid o Hid Htoks Hnc Hchain Hlt recv.
  unfold parseFuncDecl_name. rewrite !run_gets, Hid.
  rewrite bool_decide_false by discriminate.
  rewrite !run_bind.
  erewrite bind_step.
  2:{ eapply parseIdent_plain; [exact Hid|exact Htoks|discriminate]. }
  rewrite (next_plain p _ _ _ _ Htoks) by discriminate.
  rewrite !run_bind, run_gets. pnorm. rewrite bool_decide_true by reflexivity.
  fold tid. rewrite !run_bind.
  set (p1 := set_store _ _).
  rewrite (bind_cong _ _ _ _ _ (parseReceiver_fresh (Ident tid) scope sc p1 Hsc Hfree)).
  cbv zeta. rewrite run_bind.
  set (q1 := set_store _ p1).
  assert (HT : idents (p_store q1) !! tid
               = Some (mkIdent (p_pos p) (p_lit p) None)).
  { unfold q1, p1. pnorm.
    rewrite lookup_app_l by (rewrite length_snoc; unfold tid; lia).
    rewrite lookup_app_r by (unfold tid; lia). unfold tid.
    rewrite Nat.sub_diag. reflexivity. }
  assert (Hch1 : older_chain (scopes (p_store q1)) (p_topScope q1)).
  { unfold q1, p1. pnorm. apply older_chain_insert; assumption. }
  assert (Hres : exists r tobj,
             resolve (Ident tid) q1 = Ok tt r
             /\ p_scanner r = p_scanner q1 /\ p_tok r = p_tok q1
             /\ idents (p_store r)
                = (idents (p_store p) ++ [mkIdent (p_pos p) (p_lit p) tobj])
                  ++ [mkIdent NoPos "self" (Some o)]
             /\ objs (p_store r) = objs (p_store q1)
             /\ scopes (p_store r) = scopes (p_store q1)).
  { unfold resolve.
    destruct (tryResolve_ident tid _ q1 HT eq_refl Hch1)
      as [[_ Hr] | [_ [found Hr]]].
    - exists q1, None. split; [exact Hr|]. unfold q1, p1. pnorm.
      rewrite length_snoc. repeat split; reflexivity.
    - exists (resolved_as tid found q1), (Some (default unresolved found)).
      split; [exact Hr|].
      destruct found as [obj|]; unfold resolved_as, q1, p1; pnorm;
        rewrite length_snoc; unfold tid; rewrite set_Obj_snoc2;
        repeat split; reflexivity. }
  destruct Hres as (r & tobj & Hres & Hscan & Htok & Hids & Hobjs & Hscs).
  rewrite (bind_step _ _ _ _ _ Hres).
  assert (Hsr : sc_toks (p_scanner r) = (pm, IDENT, m) :: (pn, tn, ln) :: rest).
  { rewrite Hscan. reflexivity. }
  assert (Hl1 : length (idents (p_store p1)) = selfid).
  { unfold p1. pnorm. apply length_snoc. }
  assert (Ho1 : objs (p_store q1) = objs (p_store p)
                  ++ [mkObject Var "self" (DeclField recv) DataNil]).
  { unfold q1. pnorm. rewrite Hl1. reflexivity. }
  assert (Hs1 : scopes (p_store q1)
                = <[scope := mkScope (Outer sc) (<["self" := o]> (Objects sc))]>
                    (scopes (p_store p))).
  { reflexivity. }
  rewrite Hl1. fold recv.
  clearbody q1 p1.
  rewrite run_ret, !run_bind, run_modify, run_bind.
  rewrite (next_plain r _ _ _ _ Hsr) by discriminate.
  erewrite bind_step.
  2:{ eapply parseIdent_plain; pnorm; [reflexivity|reflexivity|exact Hnc]. }
  erewrite next_plain; [|pnorm; reflexivity|exact Hnc].
  pnorm. rewrite Hids, !length_snoc. fold tid selfid mid.
  mrun.
  eexists. exists tobj. split; [reflexivity|]. pnorm.
  rewrite Hobjs, Hscs, Ho1, Hs1.
  rewrite <- !app_assoc. cbn [app].
  repeat split; reflexivity.
Qed.

Lemma pointer_receiver_case (p : parser) (scope : scope_ref) (sc : Scope)
   pT T pd ld pm m pn tn ln rest :
  scopes (p_store p) !! scope = Some sc ->
  Objects sc !! "self" = None ->
  let tid := length (idents (p_store p)) in
  let selfid := S tid in
  let mid := S (S tid) in
  let o := length (objs (p_store p)) in
     p_tok p = MUL ->
     sc_toks (p_scanner p)
     = (pT, IDENT, T) :: (pd, PERIOD, ld) :: (pm, IDENT, m) :: (pn, tn, ln) :: rest ->
     tn <> COMMENT ->
     let recv := mkField None [selfid] (Some (StarExpr (p_pos p) (Ident tid)))
                         None None in
     exists q,
       parseFuncDecl_name scope p
       = Ok (Some (mkFieldList (p_pos p) [recv] pn), mid) q
       /\ idents (p_store q)
          = idents (p_store p)
            ++ [mkIdent pT T None; mkIdent NoPos "self" (Some o); mkIdent pm m None]
       /\ objs (p_store q)
          = objs (p_store p) ++ [mkObject Var "self" (DeclField recv) DataNil]
       /\ scopes (p_store q)
          = <[scope := mkScope (Outer sc) (<["self" := o]> (Objects sc))]>
              (scopes (p_store p))
       /\ p_pos q = pn /\ p_tok q = tn.
Proof.
  intros Hsc Hfree tid selfid mid o Hmul Htoks Hnc recv.
  unfold parseFuncDecl_name. rewrite !run_gets, Hmul.
  rewrite bool_decide_true by reflexivity.
  rewrite run_bind, (bind_step _ _ _ _ _ (expect_ok MUL p Hmul)).
  rewrite (next_plain p _ _ _ _ Htoks) by discriminate. pnorm.
  rewrite run_bind.
  erewrite bind_step.
  2:{ eapply parseIdent_plain; pnorm; [reflexivity|reflexivity|discriminate]. }
  (erewrite next_plain; [|pnorm; reflexivity|discriminate]).
  pnorm. fold tid.
  rewrite run_bind.
  erewrite bind_step.
  2:{ eapply parseReceiver_star; pnorm; [exact Hsc|exact Hfree]. }
  pnorm. rewrite length_snoc. fold tid selfid o. fold recv.
  rewrite run_bind.
  (erewrite bind_step; [|apply expect_ok; reflexivity]).
  (erewrite next_plain; [|pnorm; reflexivity|discriminate]).
  pnorm. rewrite run_bind.
  erewrite bind_step.
  2:{ eapply parseIdent_plain; pnorm; [reflexivity|reflexivity|exact Hnc]. }
  (erewrite next_plain; [|pnorm; reflexivity|exact Hnc]).
  pnorm. rewrite !length_snoc. fold tid selfid mid.
  mrun.
  eexists. (split; [reflexivity|]). pnorm.
  rewrite <- !app_assoc. cbn [app].
  repeat split; reflexivity.
Qed.

Lemma parseFuncDecl_reads_name (p0 : parser) (decl : FuncDecl) (q : parser) :
  parseFuncDecl p0 = Ok decl q ->
  exists q1,
    parseFuncDecl_name (length (scopes (p_store (next p0))))
                       (with_func_scope (next p0))
    = Ok (FuncDecl_Recv decl, FuncDecl_Name decl) q1.
Proof.
  intros Hq. unfold parseFuncDecl in Hq.
  apply bind_Ok in Hq as (d & q0 & Hnode & Hk).
  apply bind_Ok in Hk as ([] & q1 & _ & Hret).
  unfold ret in Hret. injection Hret as -> _.
  unfold parseFuncDecl_node in Hnode. rewrite run_gets in Hnode.
  apply bind_Ok in Hnode as (pos & p1 & Hexp & Hnode).
  assert (Hp1 : p1 = next p0).
  { unfold expect in Hexp. rewrite !run_gets in Hexp.
    destruct (bool_decide (p_tok p0 <> FUNC)).
    - unfold errorExpected, bind in Hexp. discriminate.
    - rewrite run_ret, run_modify in Hexp. unfold ret in Hexp. congruence. }
  subst p1. rewrite run_gets, run_alloc_scope in Hnode.
  apply bind_Ok in Hnode as ([rl mid'] & q2 & Hname & Hnode).
  apply bind_Ok in Hnode as (sig & q3 & _ & Hnode).
  apply bind_Ok in Hnode as (body & q4 & _ & Hnode).
  unfold ret in Hnode. injection Hnode as <- _.
  exists q2. exact Hname.
Qed.

(** C5.  A method is declared with its receiver type before the name,
    [*T.m] or [T.m].  parseFuncDecl reads it through parseReceiver, which
    makes the receiver a field whose one name is a new identifier "self"
    with no position, of type [*T] or [T], and declares that identifier as
    a variable in the scope of the function; the receiver list of the
    declaration holds this one field, opening where the receiver type
    starts and closing at the token after the method name. *)
Theorem method_receiver (p : parser) (scope : scope_ref) (sc : Scope) :
  scopes (p_store p) !! scope = Some sc ->
  Objects sc !! "self" = None ->
  let tid := length (idents (p_store p)) in
  let selfid := S tid in
  let mid := S (S tid) in
  let o := length (objs (p_store p)) in
  (forall pT T pd ld pm m pn tn ln rest,
     p_tok p = MUL ->
     sc_toks (p_scanner p)
     = (pT, IDENT, T) :: (pd, PERIOD, ld) :: (pm, IDENT, m) :: (pn, tn, ln) :: rest ->
     tn <> COMMENT ->
     let recv := mkField None [selfid] (Some (StarExpr (p_pos p) (Ident tid)))
                         None None in
     exists q,
       parseFuncDecl_name scope p
       = Ok (Some (mkFieldList (p_pos p) [recv] pn), mid) q
       /\ idents (p_store q)
          = idents (p_store p)
            ++ [mkIdent pT T None; mkIdent NoPos "self" (Some o); mkIdent pm m None]
       /\ objs (p_store q)
          = objs (p_store p) ++ [mkObject Var "self" (DeclField recv) DataNil]
       /\ scopes (p_store q)
          = <[scope := mkScope (Outer sc) (<["self" := o]> (Objects sc))]>
              (scopes (p_store p))
       /\ p_pos q = pn /\ p_tok q = tn)
  /\ (forall pd ld pm m pn tn ln rest,
       p_tok p = IDENT ->
       sc_toks (p_scanner p)
       = (pd, PERIOD, ld) :: (pm, IDENT, m) :: (pn, tn, ln) :: rest ->
       tn <> COMMENT ->
       older_chain (scopes (p_store p)) (p_topScope p) ->
       (forall r, p_topScope p = Some r -> (r < scope)%nat) ->
       let recv := mkField None [selfid] (Some (Ident tid)) None None in
       exists q tobj,
         parseFuncDecl_name scope p
         = Ok (Some (mkFieldList (p_pos p) [recv] pn), mid) q
         /\ idents (p_store q)
            = idents (p_store p)
              ++ [mkIdent (p_pos p) (p_lit p) tobj;
                  mkIdent NoPos "self" (Some o); mkIdent pm m None]
         /\ objs (p_store q)
            = objs (p_store p) ++ [mkObject Var "self" (DeclField recv) DataNil]
         /\ scopes (p_store q)
            = <[scope := mkScope (Outer sc) (<["self" := o]> (Objects sc))]>
                (scopes (p_store p))
         /\ p_pos q = pn /\ p_tok q = tn)
  /\ (forall p0 decl q,
       parseFuncDecl p0 = Ok decl q ->
       exists q1,
         parseFuncDecl_name (length (scopes (p_store (next p0))))
                            (with_func_scope (next p0))
         = Ok (FuncDecl_Recv decl, FuncDecl_Name decl) q1).
Proof.
  intros Hsc Hfree tid selfid mid o. split; [|split].
  - intros pT T pd ld pm m pn tn ln rest Hmul Htoks Hnc recv.
    exact (pointer_receiver_case p scope sc pT T pd ld pm m pn tn ln rest
             Hsc Hfree Hmul Htoks Hnc).
  - intros pd ld pm m pn tn ln rest Hid Htoks Hnc Hchain Hlt recv.
    exact (value_receiver_case p scope sc pd ld pm m pn tn ln rest
             Hsc Hfree Hid Htoks Hnc Hchain Hlt).
  - intros p0 decl q Hq. exact (parseFuncDecl_reads_name p0 decl q Hq).
Qed.

(** ** Reading tokens *)

Lemma after_0 s e : s <> [] -> after 0 s e = s.
Proof. unfold after. rewrite drop_0. destruct s; [congruence|reflexivity]. Qed.

Lemma after_after j k s e : after j (after k s e) e = after (k + j) s e.
Proof.
  unfold after. rewrite <- drop_drop.
  destruct (drop k s) as [|t l] eqn:Hd.
  - rewrite drop_nil. destruct j as [|j]; [reflexivity|].
    cbn [drop]. rewrite drop_nil. reflexivity.
  - reflexivity.
Qed.

Lemma leading_after k s e :
  isComment e = false ->
  (k <= length (leading_comments s))%nat ->
  leading_comments (after k s e) = drop k (leading_comments s).
Proof.
  intros He. revert k. induction s as [|t s IH]; intros k Hk.
  - cbn in Hk. assert (k = 0%nat) as -> by lia. cbn. rewrite He. reflexivity.
  - destruct k as [|k]; [rewrite after_0 by discriminate; reflexivity|].
    cbn [leading_comments] in *. destruct (isComment t) eqn:Ht.
    + cbn [length drop] in *. rewrite <- IH by lia. reflexivity.
    + cbn in Hk. lia.
Qed.

Lemma after_leading s e :
  after (length (leading_comments s)) s e
  = match after_comments s with [] => [e] | l => l end.
Proof.
  induction s as [|t s IH]; [reflexivity|].
  cbn [leading_comments after_comments]. destruct (isComment t) eqn:Ht.
  - cbn [length]. rewrite <- IH. reflexivity.
  - reflexivity.
Qed.

Lemma take_leading k s :
  (k <= length (leading_comments s))%nat ->
  take k s = take k (leading_comments s).
Proof.
  revert k. induction s as [|t s IH]; intros k Hk; [reflexivity|].
  destruct k as [|k]; [reflexivity|].
  cbn [leading_comments] in *. destruct (isComment t).
  - cbn [length take] in *. rewrite IH by lia. reflexivity.
  - cbn in Hk. lia.
Qed.

Lemma leading_head_comment p :
  p_tok p = COMMENT -> (1 <= length (leading_comments (upcoming p)))%nat.
Proof.
  intros Ht. unfold upcoming. cbn [leading_comments]. unfold isComment.
  cbn [fst snd]. rewrite bool_decide_true by exact Ht. cbn. lia.
Qed.

Lemma leading_head_other p :
  p_tok p <> COMMENT -> leading_comments (upcoming p) = [].
Proof.
  intros Ht. unfold upcoming. cbn [leading_comments]. unfold isComment.
  cbn [fst snd]. rewrite bool_decide_false by exact Ht. reflexivity.
Qed.

Lemma token_frame_refl p : token_frame p p.
Proof. unfold token_frame. repeat split. Qed.

Lemma token_frame_trans p q r :
  token_frame p q -> token_frame q r -> token_frame p r.
Proof.
  unfold token_frame. intros Hpq Hqr.
  repeat match goal with H : _ /\ _ |- _ => destruct H end.
  repeat split; congruence.
Qed.

Lemma eof_token_frame p q : token_frame p q -> eof_token q = eof_token p.
Proof. intros (_ & He & _). unfold eof_token. rewrite He. reflexivity. Qed.

Lemma isComment_eof p : isComment (eof_token p) = false.
Proof. reflexivity. Qed.

(** next0 reads one token and touches nothing else. *)
Lemma next0_spec p :
  upcoming (next0 p) = after 1 (upcoming p) (eof_token p)
  /\ token_frame p (next0 p)
  /\ p_comments (next0 p) = p_comments p
  /\ p_leadComment (next0 p) = p_leadComment p
  /\ p_lineComment (next0 p) = p_lineComment p
  /\ p_ptok (next0 p) = p_tok p.
Proof.
  unfold next0, Scan, upcoming, after, eof_token, token_frame.
  destruct (sc_toks (p_scanner p)) as [|[[pos tok] lit] rest] eqn:Hs; psimpl;
    cbn [drop sc_toks sc_eof]; rewrite ?Hs; repeat split.
Qed.

Lemma leading_length_le s : (length (leading_comments s) <= length s)%nat.
Proof.
  induction s as [|t s IH]; [reflexivity|].
  cbn [leading_comments]. destruct (isComment t); cbn; lia.
Qed.

Lemma take_S_upcoming (k : nat) p :
  p_tok p = COMMENT ->
  (k <= length (leading_comments (after 1 (upcoming p) (eof_token p))))%nat ->
  map comment_of (take (S k) (upcoming p))
  = mkComment (p_pos p) (p_lit p)
    :: map comment_of (take k (after 1 (upcoming p) (eof_token p))).
Proof.
  intros Ht Hk. unfold upcoming, after in *. cbn [drop] in *. rewrite drop_0 in *.
  destruct (sc_toks (p_scanner p)) as [|t l].
  - change (k <= 0)%nat in Hk. assert (k = 0%nat) as -> by lia. reflexivity.
  - reflexivity.
Qed.

(** The loop of consumeCommentGroup reads [k] comment tokens and nothing
    else. *)
Lemma consumeCommentGroup_loop_spec (n : Z) :
  forall fuel lst endline p,
    (length (leading_comments (upcoming p)) <= fuel)%nat ->
    exists k,
      let r := consumeCommentGroup_loop fuel n lst endline p in
      (k <= length (leading_comments (upcoming p)))%nat
      /\ fst (fst r) = lst ++ map comment_of (take k (upcoming p))
      /\ upcoming (snd r) = after k (upcoming p) (eof_token p)
      /\ token_frame p (snd r)
      /\ p_comments (snd r) = p_comments p
      /\ p_leadComment (snd r) = p_leadComment p
      /\ p_lineComment (snd r) = p_lineComment p
      /\ (k = 0%nat -> snd r = p)
      /\ ((0 < k)%nat -> p_ptok (snd r) = COMMENT)
      /\ (p_tok p = COMMENT -> file_Line (p_pos p) <= endline + n -> (0 < k)%nat).
Proof.
  induction fuel as [|fuel IH]; intros lst endline p Hfuel.
  - exists 0%nat. cbn [consumeCommentGroup_loop fst snd].
    split; [lia|]. split; [cbn; rewrite app_nil_r; reflexivity|].
    split; [rewrite after_0 by discriminate; reflexivity|].
    split; [apply token_frame_refl|].
    repeat (split; [reflexivity|]). split; [lia|].
    intros Ht _. pose proof (leading_head_comment p Ht). lia.
  - cbn [consumeCommentGroup_loop].
    destruct (bool_decide (p_tok p = COMMENT)) eqn:Hc; cbn [andb].
    2:{ exists 0%nat. cbn [fst snd].
        split; [lia|]. split; [cbn; rewrite app_nil_r; reflexivity|].
        split; [rewrite after_0 by discriminate; reflexivity|].
        split; [apply token_frame_refl|].
        repeat (split; [reflexivity|]). split; [lia|].
        intros Ht _. apply bool_decide_eq_false in Hc. contradiction. }
    apply bool_decide_eq_true in Hc.
    destruct (file_Line (p_pos p) <=? endline + n) eqn:Hline.
    2:{ exists 0%nat. cbn [fst snd].
        split; [lia|]. split; [cbn; rewrite app_nil_r; reflexivity|].
        split; [rewrite after_0 by discriminate; reflexivity|].
        split; [apply token_frame_refl|].
        repeat (split; [reflexivity|]). split; [lia|].
        intros _ Hle. apply Z.leb_gt in Hline. lia. }
    unfold consumeComment.
    destruct (next0_spec p) as (Hup & Hfr & Hcm & Hlead & Hlinec & Hptok).
    pose proof (leading_head_comment p Hc) as H1.
    assert (Hlead1 : leading_comments (upcoming (next0 p))
                     = drop 1 (leading_comments (upcoming p))).
    { rewrite Hup. apply leading_after; [reflexivity|exact H1]. }
    destruct (IH (lst ++ [mkComment (p_pos p) (p_lit p)]) (file_Line (p_pos p))
                (next0 p)) as (k & Hk).
    { rewrite Hlead1, length_drop. lia. }
    cbv zeta in Hk.
    destruct Hk as (Hkle & Hlst & Hupk & Hfrk & Hcmk & Hleadk & Hlinek & Hk0 & Hkpos & _).
    exists (S k). cbv zeta.
    split; [rewrite Hlead1, length_drop in Hkle; lia|].
    split.
    { rewrite Hlst, take_S_upcoming, <- Hup, <- app_assoc by
        (try exact Hc; rewrite <- Hup; exact Hkle).
      reflexivity. }
    split.
    { rewrite Hupk, Hup, (eof_token_frame _ _ Hfr), after_after. reflexivity. }
    split; [exact (token_frame_trans _ _ _ Hfr Hfrk)|].
    split; [congruence|]. split; [congruence|]. split; [congruence|].
    split; [discriminate|]. split; [|intros; lia].
    intros _. destruct k as [|k].
    + rewrite (Hk0 eq_refl). rewrite Hptok. exact Hc.
    + apply Hkpos. lia.
Qed.

(** consumeCommentGroup, called at a comment, reads at least that
    comment and adds the group it has read to the comments. *)
Lemma consumeCommentGroup_spec (n : Z) p :
  0 <= n -> p_tok p = COMMENT ->
  exists k,
    let r := consumeCommentGroup n p in
    (0 < k <= length (leading_comments (upcoming p)))%nat
    /\ fst (fst r) = map comment_of (take k (upcoming p))
    /\ upcoming (snd r) = after k (upcoming p) (eof_token p)
    /\ token_frame p (snd r)
    /\ p_comments (snd r) = p_comments p ++ [fst (fst r)]
    /\ p_leadComment (snd r) = p_leadComment p
    /\ p_lineComment (snd r) = p_lineComment p
    /\ p_ptok (snd r) = COMMENT.
Proof.
  intros Hn Ht. unfold consumeCommentGroup.
  destruct (consumeCommentGroup_loop_spec n (S (length (sc_toks (p_scanner p)))) []
              (file_Line (p_pos p)) p) as (k & Hk).
  { etransitivity; [apply leading_length_le|]. reflexivity. }
  cbv zeta in Hk.
  destruct (consumeCommentGroup_loop _ _ _ _ _) as [[lst endline] q].
  cbn [fst snd] in *.
  destruct Hk as (Hkle & Hlst & Hup & Hfr & Hcm & Hlead & Hlinec & _ & Hptok & Hpos).
  assert (Hk : (0 < k)%nat) by (apply Hpos; [exact Ht|lia]).
  exists k. split; [lia|]. split; [exact Hlst|].
  split; [exact Hup|].
  split.
  { unfold token_frame in *. psimpl. exact Hfr. }
  psimpl. split; [rewrite Hcm; reflexivity|]. split; [exact Hlead|].
  split; [exact Hlinec|]. apply Hptok. exact Hk.
Qed.

(** The loop of next over the comment groups reads every comment token
    that is left. *)
Lemma next_groups_spec :
  forall fuel comment endline p,
    (length (leading_comments (upcoming p)) <= fuel)%nat ->
    exists groups,
      let r := next_groups fuel comment endline p in
      upcoming (snd r)
      = after (length (leading_comments (upcoming p))) (upcoming p) (eof_token p)
      /\ token_frame p (snd r)
      /\ p_comments (snd r) = p_comments p ++ groups
      /\ concat groups = map comment_of (leading_comments (upcoming p))
      /\ Forall (fun g => g <> []) groups
      /\ p_leadComment (snd r) = p_leadComment p
      /\ p_lineComment (snd r) = p_lineComment p
      /\ (p_tok p <> COMMENT -> r = (comment, endline, p) /\ groups = [])
      /\ (p_tok p = COMMENT -> p_ptok (snd r) = COMMENT).
Proof.
  assert (Hstop : forall comment endline p,
             p_tok p <> COMMENT ->
             exists groups : list (list Comment),
               upcoming p
               = after (length (leading_comments (upcoming p))) (upcoming p)
                   (eof_token p)
               /\ token_frame p p
               /\ p_comments p = p_comments p ++ groups
               /\ concat groups = map comment_of (leading_comments (upcoming p))
               /\ Forall (fun g => g <> []) groups
               /\ p_leadComment p = p_leadComment p
               /\ p_lineComment p = p_lineComment p
               /\ (p_tok p <> COMMENT ->
                   (comment, endline, p) = (comment : option CommentGroup,
                                            endline : Z, p) /\ groups = [])
               /\ (p_tok p = COMMENT -> p_ptok p = COMMENT)).
  { intros comment endline p Ht. exists [].
    rewrite (leading_head_other p Ht). cbn [length].
    split; [rewrite after_0 by discriminate; reflexivity|].
    split; [apply token_frame_refl|].
    split; [rewrite app_nil_r; reflexivity|].
    split; [reflexivity|]. split; [constructor|].
    split; [reflexivity|]. split; [reflexivity|].
    split; [intros _; split; reflexivity|]. intros Hc. contradiction. }
  induction fuel as [|fuel IH]; intros comment endline p Hfuel.
  - cbn [next_groups fst snd]. apply Hstop.
    intros Ht. pose proof (leading_head_comment p Ht). lia.
  - cbn [next_groups].
    destruct (bool_decide (p_tok p = COMMENT)) eqn:Hc.
    2:{ cbn [fst snd]. apply Hstop. apply bool_decide_eq_false in Hc. exact Hc. }
    apply bool_decide_eq_true in Hc.
    destruct (consumeCommentGroup_spec 1 p ltac:(lia) Hc) as (k & Hk).
    cbv zeta in Hk.
    destruct (consumeCommentGroup 1 p) as [[c el] p1]. cbn [fst snd] in Hk.
    destruct Hk as (Hkle & Hc1 & Hup1 & Hfr1 & Hcm1 & Hlead1 & Hline1 & Hptok1).
    assert (HL1 : leading_comments (upcoming p1)
                  = drop k (leading_comments (upcoming p))).
    { rewrite Hup1. apply leading_after; [reflexivity|lia]. }
    destruct (IH (Some c) el p1) as (groups & Hg).
    { rewrite HL1, length_drop. lia. }
    cbv zeta in Hg.
    destruct Hg as (Hup & Hfr & Hcm & Hcat & Hne & Hlead & Hline & Hstay & Hptok).
    exists (c :: groups). cbv zeta.
    split.
    { rewrite Hup, HL1, length_drop, Hup1, (eof_token_frame _ _ Hfr1), after_after.
      f_equal. lia. }
    split; [exact (token_frame_trans _ _ _ Hfr1 Hfr)|].
    split; [rewrite Hcm, Hcm1, <- app_assoc; reflexivity|].
    split.
    { cbn [concat]. rewrite Hcat, HL1, Hc1, take_leading by lia.
      rewrite <- map_app, take_drop. reflexivity. }
    split.
    { constructor; [|exact Hne]. rewrite Hc1. unfold upcoming.
      destruct k as [|k]; [lia|]. discriminate. }
    split; [congruence|]. split; [congruence|].
    split; [intros Hn; contradiction|].
    intros _. destruct (decide (p_tok p1 = COMMENT)) as [Ht1|Ht1].
    + apply Hptok. exact Ht1.
    + destruct (Hstay Ht1) as [-> _]. exact Hptok1.
Qed.

Lemma leading_after_1 p :
  leading_comments (after 1 (upcoming p) (eof_token p))
  = leading_comments (sc_toks (p_scanner p)).
Proof.
  unfold upcoming, after. cbn [drop]. rewrite drop_0.
  destruct (sc_toks (p_scanner p)); reflexivity.
Qed.

Lemma after_comments_after_1 p :
  match after_comments (after 1 (upcoming p) (eof_token p)) with
  | [] => [eof_token p]
  | l => l
  end
  = match after_comments (sc_toks (p_scanner p)) with
    | [] => [eof_token p]
    | l => l
    end.
Proof.
  unfold upcoming, after. cbn [drop]. rewrite drop_0.
  destruct (sc_toks (p_scanner p)); reflexivity.
Qed.

Lemma after_comments_head s e t l :
  isComment e = false ->
  match after_comments s with [] => [e] | l => l end = t :: l ->
  isComment t = false.
Proof.
  intros He. induction s as [|t' s IH]; cbn [after_comments].
  - intros Heq. injection Heq as <- _. exact He.
  - destruct (isComment t') eqn:Ht'; [exact IH|].
    intros Heq. injection Heq as <- _. exact Ht'.
Qed.

(** What next does to the tokens, the comments and the rest of the state. *)
Lemma next_spec (p : parser) :
  let toks := sc_toks (p_scanner p) in
  let q := next p in
  upcoming q = match after_comments toks with [] => [eof_token p] | l => l end
  /\ (exists groups,
        p_comments q = p_comments p ++ groups
        /\ concat groups = map comment_of (leading_comments toks)
        /\ Forall (fun g => g <> []) groups)
  /\ p_ptok q = match leading_comments toks with [] => p_tok p | _ => COMMENT end
  /\ token_frame p q
  /\ (leading_comments toks = [] ->
      p_leadComment q = None /\ p_lineComment q = None).
Proof.
  intros toks q.
  subst q. unfold next.
  set (p0 := set_lineComment None (set_leadComment None p)).
  assert (Hp0 : upcoming p0 = upcoming p /\ eof_token p0 = eof_token p
                /\ token_frame p p0 /\ p_comments p0 = p_comments p
                /\ p_tok p0 = p_tok p
                /\ p_leadComment p0 = None /\ p_lineComment p0 = None).
  { unfold p0, upcoming, eof_token, token_frame. psimpl. repeat split. }
  destruct Hp0 as (Hup0 & Heof0 & Hfr0 & Hcm0 & Htok0 & Hlead0 & Hline0).
  destruct (next0_spec p0) as (Hup1 & Hfr1 & Hcm1 & Hlead1 & Hline1 & Hptok1).
  set (p1 := next0 p0) in *.
  assert (HL1 : leading_comments (upcoming p1) = leading_comments toks).
  { rewrite Hup1, Hup0, Heof0. apply leading_after_1. }
  assert (Heof1 : eof_token p1 = eof_token p).
  { rewrite (eof_token_frame _ _ Hfr1). exact Heof0. }
  assert (Hfr01 : token_frame p p1) by exact (token_frame_trans _ _ _ Hfr0 Hfr1).
  assert (Hdone : after (length (leading_comments toks)) (upcoming p1) (eof_token p)
                  = match after_comments toks with [] => [eof_token p] | l => l end).
  { rewrite <- HL1, after_leading, Hup1, Hup0, Heof0.
    apply after_comments_after_1. }
  destruct (bool_decide (p_tok p1 = COMMENT)) eqn:Hc.
  2:{ apply bool_decide_eq_false in Hc.
      pose proof (leading_head_other p1 Hc) as HL. rewrite HL1 in HL.
      rewrite HL in *. cbn [length] in Hdone.
      rewrite after_0 in Hdone by discriminate.
      split; [exact Hdone|].
      split; [exists []; rewrite app_nil_r; repeat split; [congruence|constructor]|].
      split; [congruence|]. split; [exact Hfr01|].
      intros _. split; congruence. }
  apply bool_decide_eq_true in Hc.
  pose proof (leading_head_comment p1 Hc) as HLpos. rewrite HL1 in HLpos.
  (* the group on the line of the previous token, if there is one *)
  set (first := if file_Line (p_pos p1) =? file_Line (p_pos p0) then _ else _).
  assert (Hfirst : exists k g1,
             (k <= length (leading_comments toks))%nat
             /\ upcoming (snd first) = after k (upcoming p1) (eof_token p)
             /\ token_frame p (snd first)
             /\ p_comments (snd first) = p_comments p ++ g1
             /\ concat g1 = map comment_of (take k (upcoming p1))
             /\ Forall (fun g => g <> []) g1
             /\ (p_tok (snd first) <> COMMENT -> p_ptok (snd first) = COMMENT)).
  { unfold first. destruct (file_Line (p_pos p1) =? file_Line (p_pos p0)).
    - destruct (consumeCommentGroup_spec 0 p1 ltac:(lia) Hc) as (k & Hk).
      cbv zeta in Hk.
      destruct (consumeCommentGroup 0 p1) as [[c el] p2]. cbn [fst snd] in Hk.
      destruct Hk as (Hkle & Hc1 & Hup2 & Hfr2 & Hcm2 & _ & _ & Hptok2).
      exists k, [c].
      assert (Hc_ne : c <> []).
      { rewrite Hc1. unfold upcoming. destruct k as [|k]; [lia|]. discriminate. }
      destruct (negb (file_Line (p_pos p2) =? el)); cbn [fst snd];
        unfold upcoming, token_frame in *; psimpl;
        (split; [rewrite <- HL1; unfold upcoming; lia|]);
        (split; [rewrite Hup2, Heof1; reflexivity|]);
        (split; [apply (token_frame_trans _ _ _ Hfr01 Hfr2)|]);
        (split; [rewrite Hcm2, Hcm1, Hcm0; reflexivity|]);
        (split; [cbn [concat]; rewrite app_nil_r; exact Hc1|]);
        (split; [repeat constructor; exact Hc_ne|]);
        intros _; exact Hptok2.
    - exists 0%nat, []. cbn [fst snd].
      split; [lia|]. split; [rewrite after_0 by discriminate; reflexivity|].
      split; [exact Hfr01|]. split; [rewrite app_nil_r; congruence|].
      split; [reflexivity|]. split; [constructor|].
      intros Hn. contradiction. }
  destruct Hfirst as (k & g1 & Hkle & Hup2 & Hfr2 & Hcm2 & Hcat1 & Hne1 & Hptok2).
  destruct first as [comment p2]. cbn [fst snd] in *.
  assert (HL2 : leading_comments (upcoming p2) = drop k (leading_comments toks)).
  { rewrite Hup2, <- HL1. apply leading_after; [reflexivity|rewrite HL1; exact Hkle]. }
  destruct (next_groups_spec (S (length (sc_toks (p_scanner p2)))) comment (-1) p2)
    as (groups & Hg).
  { etransitivity; [apply leading_length_le|]. reflexivity. }
  cbv zeta in Hg.
  destruct (next_groups _ comment (-1) p2) as [[comment' endline] p3].
  cbn [fst snd] in Hg.
  destruct Hg as (Hup3 & Hfr3 & Hcm3 & Hcat & Hne & _ & _ & Hstay & Hptok3).
  assert (Hres :
    upcoming p3 = match after_comments toks with [] => [eof_token p] | l => l end
    /\ (exists groups,
          p_comments p3 = p_comments p ++ groups
          /\ concat groups = map comment_of (leading_comments toks)
          /\ Forall (fun g => g <> []) groups)
    /\ p_ptok p3 = COMMENT
    /\ token_frame p p3).
  { split.
    { rewrite Hup3, HL2, length_drop, Hup2, (eof_token_frame _ _ Hfr2), after_after.
      rewrite <- Hdone. f_equal. lia. }
    split.
    { exists (g1 ++ groups). split; [rewrite Hcm3, Hcm2, app_assoc; reflexivity|].
      split; [|apply Forall_app; split; assumption].
      rewrite concat_app, Hcat, Hcat1, HL2, take_leading by (rewrite HL1; exact Hkle).
      rewrite HL1, <- map_app, take_drop. reflexivity. }
    split; [|exact (token_frame_trans _ _ _ Hfr2 Hfr3)].
    destruct (decide (p_tok p2 = COMMENT)) as [Ht2|Ht2].
    - apply Hptok3. exact Ht2.
    - destruct (Hstay Ht2) as [Heq _]. injection Heq as _ _ ->.
      apply Hptok2. exact Ht2. }
  destruct Hres as (HupR & HcmR & HptokR & HfrR).
  assert (HLne : leading_comments toks <> []).
  { intros Hnil. rewrite Hnil in HLpos. cbn in HLpos. lia. }
  destruct (leading_comments toks) as [|t0 L0] eqn:HL; [congruence|].
  destruct (endline + 1 =? file_Line (p_pos p3));
    unfold upcoming, token_frame in *; psimpl;
    (split; [exact HupR|]); (split; [exact HcmR|]); (split; [exact HptokR|]);
    (split; [exact HfrR|]); discriminate.
Qed.


(** ** Synchronization *)

(** next reads one token and the comments after it. *)
Lemma next_reads (p : parser) :
  upcoming (next p)
  = after (S (length (leading_comments (sc_toks (p_scanner p)))))
      (upcoming p) (eof_token p).
Proof.
  destruct (next_spec p) as (Hup & _). cbv zeta in Hup.
  rewrite Hup, <- after_leading. reflexivity.
Qed.

Lemma after_length k s e : (length (after k s e) <= Nat.max 1 (length s - k))%nat.
Proof.
  unfold after. destruct (drop k s) eqn:Hd; [cbn; lia|].
  rewrite <- Hd, length_drop. lia.
Qed.

(** next makes progress: the scanner has fewer tokens to deliver, or had
    none and the parser is at EOF. *)
Lemma next_progress (p : parser) :
  (sc_toks (p_scanner p) = [] ->
   p_tok (next p) = EOF /\ sc_toks (p_scanner (next p)) = [])
  /\ (sc_toks (p_scanner p) <> [] ->
      (length (sc_toks (p_scanner (next p))) < length (sc_toks (p_scanner p)))%nat).
Proof.
  pose proof (next_reads p) as Hr. split.
  - intros Hnil. rewrite Hnil in Hr. unfold upcoming, after in Hr.
    rewrite Hnil in Hr. cbn in Hr. injection Hr as _ Ht _ Hs. auto.
  - intros Hne.
    assert (Hlen : (length (upcoming (next p))
                    <= Nat.max 1 (length (upcoming p) - 1))%nat).
    { rewrite Hr. etransitivity; [apply after_length|]. lia. }
    unfold upcoming in Hlen. cbn [length] in Hlen.
    destruct (sc_toks (p_scanner p)); [congruence|]. cbn [length] in *. lia.
Qed.

Lemma sync_measure_next (p : parser) :
  (sync_measure (next p) < 2 + length (sc_toks (p_scanner p)))%nat.
Proof.
  destruct (next_progress p) as [Hnil Hne]. unfold sync_measure.
  destruct (sc_toks (p_scanner p)) as [|t l] eqn:Hs.
  - destruct (Hnil eq_refl) as [Ht _]. rewrite bool_decide_true by exact Ht.
    cbn. lia.
  - specialize (Hne ltac:(discriminate)). cbn [length] in *.
    destruct (bool_decide _); lia.
Qed.

Lemma sync_frame_of_token_frame p q r :
  sync_frame p q -> token_frame q r ->
  p_syncPos q = p_syncPos p -> p_syncCnt q = p_syncCnt p ->
  sync_frame p r.
Proof.
  unfold sync_frame, token_frame. psimpl. intros Hpq Hqr Hpos Hcnt.
  repeat match goal with H : _ /\ _ |- _ => destruct H end.
  repeat split; congruence.
Qed.

Lemma sync_frame_refl p : sync_frame p p.
Proof. unfold sync_frame, token_frame. psimpl. repeat split. Qed.

(** The loop of syncStmt and syncDecl returns, at an anchor or at EOF. *)
Lemma sync_loop_spec (anchor : Token -> bool) :
  anchor EOF = false ->
  forall fuel p,
    (sync_measure p <= fuel)%nat ->
    exists q k,
      sync_loop anchor fuel p = Ok tt q
      /\ upcoming q = after k (upcoming p) (eof_token p)
      /\ sync_frame p q
      /\ (p_tok q = EOF /\ p_syncPos q = p_syncPos p /\ p_syncCnt q = p_syncCnt p
          \/ anchor (p_tok q) = true /\ p_syncPos q = p_pos q
             /\ p_syncPos p <= p_syncPos q /\ p_syncCnt q <= 10).
Proof.
  intros Heof.
  assert (Hgo : forall fuel p,
             (forall p', (sync_measure p' <= fuel)%nat ->
                exists q k,
                  sync_loop anchor fuel p' = Ok tt q
                  /\ upcoming q = after k (upcoming p') (eof_token p')
                  /\ sync_frame p' q
                  /\ (p_tok q = EOF /\ p_syncPos q = p_syncPos p'
                      /\ p_syncCnt q = p_syncCnt p'
                      \/ anchor (p_tok q) = true /\ p_syncPos q = p_pos q
                         /\ p_syncPos p' <= p_syncPos q /\ p_syncCnt q <= 10)) ->
             p_tok p <> EOF ->
             (sync_measure p <= S fuel)%nat ->
             exists q k,
               bind (modify next) (fun _ => sync_loop anchor fuel) p = Ok tt q
               /\ upcoming q = after k (upcoming p) (eof_token p)
               /\ sync_frame p q
               /\ (p_tok q = EOF /\ p_syncPos q = p_syncPos p
                   /\ p_syncCnt q = p_syncCnt p
                   \/ anchor (p_tok q) = true /\ p_syncPos q = p_pos q
                      /\ p_syncPos p <= p_syncPos q /\ p_syncCnt q <= 10)).
  { intros fuel p IH Hne Hm. rewrite run_modify.
    destruct (next_spec p) as (_ & _ & _ & Hfr & _). cbv zeta in Hfr.
    destruct (IH (next p)) as (q & k & Hrun & Hup & Hsf & Hend).
    { pose proof (sync_measure_next p) as Hlt. unfold sync_measure in Hm.
      rewrite bool_decide_false in Hm by exact Hne. lia. }
    pose proof Hfr as (_ & _ & _ & Hsp & Hsc & _).
    exists q, (S (length (leading_comments (sc_toks (p_scanner p)))) + k)%nat.
    split; [exact Hrun|].
    split; [rewrite Hup, next_reads, (eof_token_frame _ _ Hfr), after_after;
            reflexivity|].
    split.
    { unfold sync_frame, token_frame in *. psimpl.
      repeat match goal with H : _ /\ _ |- _ => destruct H end.
      repeat split; congruence. }
    rewrite Hsp, Hsc in Hend. exact Hend. }
  induction fuel as [|fuel IH]; intros p Hm.
  - unfold sync_measure in Hm. destruct (bool_decide _); cbn in Hm; lia.
  - cbn [sync_loop]. rewrite !run_gets.
    destruct (anchor (p_tok p)) eqn:Ha.
    + assert (Hne : p_tok p <> EOF) by (intros Ht; rewrite Ht in Ha; congruence).
      destruct ((p_pos p =? p_syncPos p) && (p_syncCnt p <? 10)) eqn:Hsame.
      * apply andb_true_iff in Hsame as [Hpos Hcnt].
        apply Z.eqb_eq in Hpos. apply Z.ltb_lt in Hcnt.
        eexists _, 0%nat. split; [reflexivity|].
        unfold upcoming, sync_frame, token_frame. psimpl.
        split; [rewrite after_0 by discriminate; reflexivity|].
        split; [repeat split|].
        right. rewrite Ha. repeat split; lia.
      * destruct (p_syncPos p <? p_pos p) eqn:Hlt.
        -- apply Z.ltb_lt in Hlt.
           eexists _, 0%nat. split; [reflexivity|].
           unfold upcoming, sync_frame, token_frame. psimpl.
           split; [rewrite after_0 by discriminate; reflexivity|].
           split; [repeat split|].
           right. rewrite Ha. repeat split; lia.
        -- apply Hgo; [exact IH|exact Hne|exact Hm].
    + destruct (bool_decide (p_tok p = EOF)) eqn:He.
      * apply bool_decide_eq_true in He.
        exists p, 0%nat. split; [reflexivity|].
        split; [rewrite after_0 by discriminate; reflexivity|].
        split; [apply sync_frame_refl|]. left. auto.
      * apply bool_decide_eq_false in He.
        apply Hgo; [exact IH|exact He|exact Hm].
Qed.


(** ** The error list *)

Lemma lines_differ_snoc (l : list Error) (e : Error) :
  lines_differ (l ++ [e]) <->
  lines_differ l
  /\ (forall e', last l = Some e' -> Line (Err_Pos e') <> Line (Err_Pos e)).
Proof.
  induction l as [|e1 l IH]; [cbn; split; [intros _; split; [exact I|discriminate]
                                           |intros _; exact I]|].
  destruct l as [|e2 l].
  - cbn. split.
    + intros [Hne _]. split; [exact I|]. intros e' He'. injection He' as <-. exact Hne.
    + intros [_ Hl]. split; [apply Hl; reflexivity|exact I].
  - change (lines_differ ((e1 :: e2 :: l) ++ [e]))
      with (Line (Err_Pos e1) <> Line (Err_Pos e2)
            /\ lines_differ ((e2 :: l) ++ [e])).
    change (lines_differ (e1 :: e2 :: l))
      with (Line (Err_Pos e1) <> Line (Err_Pos e2) /\ lines_differ (e2 :: l)).
    change (last (e1 :: e2 :: l)) with (last (e2 :: l)).
    rewrite IH. tauto.
Qed.

(** parser.error and the error list.  A call returns or bails out, and
    the list afterwards is the old one or the old one with the new error
    at its end: no error is ever dropped or changed.  In the default mode
    the list keeps two properties: no two errors that follow each other
    are on the same line, and it has at most 11 entries.  Nothing but the
    list changes. *)
Theorem error_list_invariant (pos : Pos) (msg : string) (p : parser) :
  exists q,
    (error pos msg p = Ok tt q \/ error pos msg p = Raise bailout q)
    /\ q = set_errors (p_errors q) p
    /\ (p_errors q = p_errors p
        \/ p_errors q = p_errors p ++ [mkError (file_Position pos) msg])
    /\ (Z.land (p_mode p) AllErrors = 0 ->
        lines_differ (p_errors p) -> lines_differ (p_errors q))
    /\ (Z.land (p_mode p) AllErrors = 0 ->
        (length (p_errors p) <= 11)%nat -> (length (p_errors q) <= 11)%nat)
    /\ (Z.land (p_mode p) AllErrors <> 0 ->
        error pos msg p = Ok tt q
        /\ p_errors q = p_errors p ++ [mkError (file_Position pos) msg]).
Proof.
  rewrite error_cases. unfold recorded. cbn [fst snd].
  destruct (Z.eqb_spec (Z.land (p_mode p) AllErrors) 0) as [Hm|Hm].
  - destruct (same_line p pos) eqn:Hsl.
    + exists p. split; [left; reflexivity|].
      split; [symmetry; apply set_errors_same|]. split; [left; reflexivity|].
      split; [auto|]. split; [auto|]. intros Hn. contradiction.
    + destruct (Z.ltb_spec 10 (Z.of_nat (length (p_errors p)))) as [Hlen|Hlen].
      * exists p. split; [right; reflexivity|].
        split; [symmetry; apply set_errors_same|]. split; [left; reflexivity|].
        split; [auto|]. split; [auto|]. intros Hn. contradiction.
      * eexists. split; [left; reflexivity|]. psimpl.
        split; [reflexivity|]. split; [right; reflexivity|].
        split.
        { intros _ Hld. apply lines_differ_snoc. split; [exact Hld|].
          intros e' He'. unfold same_line in Hsl. rewrite He' in Hsl.
          apply Z.eqb_neq in Hsl. exact Hsl. }
        split; [intros _ _; rewrite length_app; cbn; lia|].
        intros Hn. contradiction.
  - eexists. split; [left; reflexivity|]. psimpl.
    split; [reflexivity|]. split; [right; reflexivity|].
    split; [intros Hn; contradiction|]. split; [intros Hn; contradiction|].
    intros _. split; reflexivity.
Qed.

(** ** Semicolons *)

(** expectSemi.  Before a closing parenthesis, a closing brace or a
    DEDENT it does nothing.  At a semicolon it reads it.  At another
    token it does nothing when the token before was a semicolon, a
    comment or a DEDENT; otherwise it panics with the message of
    errorExpected, so that the synchronization that follows in the source
    is never reached.  It never records an error, and when it returns the
    parser is where it was or one token further. *)
Theorem expectSemi_cases (p : parser) :
  let closes := bool_decide (p_tok p = RPAREN) || bool_decide (p_tok p = RBRACE)
                || bool_decide (p_tok p = DEDENT) in
  let ended := bool_decide (p_ptok p = SEMICOLON) || bool_decide (p_ptok p = COMMENT)
               || bool_decide (p_ptok p = DEDENT) in
  (closes = true -> expectSemi p = Ok tt p)
  /\ (p_tok p = SEMICOLON -> expectSemi p = Ok tt (next p))
  /\ (closes = false -> p_tok p <> SEMICOLON -> ended = true ->
      expectSemi p = Ok tt p)
  /\ (closes = false -> p_tok p <> SEMICOLON -> ended = false ->
      exists s, expectSemi p = Raise (PanicMsg s) p)
  /\ (forall q, expectSemi p = Ok tt q -> q = p \/ q = next p)
  /\ (forall e q, expectSemi p = Raise e q -> q = p /\ exists s, e = PanicMsg s).
Proof.
  intros closes ended.
  assert (Hcases :
    expectSemi p =
      if closes then Ok tt p
      else if bool_decide (p_tok p = SEMICOLON) then Ok tt (next p)
      else if ended then Ok tt p
      else errorExpected (p_pos p) "';'" p).
  { unfold expectSemi, closes, ended. rewrite !run_gets.
    destruct (decide (p_tok p = RPAREN)) as [Ht|Ht1].
    { rewrite (bool_decide_true (p_tok p = RPAREN)) by exact Ht.
      rewrite (bool_decide_false (p_tok p <> RPAREN)) by (intros Hn; contradiction).
      reflexivity. }
    rewrite (bool_decide_false (p_tok p = RPAREN)) by exact Ht1.
    rewrite (bool_decide_true (p_tok p <> RPAREN)) by exact Ht1.
    destruct (decide (p_tok p = RBRACE)) as [Ht|Ht2].
    { rewrite (bool_decide_true (p_tok p = RBRACE)) by exact Ht.
      rewrite (bool_decide_false (p_tok p <> RBRACE)) by (intros Hn; contradiction).
      reflexivity. }
    rewrite (bool_decide_false (p_tok p = RBRACE)) by exact Ht2.
    rewrite (bool_decide_true (p_tok p <> RBRACE)) by exact Ht2.
    destruct (decide (p_tok p = DEDENT)) as [Ht|Ht3].
    { rewrite (bool_decide_true (p_tok p = DEDENT)) by exact Ht.
      rewrite (bool_decide_false (p_tok p <> DEDENT)) by (intros Hn; contradiction).
      reflexivity. }
    rewrite (bool_decide_false (p_tok p = DEDENT)) by exact Ht3.
    rewrite (bool_decide_true (p_tok p <> DEDENT)) by exact Ht3.
    cbn [andb orb].
    destruct (bool_decide (p_tok p = SEMICOLON)); [reflexivity|].
    destruct (bool_decide (p_ptok p = SEMICOLON)); [reflexivity|].
    destruct (bool_decide (p_ptok p = COMMENT)); [reflexivity|].
    destruct (bool_decide (p_ptok p = DEDENT)); [reflexivity|].
    cbn [orb]. rewrite run_gets. reflexivity. }
  rewrite Hcases. clear Hcases.
  assert (Hsemi : p_tok p = SEMICOLON -> closes = false).
  { intros Ht. unfold closes. rewrite !bool_decide_false by (rewrite Ht; discriminate).
    reflexivity. }
  split; [intros ->; reflexivity|].
  split; [intros Ht; rewrite (Hsemi Ht), bool_decide_true by exact Ht; reflexivity|].
  split; [intros -> Ht ->; rewrite bool_decide_false by exact Ht; reflexivity|].
  split.
  { intros -> Ht ->. rewrite bool_decide_false by exact Ht.
    unfold errorExpected. eexists. reflexivity. }
  clear Hsemi. clearbody closes ended.
  split.
  - intros q. destruct closes; [intros Hq; injection Hq as <-; auto|].
    destruct (bool_decide _); [intros Hq; injection Hq as <-; auto|].
    destruct ended; [intros Hq; injection Hq as <-; auto|].
    unfold errorExpected. discriminate.
  - intros e q. destruct closes; [discriminate|].
    destruct (bool_decide _); [discriminate|].
    destruct ended; [discriminate|].
    unfold errorExpected. intros Hq. injection Hq as <- <-.
    split; [reflexivity|]. eexists. reflexivity.
Qed.

(** ** Scopes *)

Lemma closeScope_run (p : parser) (r : scope_ref) (sc : Scope) :
  p_topScope p = Some r ->
  scopes (p_store p) !! r = Some sc ->
  closeScope p = Ok tt (set_topScope (Outer sc) p).
Proof.
  intros Ht Hs. unfold closeScope. rewrite run_gets, Ht.
  rewrite (run_deref_scope r sc _ _ Hs). reflexivity.
Qed.

(** openScope and closeScope.  openScope makes a new, empty scope whose
    outer scope is the top scope and makes it the top scope; the scopes
    that exist are left as they are.  Whatever runs in the new scope,
    when it returns with the new scope on top and still nested in the old
    top scope, closeScope gives back the old top scope and changes
    nothing else; in particular closeScope undoes openScope.  closeScope
    without a top scope is a nil dereference. *)
Theorem scopes_balance (p : parser) :
  let new := length (scopes (p_store p)) in
  openScope p = Ok tt (opened p)
  /\ p_topScope (opened p) = Some new
  /\ scopes (p_store (opened p)) !! new = Some (mkScope (p_topScope p) ∅)
  /\ (forall name, Lookup (mkScope (p_topScope p) ∅) name = None)
  /\ (forall r, (r < new)%nat ->
        scopes (p_store (opened p)) !! r = scopes (p_store p) !! r)
  /\ (forall q sc,
        p_topScope q = Some new ->
        scopes (p_store q) !! new = Some sc ->
        Outer sc = p_topScope p ->
        closeScope q = Ok tt (set_topScope (p_topScope p) q))
  /\ bind openScope (fun _ => closeScope) p
     = Ok tt (set_store (p_store (opened p)) p)
  /\ (p_topScope p = None ->
      exists s, closeScope p = Raise (PanicMsg s) p).
Proof.
  intros new.
  split; [apply openScope_ok|].
  assert (Hnew : scopes (p_store (opened p)) !! new = Some (mkScope (p_topScope p) ∅)).
  { unfold opened. psimpl. rewrite lookup_app_r by (unfold new; lia).
    unfold new. rewrite Nat.sub_diag. reflexivity. }
  split; [reflexivity|]. split; [exact Hnew|].
  split; [intros name; apply lookup_empty|].
  split.
  { intros r Hr. unfold opened. psimpl. apply lookup_app_l. exact Hr. }
  split.
  { intros q sc Ht Hs Ho. rewrite (closeScope_run q new sc Ht Hs), Ho. reflexivity. }
  split.
  { rewrite (bind_step _ _ _ _ _ (openScope_ok p)).
    rewrite (closeScope_run (opened p) new _ eq_refl Hnew).
    unfold opened. psimpl. unfold set_topScope, set_store. psimpl.
    destruct p; reflexivity. }
  intros Hnone. unfold closeScope. rewrite run_gets, Hnone.
  eexists. reflexivity.
Qed.

(** ** Resolving *)

Lemma resolve_walk_path (scs : list Scope) (s : option scope_ref) :
  older_chain scs s ->
  forall fuel name p,
    scopes (p_store p) = scs ->
    (forall r, s = Some r -> (r < fuel)%nat) ->
    exists path,
      scope_path scs s path
      /\ resolve_walk fuel s name p = Ok (first_hit name path) p.
Proof.
  induction 1 as [|r sc Hr Hold _ IH]; intros fuel name p Hscs Hfuel.
  - exists []. split; [constructor|]. destruct fuel; reflexivity.
  - destruct fuel as [|fuel]; [specialize (Hfuel r eq_refl); lia|].
    destruct (IH fuel name p Hscs) as (path & Hpath & Hwalk).
    { intros o Ho. specialize (Hold o Ho). specialize (Hfuel r eq_refl). lia. }
    exists (sc :: path). split; [econstructor; eassumption|].
    cbn [resolve_walk first_hit].
    rewrite (run_deref_scope r sc) by (rewrite Hscs; exact Hr).
    destruct (Lookup sc name) as [obj|]; [reflexivity|exact Hwalk].
Qed.

(** tryResolve.  An expression that is not an identifier, and the blank
    identifier, are left alone.  An identifier that already has an object
    is an internal error.  Another identifier is looked up from the top
    scope outward and is pointed at the object of the innermost scope
    that holds its name.  When no scope holds it, it is left alone if
    collectUnresolved is false; otherwise it is marked with the sentinel
    and appended to the unresolved identifiers.  Scopes, objects and the
    other identifiers are never changed. *)
Theorem tryResolve_innermost (x : Expr) (collect : bool) (p : parser) :
  ((forall id, x <> Ident id) -> tryResolve x collect p = Ok tt p)
  /\ (forall id I,
        x = Ident id ->
        idents (p_store p) !! id = Some I ->
        (Obj I <> None -> exists s, tryResolve x collect p = Raise (PanicMsg s) p)
        /\ (Obj I = None -> Name I = "_" -> tryResolve x collect p = Ok tt p)
        /\ (Obj I = None -> Name I <> "_" ->
            older_chain (scopes (p_store p)) (p_topScope p) ->
            exists path,
              scope_path (scopes (p_store p)) (p_topScope p) path
              /\ tryResolve x collect p
                 = Ok tt
                     match first_hit (Name I) path with
                     | Some obj => set_store (set_Obj id (Some obj) (p_store p)) p
                     | None =>
                         if collect
                         then set_unresolved (p_unresolved p ++ [id])
                                (set_store (set_Obj id (Some unresolved) (p_store p)) p)
                         else p
                     end)).
Proof.
  split.
  - intros Hx. destruct x; try reflexivity. exfalso. eapply Hx. reflexivity.
  - intros id I -> HI. unfold tryResolve.
    rewrite (run_deref_ident _ _ _ _ HI).
    split; [|split].
    + intros Hobj. rewrite bool_decide_false by exact Hobj.
      unfold assert. rewrite run_raise. eexists. reflexivity.
    + intros Hobj Hb. rewrite bool_decide_true by exact Hobj.
      rewrite run_assert_true, bool_decide_true by exact Hb. reflexivity.
    + intros Hobj Hb Hchain. rewrite bool_decide_true by exact Hobj.
      rewrite run_assert_true, bool_decide_false by exact Hb.
      rewrite !run_gets.
      destruct (resolve_walk_path _ _ Hchain (length (scopes (p_store p)))
                  (Name I) p eq_refl) as (path & Hpath & Hw).
      { intros r Hr. rewrite Hr in Hchain.
        inversion Hchain as [|? sc Hsc _ _]; subst.
        apply lookup_lt_Some in Hsc. exact Hsc. }
      exists path. split; [exact Hpath|].
      rewrite (bind_step _ _ _ _ _ Hw).
      destruct (first_hit (Name I) path) as [obj|]; [reflexivity|].
      destruct collect; mrun; reflexivity.
Qed.

(** ** Label scopes *)

Lemma set_Obj_same_name id o st (r : ident_ref) :
  match idents (set_Obj id o st) !! r with
  | Some i => Some (NamePos i, Name i)
  | None => None
  end
  = match idents st !! r with
    | Some i => Some (NamePos i, Name i)
    | None => None
    end.
Proof.
  destruct (decide (r = id)) as [->|Hne].
  - destruct (idents st !! id) as [i|] eqn:Hi.
    + rewrite (set_Obj_lookup _ _ _ _ Hi). reflexivity.
    + unfold set_Obj. rewrite Hi. rewrite Hi. reflexivity.
  - rewrite set_Obj_lookup_ne by exact Hne. reflexivity.
Qed.

Lemma label_errors_ext st st' sc targets :
  (forall r : ident_ref, match idents st' !! r with
             | Some i => Some (NamePos i, Name i)
             | None => None
             end
             = match idents st !! r with
               | Some i => Some (NamePos i, Name i)
               | None => None
               end) ->
  label_errors st' sc targets = label_errors st sc targets.
Proof.
  intros Hext. unfold label_errors. induction targets as [|id rest IH]; [reflexivity|].
  cbn [omap list_omap]. rewrite IH. specialize (Hext id).
  destruct (idents st' !! id) as [i'|], (idents st !! id) as [i|];
    try discriminate; [|reflexivity].
  injection Hext as Hp Hn. rewrite Hp, Hn. reflexivity.
Qed.

(** The loop of closeLabelScope, when an error that it reports is
    recorded: DeclarationErrors is unset, or AllErrors is set, or there is
    no error to report. *)
Lemma resolve_labels_spec (r : scope_ref) (sc : Scope) :
  forall (targets : list ident_ref) (p : parser),
    scopes (p_store p) !! r = Some sc ->
    (forall id, id ∈ targets -> is_Some (idents (p_store p) !! id)) ->
    has_mode p DeclarationErrors = false \/ Z.land (p_mode p) AllErrors <> 0
    \/ label_errors (p_store p) sc targets = [] ->
    exists q,
      resolve_labels (Some r) targets p = Ok tt q
      /\ p_errors q
         = p_errors p ++ (if has_mode p DeclarationErrors
                          then label_errors (p_store p) sc targets else [])
      /\ (forall id I, id ∈ targets -> idents (p_store p) !! id = Some I ->
            idents (p_store q) !! id
            = Some (mkIdent (NamePos I) (Name I) (Lookup sc (Name I))))
      /\ (forall id, id ∉ targets ->
            idents (p_store q) !! id = idents (p_store p) !! id)
      /\ objs (p_store q) = objs (p_store p)
      /\ scopes (p_store q) = scopes (p_store p)
      /\ q = set_errors (p_errors q)
               (set_store (set_idents (idents (p_store q)) (p_store p)) p).
Proof.
  induction targets as [|ident rest IH]; intros p Hsc Hall Hmode.
  - exists p. cbn [resolve_labels ret]. split; [reflexivity|].
    split; [destruct (has_mode _ _); rewrite app_nil_r; reflexivity|].
    split; [intros id I Hin; apply elem_of_nil in Hin; contradiction|].
    repeat (split; [reflexivity|]).
    destruct p as [? ? ? ? ? ? ? ? ? ? ? ? ? ? ? ? ? ? ? ? ? st]; destruct st;
      reflexivity.
  - destruct (Hall ident ltac:(left)) as [I HI].
    cbn [resolve_labels].
    rewrite (run_deref_ident _ _ _ _ HI), (run_deref_scope r sc _ _ Hsc).
    rewrite run_assign_Obj, run_gets. psimpl.
    set (p1 := set_store (set_Obj ident (Lookup sc (Name I)) (p_store p)) p).
    change (has_mode p1 DeclarationErrors) with (has_mode p DeclarationErrors).
    set (e := mkError (file_Position (NamePos I)) ("label " +:+ Name I +:+ " undefined")).
    assert (Hstep : exists p2,
               (if bool_decide (Lookup sc (Name I) = None)
                   && has_mode p DeclarationErrors
                then error (NamePos I) ("label " +:+ Name I +:+ " undefined")
                else ret tt) p1 = Ok tt p2
               /\ p2 = set_errors (p_errors p2) p1
               /\ p_errors p2
                  = p_errors p ++ (if has_mode p DeclarationErrors
                                   then label_errors (p_store p) sc [ident] else [])).
    { unfold label_errors. cbn [omap list_omap]. rewrite HI.
      destruct (Lookup sc (Name I)) as [o|] eqn:Hl.
      - rewrite bool_decide_false by discriminate. cbn [andb].
        exists p1. split; [reflexivity|].
        split; [symmetry; apply set_errors_same|].
        destruct (has_mode p DeclarationErrors); cbn; rewrite app_nil_r; reflexivity.
      - rewrite bool_decide_true by reflexivity. cbn [andb].
        destruct (has_mode p DeclarationErrors) eqn:Hd.
        + destruct Hmode as [Hm|[Hm|Hm]]; [discriminate| |].
          * rewrite (error_AllErrors _ _ p1 Hm). eexists. split; [reflexivity|].
            psimpl. split; reflexivity.
          * unfold label_errors in Hm. cbn [omap list_omap] in Hm.
            rewrite HI, Hl in Hm. discriminate.
        + exists p1. split; [reflexivity|].
          split; [symmetry; apply set_errors_same|].
          cbn. rewrite app_nil_r. reflexivity. }
    destruct Hstep as (p2 & Hrun & Hp2 & Herr2).
    rewrite (bind_step _ _ _ _ _ Hrun).
    assert (Hst2 : p_store p2 = set_Obj ident (Lookup sc (Name I)) (p_store p)).
    { rewrite Hp2. reflexivity. }
    assert (Hmode2 : p_mode p2 = p_mode p) by (rewrite Hp2; reflexivity).
    destruct (IH p2) as (q & Hq & Herr & Hin & Hout & Hobjs & Hscs & Hqeq).
    { rewrite Hst2, set_Obj_scopes. exact Hsc. }
    { intros id Hid. rewrite Hst2.
      destruct (Hall id ltac:(right; exact Hid)) as [I' HI'].
      pose proof (set_Obj_same_name ident (Lookup sc (Name I)) (p_store p) id) as Hn.
      rewrite HI' in Hn. destruct (idents (set_Obj _ _ _) !! id); [eauto|discriminate]. }
    { unfold has_mode. rewrite Hmode2.
      destruct Hmode as [Hm|[Hm|Hm]]; [left; exact Hm|right; left; exact Hm|].
      right. right. rewrite Hst2.
      rewrite (label_errors_ext (p_store p) (set_Obj ident _ (p_store p)))
        by (apply set_Obj_same_name).
      unfold label_errors in Hm |- *. cbn [omap list_omap] in Hm.
      destruct (match idents (p_store p) !! ident with
                | Some i => _ | None => None end); [discriminate|exact Hm]. }
    exists q. split; [exact Hq|].
    assert (Hhm : has_mode p2 DeclarationErrors = has_mode p DeclarationErrors).
    { unfold has_mode. rewrite Hmode2. reflexivity. }
    split.
    { rewrite Herr, Herr2, Hhm, <- app_assoc. f_equal.
      destruct (has_mode p DeclarationErrors); [|reflexivity].
      rewrite Hst2, (label_errors_ext (p_store p) (set_Obj ident _ (p_store p)))
        by (apply set_Obj_same_name).
      unfold label_errors. cbn [omap list_omap].
      destruct (idents (p_store p) !! ident) as [i|]; [|reflexivity].
      destruct (Lookup sc (Name i)); reflexivity. }
    split.
    { intros id I' Hid HI'.
      destruct (decide (id ∈ rest)) as [Hr|Hr].
      - destruct (decide (id = ident)) as [->|Hne].
        + rewrite HI in HI'. injection HI' as <-.
          rewrite (Hin ident (mkIdent (NamePos I) (Name I) (Lookup sc (Name I))) Hr)
            by (rewrite Hst2; apply set_Obj_lookup; exact HI).
          reflexivity.
        + apply (Hin id I' Hr). rewrite Hst2, set_Obj_lookup_ne by exact Hne.
          exact HI'.
      - apply elem_of_cons in Hid as [->|Hid]; [|contradiction].
        rewrite HI in HI'. injection HI' as <-.
        rewrite (Hout ident Hr), Hst2. apply set_Obj_lookup. exact HI. }
    split.
    { intros id Hid. apply not_elem_of_cons in Hid as [Hne Hr].
      rewrite (Hout id Hr), Hst2. apply set_Obj_lookup_ne. exact Hne. }
    split; [rewrite Hobjs, Hst2; apply set_Obj_objs|].
    split; [rewrite Hscs, Hst2; apply set_Obj_scopes|].
    rewrite Hqeq at 1. rewrite Hp2. unfold p1. psimpl.
    rewrite set_idents_set_Obj. reflexivity.
Qed.


(** ** Identifiers and branch statements *)

Lemma next_store (p : parser) :
  p_store (next p) = p_store p /\ p_targetStack (next p) = p_targetStack p
  /\ p_errors (next p) = p_errors p /\ p_topScope (next p) = p_topScope p
  /\ p_mode (next p) = p_mode p /\ p_unresolved (next p) = p_unresolved p.
Proof.
  destruct (next_spec p) as (_ & _ & _ & Hfr & _). cbv zeta in Hfr.
  unfold token_frame in Hfr.
  repeat match goal with H : _ /\ _ |- _ => destruct H end.
  repeat split; assumption.
Qed.

Lemma parseIdent_IDENT (p : parser) :
  p_tok p = IDENT ->
  parseIdent p
  = Ok (length (idents (p_store p)))
       (set_store
          (set_idents (idents (p_store p) ++ [mkIdent (p_pos p) (p_lit p) None])
                      (p_store p))
          (next p)).
Proof.
  intros Ht. unfold parseIdent. rewrite !run_gets, Ht.
  rewrite bool_decide_true by reflexivity. rewrite run_bind, run_gets, run_bind.
  rewrite run_modify, run_ret. unfold alloc_ident, new_ident.
  destruct (next_store p) as (-> & _). reflexivity.
Qed.

(** parseBranchStmt, with the states after the keyword and after the
    label named. *)
Lemma parseBranchStmt_run (tok : Token) (p p1 p2 : parser) :
  p1 = next p -> p2 = next p1 ->
  let id := length (idents (p_store p)) in
  let labelled :=
    set_store
      (set_idents (idents (p_store p) ++ [mkIdent (p_pos p1) (p_lit p1) None])
                  (p_store p))
      p2 in
  p_tok p = tok ->
  (tok = FALLTHROUGH \/ p_tok p1 <> IDENT ->
   parseBranchStmt tok p
   = bind expectSemi (fun _ => ret (BranchStmt (p_pos p) tok None)) p1)
  /\ (tok <> FALLTHROUGH -> p_tok p1 = IDENT ->
      (p_targetStack p = [] ->
       parseBranchStmt tok p
       = Raise (PanicMsg "runtime error: index out of range") labelled)
      /\ (forall stack targets,
            p_targetStack p = stack ++ [targets] ->
            parseBranchStmt tok p
            = bind expectSemi (fun _ => ret (BranchStmt (p_pos p) tok (Some id)))
                   (set_targetStack (stack ++ [targets ++ [id]]) labelled))).
Proof.
  intros Hp1 Hp2 id labelled Htok.
  assert (Hhead : forall (k : Pos -> M Stmt),
             bind (expect tok) k p = k (p_pos p) p1).
  { intros k. rewrite (bind_step _ _ _ _ _ (expect_ok tok p Htok)), <- Hp1.
    reflexivity. }
  destruct (next_store p) as (Hst1 & Hts1 & _). rewrite <- Hp1 in Hst1, Hts1.
  destruct (next_store p1) as (Hst2 & Hts2 & _). rewrite <- Hp2 in Hst2, Hts2.
  clear Hp1.
  split.
  - intros Hno. unfold parseBranchStmt. rewrite Hhead, run_gets.
    replace (bool_decide (tok <> FALLTHROUGH) && bool_decide (p_tok p1 = IDENT))
      with false.
    2:{ destruct Hno as [->|Hne].
        - rewrite bool_decide_false by (intros Hn; apply Hn; reflexivity).
          reflexivity.
        - rewrite (bool_decide_false (p_tok p1 = IDENT)) by exact Hne.
          symmetry. apply andb_false_r. }
    rewrite run_ret. reflexivity.
  - intros Hnf Hid.
    assert (Hlab : parseIdent p1 = Ok id labelled).
    { rewrite (parseIdent_IDENT p1 Hid), <- Hp2, Hst1. reflexivity. }
    clear Hp2.
    assert (Hstack : p_targetStack labelled = p_targetStack p).
    { unfold labelled. psimpl. rewrite Hts2, Hts1. reflexivity. }
    clearbody labelled.
    split.
    + intros Hnil. unfold parseBranchStmt. rewrite Hhead, run_gets.
      rewrite bool_decide_true by exact Hnf. rewrite bool_decide_true by exact Hid.
      cbn [andb]. rewrite !run_bind.
      rewrite (bind_step _ _ _ _ _ Hlab), run_bind, run_gets, Hstack, Hnil.
      reflexivity.
    + intros stack targets Hs. unfold parseBranchStmt. rewrite Hhead, run_gets.
      rewrite bool_decide_true by exact Hnf. rewrite bool_decide_true by exact Hid.
      cbn [andb]. rewrite !run_bind.
      rewrite (bind_step _ _ _ _ _ Hlab), run_bind, run_gets, Hstack, Hs, last_snoc.
      rewrite run_bind, run_modify, run_ret, removelast_last. reflexivity.
Qed.


(** ** Identifier lists *)

Lemma next_to (p : parser) pos tok lit rest :
  sc_toks (p_scanner p) = (pos, tok, lit) :: rest ->
  tok <> COMMENT ->
  upcoming (next p) = (pos, tok, lit) :: rest.
Proof.
  intros Hs Hne. rewrite (next_plain p _ _ _ _ Hs Hne). reflexivity.
Qed.

Lemma next_at (p : parser) pos tok lit rest :
  sc_toks (p_scanner p) = (pos, tok, lit) :: rest ->
  tok <> COMMENT ->
  p_pos (next p) = pos /\ p_tok (next p) = tok /\ p_lit (next p) = lit
  /\ sc_toks (p_scanner (next p)) = rest.
Proof.
  intros Hs Hne. rewrite (next_plain p _ _ _ _ Hs Hne). repeat split.
Qed.

Lemma listed_head_plain (more : list listed) pn tn ln rest :
  tn <> COMMENT ->
  exists pos tok lit tl,
    listed_tokens more ++ (pn, tn, ln) :: rest = (pos, tok, lit) :: tl
    /\ tok <> COMMENT.
Proof.
  intros Hn. destruct more as [|m more]; cbn.
  - eexists _, _, _, _. split; [reflexivity|exact Hn].
  - eexists _, _, _, _. split; [reflexivity|discriminate].
Qed.

Lemma listed_tokens_length (more : list listed) :
  length (listed_tokens more) = (2 * length more)%nat.
Proof.
  induction more as [|m more IH]; [reflexivity|].
  change (listed_tokens (m :: more))
    with ([(comma_pos m, COMMA, comma_lit m); (name_pos m, IDENT, name_lit m)]
          ++ listed_tokens more).
  rewrite length_app, IH. cbn [length]. lia.
Qed.

(** The loop of parseIdentList over the identifiers after the first. *)
Lemma parseIdentList_loop_spec pn tn ln rest :
  tn <> COMMA -> tn <> COMMENT ->
  forall (more : list listed) (fuel : nat) (lst : list ident_ref) (p : parser),
    upcoming p = listed_tokens more ++ (pn, tn, ln) :: rest ->
    (length more <= fuel)%nat ->
    exists q,
      parseIdentList_loop fuel lst p
      = Ok (lst ++ seq (length (idents (p_store p))) (length more)) q
      /\ idents (p_store q) = idents (p_store p) ++ map listed_ident more
      /\ objs (p_store q) = objs (p_store p)
      /\ scopes (p_store q) = scopes (p_store p)
      /\ upcoming q = (pn, tn, ln) :: rest
      /\ p_errors q = p_errors p
      /\ p_unresolved q = p_unresolved p.
Proof.
  intros Hcomma Hcomment.
  induction more as [|m more IH]; intros fuel lst p Hup Hfuel.
  - cbn in Hup. unfold upcoming in Hup. injection Hup as Hpos Htok Hlit Hs.
    exists p.
    assert (Hrun : parseIdentList_loop fuel lst p = Ok lst p).
    { destruct fuel; cbn [parseIdentList_loop]; rewrite run_gets, Htok;
        rewrite bool_decide_false by exact Hcomma; reflexivity. }
    rewrite Hrun. cbn [length seq map]. rewrite !app_nil_r.
    unfold upcoming. rewrite Hpos, Htok, Hlit, Hs. repeat split.
  - destruct fuel as [|fuel]; [cbn in Hfuel; lia|].
    cbn [listed_tokens flat_map app] in Hup. unfold upcoming in Hup.
    injection Hup as Hpos Htok Hlit Hs.
    fold (listed_tokens more) in Hs.
    cbn [parseIdentList_loop]. rewrite run_gets, Htok.
    rewrite bool_decide_true by reflexivity. rewrite run_modify.
    destruct (next_at p _ _ _ _ Hs ltac:(discriminate))
      as (Hpos1 & Htok1 & Hlit1 & Hs1).
    destruct (next_store p) as (Hst1 & _ & Her1 & _ & _ & Hun1).
    set (p1 := next p) in *.
    rewrite (bind_step _ _ _ _ _ (parseIdent_IDENT p1 Htok1)).
    destruct (listed_head_plain more pn tn ln rest Hcomment)
      as (pos & tok & lit & tl & Hhead & Hplain).
    rewrite Hhead in Hs1.
    pose proof (next_to p1 _ _ _ _ Hs1 Hplain) as Hup2.
    destruct (next_store p1) as (Hst2 & _ & Her2 & _ & _ & Hun2).
    set (p2 := next p1) in *.
    rewrite <- Hhead in Hup2.
    set (p3 := set_store _ p2).
    destruct (IH fuel (lst ++ [length (idents (p_store p1))]) p3)
      as (q & Hrun & Hids & Hobjs & Hscs & Hupq & Herr & Hun).
    { exact Hup2. }
    { cbn in Hfuel. lia. }
    exists q.
    assert (Hids3 : idents (p_store p3)
                    = idents (p_store p) ++ [listed_ident m]).
    { unfold p3. psimpl. rewrite Hst1, Hpos1, Hlit1. reflexivity. }
    split.
    { etransitivity; [exact Hrun|]. f_equal.
      rewrite Hids3, length_app, <- app_assoc, Hst1. cbn [length seq app].
      rewrite Nat.add_1_r. reflexivity. }
    split; [rewrite Hids, Hids3, <- app_assoc; reflexivity|].
    split; [rewrite Hobjs; unfold p3; psimpl; rewrite Hst1; reflexivity|].
    split; [rewrite Hscs; unfold p3; psimpl; rewrite Hst1; reflexivity|].
    split; [exact Hupq|].
    split; [rewrite Herr; unfold p3; psimpl; congruence|].
    rewrite Hun. unfold p3. psimpl. congruence.
Qed.


End ParserFacts.

(* ===================================================================== *)
(** * The theorems at the examples *)
(* ===================================================================== *)

Section Examples.
Import token ast parser printer fragment examples.

(** ** Errors *)

(** Fifty errors on fifty lines, in the default mode: the hypotheses of
    the theorem hold and the run ends in the bailout with the first
    eleven errors recorded. *)
Lemma error_bailout_after_eleven_witness :
  Z.land (p_mode empty_input) AllErrors = 0
  /\ p_errors empty_input = []
  /\ fresh_lines None fifty_errors
  /\ (11 < length fifty_errors)%nat
  /\ report fifty_errors empty_input
     = Raise bailout
         (set_errors (map recorded (take 11 fifty_errors)) empty_input).
Proof.
  assert (Hf : fresh_lines None fifty_errors).
  { vm_compute. repeat split; discriminate. }
  split; [reflexivity|]. split; [reflexivity|]. split; [exact Hf|].
  split; [vm_compute; lia|].
  apply (error_bailout_after_eleven 0 "" empty_input fifty_errors);
    [reflexivity|reflexivity|exact Hf|vm_compute; lia].
Defined.

(** Eleven errors are in the list when the parser bails out, not ten. *)
Lemma eleven_errors_recorded :
  exists q,
    report fifty_errors empty_input = Raise bailout q
    /\ length (p_errors q) = 11%nat
    /\ ~ (length (p_errors q) <= 10)%nat.
Proof.
  eexists. split; [vm_compute; reflexivity|]. split; [reflexivity|].
  cbn. lia.
Qed.

(** At [package 1] the parser is at the literal and expects an
    identifier: expect panics, parseFile ends in that panic, and no error
    is recorded. *)
Lemma errorExpected_panics_witness :
  p_tok (next package_1) <> IDENT
  /\ (exists s, expect IDENT (next package_1)
                = Raise (PanicMsg s) (next package_1))
  /\ exists q,
       parseFile package_1
       = Raise (PanicMsg "demo.igo:1:9 expected 'IDENT', found 'INT' 1") q
       /\ p_errors q = [].
Proof.
  assert (Hne : p_tok (next package_1) <> IDENT) by (vm_compute; discriminate).
  split; [exact Hne|]. split.
  - exact (proj2 (errorExpected_panics 0 "" IDENT (next package_1)) Hne).
  - eexists. split; [vm_compute; reflexivity|reflexivity].
Defined.

(** ** Blocks *)

(** The block of [: return] closes at 200, the token after the semicolon,
    which is at 113. *)
Lemma short_return_closing :
  exists q,
    p_tok short_return = COLON
    /\ parseBlockStmt short_return
       = Ok (mkBlockStmt 105 [ReturnStmt 107 []] 200 true) q
    /\ sc_toks (p_scanner (next short_return))
       = [(113, SEMICOLON, parser.newline); (200, IDENT, "y");
          (201, SEMICOLON, parser.newline)]
    /\ 200 <> 113.
Proof.
  eexists. split; [reflexivity|]. split; [vm_compute; reflexivity|].
  split; [reflexivity|discriminate].
Qed.

(** The block of [: x++] closes at its semicolon. *)
Lemma short_block_closing_witness :
  let s := IncDecStmt (Ident 0%nat) 108 INC in
  p_tok short_incr = COLON
  /\ parseSmallStmt (opened (next short_incr)) = Ok s short_incr_q
  /\ closeScope short_incr_q = Ok tt short_incr_q2
  /\ expectSemi short_incr_q2 = Ok tt short_incr_q3
  /\ p_tok short_incr_q = SEMICOLON /\ p_pos short_incr_q = 113
  /\ parseBlockStmt short_incr = Ok (mkBlockStmt 105 [s] 113 true) short_incr_q3.
Proof.
  cbv zeta.
  assert (Hc : p_tok short_incr = COLON) by reflexivity.
  assert (Hs : parseSmallStmt (opened (next short_incr))
               = Ok (IncDecStmt (Ident 0%nat) 108 INC) short_incr_q)
    by (vm_compute; reflexivity).
  assert (Hcl : closeScope short_incr_q = Ok tt short_incr_q2)
    by (vm_compute; reflexivity).
  assert (Hse : expectSemi short_incr_q2 = Ok tt short_incr_q3)
    by (vm_compute; reflexivity).
  exact (conj Hc (conj Hs (conj Hcl (conj Hse (conj eq_refl (conj eq_refl
           (proj1 (short_block_closing short_incr 0%nat
                     (IncDecStmt (Ident 0%nat) 108 INC)
                     short_incr_q short_incr_q2 short_incr_q3 Hc) Hs Hcl Hse))))))).
Defined.

(** ** Calls *)

(** [(1, 2) do (): return] is parsed into a call of three arguments and
    printed back in the do form. *)
Lemma do_sugar_witness :
  let p1 := set_exprLev (p_exprLev (next call_do) + 1) (next call_do) in
  let q1 := set_exprLev (p_exprLev call_do_q + -1) call_do_q in
  let q2 := next q1 in
  let sig := (mkFieldList 111 [] 112, None) in
  let body := mkBlockStmt 113 [ReturnStmt 115 []] 200 true in
  p_tok call_do = LPAREN
  /\ parseCallArgs (S (length (sc_toks (p_scanner p1)))) [] NoPos p1
     = Ok (two_args, NoPos) call_do_q
  /\ p_tok q1 = RPAREN
  /\ p_tok q2 = DO
  /\ parseSignature (length (scopes (p_store (next q2)))) (with_func_scope (next q2))
     = Ok sig call_do_q3
  /\ parseBody (length (scopes (p_store (next q2))))
               (set_exprLev (p_exprLev call_do_q3 + 1) call_do_q3)
     = Ok body call_do_q4
  /\ IsValid NoPos = false
  /\ parseCallOrConversion (Ident 0%nat) call_do
     = Ok (CallExpr (Ident 0%nat) 101 (two_args ++ [do_lit 108 111 112 113 115 200])
                    NoPos 106)
          (set_exprLev (p_exprLev call_do_q4 + -1) call_do_q4)
  /\ expr1_CallExpr
       (CallExpr (Ident 0%nat) 101 (two_args ++ [do_lit 108 111 112 113 115 200])
                 NoPos 106) 0 []
     = print_do_call (Ident 0%nat) 101 two_args 106
         (Some (mkFieldList 111 [] 112)) None
         (mkBlockStmt 113 [ReturnStmt 115 []] 200 true) 1 [].
Proof.
  cbv zeta.
  assert (Hlp : p_tok call_do = LPAREN) by reflexivity.
  assert (Hargs : parseCallArgs
                    (S (length (sc_toks (p_scanner
                       (set_exprLev (p_exprLev (next call_do) + 1) (next call_do))))))
                    [] NoPos
                    (set_exprLev (p_exprLev (next call_do) + 1) (next call_do))
                  = Ok (two_args, NoPos) call_do_q) by (vm_compute; reflexivity).
  assert (Hrp : p_tok (set_exprLev (p_exprLev call_do_q + -1) call_do_q) = RPAREN)
    by reflexivity.
  assert (Hdo : p_tok (next (set_exprLev (p_exprLev call_do_q + -1) call_do_q)) = DO)
    by reflexivity.
  assert (Hsig : parseSignature
                   (length (scopes (p_store (next (next
                      (set_exprLev (p_exprLev call_do_q + -1) call_do_q))))))
                   (with_func_scope (next (next
                      (set_exprLev (p_exprLev call_do_q + -1) call_do_q))))
                 = Ok (mkFieldList 111 [] 112, None) call_do_q3)
    by (vm_compute; reflexivity).
  assert (Hbody : parseBody
                    (length (scopes (p_store (next (next
                       (set_exprLev (p_exprLev call_do_q + -1) call_do_q))))))
                    (set_exprLev (p_exprLev call_do_q3 + 1) call_do_q3)
                  = Ok (mkBlockStmt 113 [ReturnStmt 115 []] 200 true) call_do_q4)
    by (vm_compute; reflexivity).
  pose proof (do_sugar (Ident 0%nat) call_do two_args NoPos call_do_q
                (mkFieldList 111 [] 112, None)
                (mkBlockStmt 113 [ReturnStmt 115 []] 200 true)
                call_do_q3 call_do_q4 101 106 (Some (mkFieldList 111 [] 112)) None
                108 0 [] Hlp Hargs Hrp) as (Hparse & _ & Hprint).
  exact (conj Hlp (conj Hargs (conj Hrp (conj Hdo (conj Hsig (conj Hbody
           (conj eq_refl (conj (Hparse Hdo Hsig Hbody) (Hprint eq_refl))))))))).
Defined.

(** A call with an ellipsis: the parser builds it from [(xs...) do (): return], and the printer emits the function
    literal as an argument inside the parentheses, before the [...],
    without [do]. *)
Lemma do_call_with_ellipsis :
  exists q,
    let x := CallExpr (Ident 0%nat) 101
               [Ident 0%nat; do_lit 109 112 113 114 116 200] 104 107 in
    parseCallOrConversion (Ident 0%nat) call_ellipsis_do = Ok x q
    /\ expr1_CallExpr x 0 []
       = [EvExpr1 (Ident 0%nat) 7 1;
          EvPrint [PPos 101; PTok LPAREN];
          EvExprList 101 [Ident 0%nat; do_lit 109 112 113 114 116 200] 1 0 104;
          EvPrint [PPos 104; PTok ELLIPSIS];
          EvPrint [PPos 107; PTok RPAREN]]
    /\ expr1_CallExpr x 0 []
       <> print_do_call (Ident 0%nat) 101 [Ident 0%nat] 107
            (Some (mkFieldList 112 [] 113)) None
            (mkBlockStmt 114 [ReturnStmt 116 []] 200 true) 1 [].
Proof.
  eexists. cbv zeta. split; [vm_compute; reflexivity|].
  split; [reflexivity|]. vm_compute. discriminate.
Qed.

(** ** Receivers *)

(** The receiver of [func T.m(): return]. *)
Lemma method_receiver_witness :
  let recv := mkField None [1%nat] (Some (Ident 0%nat)) None None in
  scopes (p_store method_T_m) !! 1%nat = Some (mkScope (Some 0%nat) ∅)
  /\ (∅ : gmap string obj_ref) !! "self" = None
  /\ p_tok method_T_m = IDENT
  /\ sc_toks (p_scanner method_T_m)
     = [(207, PERIOD, "."); (208, IDENT, "m"); (209, LPAREN, "(");
        (210, RPAREN, ")"); (211, COLON, ":"); (213, RETURN, "return");
        (219, SEMICOLON, parser.newline)]
  /\ older_chain (scopes (p_store method_T_m)) (p_topScope method_T_m)
  /\ (forall r, p_topScope method_T_m = Some r -> (r < 1)%nat)
  /\ exists q tobj,
       parseFuncDecl_name 1%nat method_T_m
       = Ok (Some (mkFieldList 206 [recv] 209), 2%nat) q
       /\ idents (p_store q)
          = [mkIdent 206 "T" tobj; mkIdent NoPos "self" (Some 1%nat);
             mkIdent 208 "m" None]
       /\ objs (p_store q)
          = [mkObject Bad "" DeclNil DataNil;
             mkObject Var "self" (DeclField recv) DataNil]
       /\ scopes (p_store q)
          = [mkScope None ∅; mkScope (Some 0%nat) {["self" := 1%nat]}].
Proof.
  cbv zeta.
  assert (Hsc : scopes (p_store method_T_m) !! 1%nat = Some (mkScope (Some 0%nat) ∅))
    by reflexivity.
  assert (Hfree : (∅ : gmap string obj_ref) !! "self" = None) by reflexivity.
  assert (Hch : older_chain (scopes (p_store method_T_m)) (p_topScope method_T_m)).
  { apply (older_cons _ 0%nat (mkScope None ∅)); [reflexivity|discriminate|constructor]. }
  assert (Hlt : forall r, p_topScope method_T_m = Some r -> (r < 1)%nat).
  { intros r Hr. vm_compute in Hr. injection Hr as <-. lia. }
  split; [exact Hsc|]. split; [exact Hfree|]. split; [reflexivity|].
  split; [reflexivity|]. split; [exact Hch|]. split; [exact Hlt|].
  destruct (proj1 (proj2 (method_receiver method_T_m 1%nat (mkScope (Some 0%nat) ∅)
                            Hsc Hfree))
              207 "." 208 "m" 209 LPAREN "("
              [(210, RPAREN, ")"); (211, COLON, ":"); (213, RETURN, "return");
               (219, SEMICOLON, parser.newline)]
              eq_refl eq_refl ltac:(discriminate) Hch Hlt)
    as (q & tobj & Hrun & Hids & Hobjs & Hscs & _).
  exists q, tobj. split; [exact Hrun|]. split; [exact Hids|].
  split; [exact Hobjs|]. rewrite Hscs. vm_compute. reflexivity.
Defined.

(** The same for the pointer receiver. *)
Example pointer_receiver :
  exists q,
    parseFuncDecl_name 1%nat method_star_T_n
    = Ok (Some (mkFieldList 306
                  [mkField None [1%nat] (Some (StarExpr 306 (Ident 0%nat))) None None]
                  310), 2%nat) q
    /\ idents (p_store q)
       = [mkIdent 307 "T" None; mkIdent NoPos "self" (Some 1%nat);
          mkIdent 309 "n" None]
    /\ p_unresolved q = [].
Proof. eexists. split; [vm_compute; reflexivity|]. split; reflexivity. Qed.

(** ** Declarations *)

(** The second [x] of a parameter list: the scope holds the first, and
    under DeclarationErrors and AllErrors the error is recorded with the
    position of the first. *)
Lemma declare_redeclaration_witness :
  let i := mkIdent 112 "x" None in
  let sc := mkScope None {["x" := 1%nat]} in
  idents (p_store x_twice) !! 1%nat = Some i
  /\ Obj i = None
  /\ scopes (p_store x_twice) !! 0%nat = Some sc
  /\ exists q,
       declare (DeclField x_field) DataNil (Some 0%nat) Var [1%nat] x_twice
       = Ok tt q
       /\ p_errors q
          = [mkError (mkPosition "demo.igo" 111 2 12)
               ("x redeclared in this block" +:+ parser.newline +:+ tab +:+
                "previous declaration at demo.igo:2:5")]
       /\ scopes (p_store q) = scopes (p_store x_twice)
       /\ idents (p_store q) !! 1%nat = Some (mkIdent 112 "x" (Some 2%nat)).
Proof.
  cbv zeta.
  assert (Hi : idents (p_store x_twice) !! 1%nat = Some (mkIdent 112 "x" None))
    by reflexivity.
  assert (Hsc : scopes (p_store x_twice) !! 0%nat
                = Some (mkScope None {["x" := 1%nat]})) by reflexivity.
  split; [exact Hi|]. split; [reflexivity|]. split; [exact Hsc|].
  destruct (declare_redeclaration (DeclField x_field) DataNil 0%nat Var 1%nat []
              (mkIdent 112 "x" None) (mkScope None {["x" := 1%nat]}) x_twice
              Hi eq_refl Hsc)
    as (_ & Hid & Hscs & _ & _ & Hre & _).
  destruct (Hre ltac:(discriminate) 1%nat eq_refl) as [_ Herr].
  destruct (Herr eq_refl
              (mkObject Var "x" (DeclField x_field) DataNil) 105
              eq_refl eq_refl) as [_ Hall].
  eexists. split; [apply Hall; discriminate|].
  split; [reflexivity|]. split; [exact Hscs|exact Hid].
Defined.

(** The parameter [self] of a method collides with the receiver, whose
    identifier has no position: the message has no second line. *)
Lemma receiver_redeclared_without_position :
  exists q,
    has_mode self_param DeclarationErrors = true
    /\ idents (p_store self_param) !! 3%nat = Some (mkIdent 210 "self" None)
    /\ declare (DeclField self_field) DataNil (Some 1%nat) Var [3%nat] self_param
       = Ok tt q
    /\ p_errors q
       = [mkError (mkPosition "demo.igo" 209 3 10) "self redeclared in this block"]
    /\ scopes (p_store q) = scopes (p_store self_param).
Proof.
  eexists. split; [reflexivity|]. split; [reflexivity|].
  split; [vm_compute; reflexivity|]. split; reflexivity.
Qed.

(** ** Functions in the package scope *)


(** A function [f] is declared in the package scope; a method [T.m] is
    not. *)
Example func_f_declared :
  exists d q sc,
    parseFuncDecl func_f = Ok d q
    /\ scopes (p_store q) !! 0%nat = Some sc
    /\ Lookup sc "f" = Some 1%nat
    /\ objs (p_store q) !! 1%nat = Some (mkObject Fun "f" (DeclFunc d) DataNil).
Proof.
  eexists _, _, _. split; [vm_compute; reflexivity|].
  split; [reflexivity|]. split; reflexivity.
Qed.

Example method_not_declared :
  exists d q,
    parseFuncDecl func_T_m = Ok d q
    /\ FuncDecl_Recv d <> None
    /\ scopes (p_store q) !! 0%nat = Some (mkScope None ∅).
Proof.
  eexists _, _. split; [vm_compute; reflexivity|].
  split; [discriminate|reflexivity].
Qed.

(** ** The end of the file *)

(** [package p], [func f(): return g, f]: at the end [g] and the second
    [f] are collected; [f] is linked to the function and [g] survives. *)
Lemma unresolved_at_end_witness :
  p_pkgScope file_f_g_end = Some 0%nat
  /\ scopes (p_store file_f_g_end) !! 0%nat = Some (mkScope None {["f" := 1%nat]})
  /\ p_unresolved file_f_g_end = [2%nat; 3%nat]
  /\ (exists q,
        resolveGlobals 2 0 0 file_f_g_end = Ok 1%nat q
        /\ take 1 (p_unresolved q) = [2%nat]
        /\ idents (p_store q) !! 2%nat = Some (mkIdent 118 "g" None)
        /\ idents (p_store q) !! 3%nat = Some (mkIdent 121 "f" (Some 1%nat)))
  /\ exists f q,
       parseFile file_f_g = Ok (Some f) q /\ File_Unresolved f = [2%nat].
Proof.
  assert (Hpkg : p_pkgScope file_f_g_end = Some 0%nat) by reflexivity.
  assert (Hsc : scopes (p_store file_f_g_end) !! 0%nat
                = Some (mkScope None {["f" := 1%nat]})) by reflexivity.
  assert (Hnd : NoDup (p_unresolved file_f_g_end)).
  { change (NoDup [2%nat; 3%nat]). apply NoDup_cons_2; [|apply NoDup_singleton].
    intros Hin. apply list_elem_of_singleton in Hin. discriminate. }
  assert (Hsent : forall id, id ∈ p_unresolved file_f_g_end ->
            exists I, idents (p_store file_f_g_end) !! id = Some I
                      /\ Obj I = Some unresolved).
  { intros id Hid. change (id ∈ [2%nat; 3%nat]) in Hid.
    apply elem_of_cons in Hid as [->|Hid]; [eexists; split; reflexivity|].
    apply elem_of_cons in Hid as [->|Hid]; [eexists; split; reflexivity|].
    apply elem_of_nil in Hid. destruct Hid. }
  split; [exact Hpkg|]. split; [exact Hsc|]. split; [reflexivity|].
  split.
  - destruct (proj1 (unresolved_at_end file_f_g_end 0%nat
                       (mkScope None {["f" := 1%nat]}) Hpkg Hsc Hnd Hsent))
      as (q & Hrun & Htake & Hids & _).
    exists q. split; [exact Hrun|]. split; [exact Htake|]. split.
    + apply (Hids 2%nat (mkIdent 118 "g" (Some 0%nat)));
        [apply list_elem_of_here|reflexivity].
    + apply (Hids 3%nat (mkIdent 121 "f" (Some 0%nat)));
        [apply list_elem_of_further, list_elem_of_here|reflexivity].
  - eexists _, _. split; [vm_compute; reflexivity|reflexivity].
Defined.

(** ** The type column *)


End Examples.

(* ===================================================================== *)
(** * Labels and identifier lists at the examples *)
(* ===================================================================== *)

Section MoreExamples.
Import token ast parser printer fragment examples.



End MoreExamples.
